(** * Dictionary matcher and query overlay engine

    A shallow embedding of [app/services/matcher.py],
    [app/services/audio_query_service.py] and the two dictionary-applying
    handlers of [app/routers/synthesis.py], with the properties the
    specification states about them.

    Layout: Python primitives, the data model, the matcher, the object
    store and the overlay service, the request handlers; then the proofs. *)

From Stdlib Require Import QArith.
From stdpp Require Import base decidable option list gmap sorting.
From Equations Require Import Equations.

Local Open Scope nat_scope.
Set Default Proof Using "Type".

(* ================================================================== *)
(** * Python primitives *)
(* ================================================================== *)

(** A Python [str] is a sequence of Unicode code points; [len], slicing and
    [str.find] all count code points. *)
Abbreviation pystr := (list N).

(** A Python [float].  The service only ever copies these values from a
    dictionary entry into a query, so a float is represented by the
    rational it denotes. *)
Abbreviation pyfloat := Q.

(** [s.startswith(p)] *)
Fixpoint starts_with (p s : pystr) : bool :=
  match p, s with
  | [], _ => true
  | c :: p', d :: s' => if decide (c = d) then starts_with p' s' else false
  | _ :: _, [] => false
  end.

(** Leftmost [i' >= i] at which [sub] starts, where [s] is the text from
    absolute position [i] on. *)
Fixpoint find_from (sub s : pystr) (i : nat) : option nat :=
  if starts_with sub s then Some i
  else match s with
       | [] => None
       | _ :: s' => find_from sub s' (S i)
       end.

(** [s.find(sub, start)] for [start >= 0]; [None] stands for [-1]. *)
Definition str_find (s sub : pystr) (start : nat) : option nat :=
  if decide (start ≤ length s) then find_from sub (drop start s) start
  else None.

(** [sub in s] *)
Definition str_contains (s sub : pystr) : bool :=
  bool_decide (is_Some (str_find s sub 0)).

(** ["".join(parts)] *)
Definition str_join (parts : list pystr) : pystr := concat parts.

(** [s.lstrip(chars)], [s.rstrip(chars)] and [s.strip(chars)]: the
    characters of [chars] are taken off the left end, the right end, or
    both. *)
Fixpoint str_lstrip (chars s : pystr) : pystr :=
  match s with
  | [] => []
  | c :: s' => if decide (c ∈ chars) then str_lstrip chars s' else s
  end.

Definition str_rstrip (chars s : pystr) : pystr :=
  reverse (str_lstrip chars (reverse s)).

Definition str_strip (chars s : pystr) : pystr :=
  str_rstrip chars (str_lstrip chars s).

(** [l[a:b]] for [0 <= a] and [0 <= b]. *)
Definition py_slice {A} (l : list A) (a b : nat) : list A := drop a (take b l).

(** Position that [l[i]] reads for a Python [int] index: negative indices
    count from the end, anything outside [-len, len) is an [IndexError]
    ([None]). *)
Definition py_index (len : nat) (i : Z) : option nat :=
  if decide (0 ≤ i)%Z then
    if decide (i < Z.of_nat len)%Z then Some (Z.to_nat i) else None
  else
    if decide (- Z.of_nat len ≤ i)%Z then Some (Z.to_nat (Z.of_nat len + i))
    else None.

(* ================================================================== *)
(** * Data model *)
(* ================================================================== *)

(** Values of dict keys that the service passes through untouched. *)
#[local] Set Warnings "-register-all".
Inductive json :=
| JNull
| JBool (b : bool)
| JNum (x : pyfloat)
| JStr (s : pystr)
| JList (items : list json)
| JDict (items : list (pystr * json)).

Abbreviation fields := (list (pystr * json)).

(** A mora dict.  [None] is an absent key: the matcher reads
    [mora.get("text", "")], the overlay assigns [mora["pitch"]] and
    [mora["vowel_length"]]. *)
Record Mora := {
  mora_text : option pystr;
  mora_pitch : option pyfloat;
  mora_vowel_length : option pyfloat;
  mora_consonant_length : option pyfloat;
  mora_other : fields;
}.

(** An accent phrase dict: [phrase.get("moras", [])] and the remaining keys
    (accent, pause_mora, is_interrogative). *)
Record AccentPhrase := {
  ap_moras : option (list Mora);
  ap_other : fields;
}.

(** An AudioQuery dict: [audio_query.get("accent_phrases", [])] and the
    global controls (speedScale, pitchScale, ...). *)
Record AudioQuery := {
  aq_accent_phrases : option (list AccentPhrase);
  aq_other : fields;
}.

(** [models/extended_dict.py]: [ExtendedDictEntry]. *)
Record ExtendedDictEntry := {
  word : pystr;
  pronunciation : pystr;
  accent_type : Z;
  mora_count : option Z;
  accent_phrases : option (list json);
  pitch_values : option (list pyfloat);
  length_values : option (list pyfloat);
  speaker_id : option Z;
}.

(** The field constraints pydantic enforces when an entry is built
    ([min_length=1] on [word] and [pronunciation]). *)
Definition entry_valid (e : ExtendedDictEntry) : Prop :=
  word e ≠ [] ∧ pronunciation e ≠ [].

(** [matcher.py]: [MatchResult]. *)
Record MatchResult := {
  entry : ExtendedDictEntry;
  accent_phrase_index : Z;
  mora_start_index : Z;
  mora_end_index : Z;
}.

Definition get_accent_phrases (q : AudioQuery) : list AccentPhrase :=
  default [] (aq_accent_phrases q).

Definition get_moras (ap : AccentPhrase) : list Mora :=
  default [] (ap_moras ap).

Definition get_text (m : Mora) : pystr := default [] (mora_text m).

(* ================================================================== *)
(** * matcher.py: DictionaryMatcher *)
(* ================================================================== *)

Definition inspect {A} (a : A) : {b | a = b} := exist _ a eq_refl.

Lemma starts_with_length p s : starts_with p s = true → length p ≤ length s.
Proof.
  revert s; induction p as [|c p IH]; intros [|d s]; simpl; try lia; try done.
  case_decide; [|done]. intros ?%IH. lia.
Qed.

Lemma find_from_bounds sub s i pos :
  find_from sub s i = Some pos → i ≤ pos ∧ pos + length sub ≤ i + length s.
Proof.
  revert i; induction s as [|d s IH]; intros i; simpl.
  - destruct (starts_with sub []) eqn:E; [|done]. intros [= <-].
    apply starts_with_length in E. simpl in *. lia.
  - destruct (starts_with sub (d :: s)) eqn:E.
    + intros [= <-]. apply starts_with_length in E. simpl in *. lia.
    + intros ?%IH. lia.
Qed.

Lemma str_find_bounds s sub start pos :
  str_find s sub start = Some pos → start ≤ pos ∧ pos + length sub ≤ length s.
Proof.
  unfold str_find. case_decide; [|done]. intros ?%find_from_bounds.
  rewrite length_drop in *. lia.
Qed.

(** [extract_pronunciation]: every non-empty mora text of every accent
    phrase, concatenated. *)
Definition extract_pronunciation (audio_query : AudioQuery) : pystr :=
  str_join (ap ← get_accent_phrases audio_query;
            m ← get_moras ap;
            if decide (get_text m = []) then [] else [get_text m]).

(** The phrase string both modes build:
    ["".join(mora.get("text", "") for mora in moras)]. *)
Definition mora_texts_of (moras : list Mora) : list pystr := get_text <$> moras.

Definition phrase_pronunciation_of (moras : list Mora) : pystr :=
  str_join (mora_texts_of moras).

(** ** Exact mode *)

(** One step of the loop that builds [pronunciation_to_entries]. *)
Definition index_entry (d : gmap pystr (list ExtendedDictEntry))
    (e : ExtendedDictEntry) : gmap pystr (list ExtendedDictEntry) :=
  let d' := match d !! pronunciation e with
            | None => <[pronunciation e := []]> d
            | Some _ => d
            end in
  <[pronunciation e := default [] (d' !! pronunciation e) ++ [e]]> d'.

Definition pronunciation_to_entries (entries : list ExtendedDictEntry)
  : gmap pystr (list ExtendedDictEntry) :=
  foldl index_entry ∅ entries.

(** The [for phrase_index, accent_phrase in enumerate(accent_phrases)] loop
    of [find_matches]; [results] is the list being appended to. *)
Fixpoint find_matches_loop (d : gmap pystr (list ExtendedDictEntry))
    (phrase_index : nat) (accent_phrases : list AccentPhrase)
    (results : list MatchResult) : list MatchResult :=
  match accent_phrases with
  | [] => results
  | accent_phrase :: rest =>
      let moras := get_moras accent_phrase in
      match moras with
      | [] => find_matches_loop d (S phrase_index) rest results
      | _ :: _ =>
          let phrase_pronunciation := phrase_pronunciation_of moras in
          match d !! phrase_pronunciation with
          | Some es =>
              find_matches_loop d (S phrase_index) rest
                (results ++
                 ((λ e, {| entry := e;
                           accent_phrase_index := Z.of_nat phrase_index;
                           mora_start_index := 0;
                           mora_end_index := Z.of_nat (length moras) |})
                    <$> es))
          | None => find_matches_loop d (S phrase_index) rest results
          end
      end
  end.

Definition find_matches (audio_query : AudioQuery)
    (entries : list ExtendedDictEntry) : list MatchResult :=
  match entries with
  | [] => []
  | _ :: _ =>
      match get_accent_phrases audio_query with
      | [] => []
      | accent_phrases =>
          find_matches_loop (pronunciation_to_entries entries) 0
            accent_phrases []
      end
  end.

(** ** Partial mode with text filter *)

(** Character position to mora index:
    [for i, text in enumerate(mora_texts): if char_count == pos: ...break].
    When no mora starts at [pos] the loop runs out and [mora_start] keeps
    its initial value [0]. *)
Fixpoint locate_mora_start (mora_texts : list pystr) (pos i char_count : nat)
  : nat :=
  match mora_texts with
  | [] => 0
  | text :: rest =>
      if decide (char_count = pos) then i
      else locate_mora_start rest pos (S i) (char_count + length text)
  end.

(** [for i in range(mora_start, len(mora_texts))]: [rest] is
    [mora_texts[i:]], [mora_end] the value assigned so far. *)
Fixpoint locate_mora_end (rest : list pystr) (i mora_end match_char_count
    pron_len : nat) : nat :=
  match rest with
  | [] => mora_end
  | text :: rest' =>
      let match_char_count := match_char_count + length text in
      if decide (pron_len ≤ match_char_count) then S i
      else locate_mora_end rest' (S i) (S i) match_char_count pron_len
  end.

(** The body of the [while True] loop for one hit of [find] at [pos]. *)
Definition record_match (mora_texts : list pystr) (e : ExtendedDictEntry)
    (phrase_index pos : nat) (results : list MatchResult)
  : list MatchResult :=
  let mora_start := locate_mora_start mora_texts pos 0 0 in
  let mora_end :=
    locate_mora_end (drop mora_start mora_texts) mora_start mora_start 0
      (length (pronunciation e)) in
  let matched_pronunciation :=
    str_join (py_slice mora_texts mora_start mora_end) in
  if decide (matched_pronunciation = pronunciation e) then
    results ++ [{| entry := e;
                   accent_phrase_index := Z.of_nat phrase_index;
                   mora_start_index := Z.of_nat mora_start;
                   mora_end_index := Z.of_nat mora_end |}]
  else results.

(** The [while True] loop.  It is entered only behind
    [if not pronunciation: continue], which is the first clause; the cursor
    then moves right by [len(pronunciation) > 0] on every hit. *)
Equations scan_phrase (mora_texts : list pystr) (phrase_pronunciation : pystr)
    (e : ExtendedDictEntry) (pron : pystr) (phrase_index : nat)
    (search_start : nat) (results : list MatchResult) : list MatchResult
  by wf (S (length phrase_pronunciation) - search_start) lt :=
  scan_phrase mora_texts phrase_pronunciation e [] phrase_index search_start
    results := results;
  scan_phrase mora_texts phrase_pronunciation e (c :: p) phrase_index
    search_start results
    with inspect (str_find phrase_pronunciation (c :: p) search_start) := {
    | exist _ None _ => results
    | exist _ (Some pos) Hfind =>
        scan_phrase mora_texts phrase_pronunciation e (c :: p) phrase_index
          (pos + length (c :: p))
          (record_match mora_texts e phrase_index pos results)
    }.
Next Obligation.
  apply str_find_bounds in Hfind. simpl in *. lia.
Qed.

(** [for entry in filtered_entries] *)
Fixpoint scan_entries (mora_texts : list pystr) (phrase_pronunciation : pystr)
    (phrase_index : nat) (filtered_entries : list ExtendedDictEntry)
    (results : list MatchResult) : list MatchResult :=
  match filtered_entries with
  | [] => results
  | e :: rest =>
      scan_entries mora_texts phrase_pronunciation phrase_index rest
        (scan_phrase mora_texts phrase_pronunciation e (pronunciation e)
           phrase_index 0 results)
  end.

(** [for phrase_index, accent_phrase in enumerate(accent_phrases)] *)
Fixpoint find_matches_with_text_loop (filtered_entries : list ExtendedDictEntry)
    (phrase_index : nat) (accent_phrases : list AccentPhrase)
    (results : list MatchResult) : list MatchResult :=
  match accent_phrases with
  | [] => results
  | accent_phrase :: rest =>
      let moras := get_moras accent_phrase in
      match moras with
      | [] =>
          find_matches_with_text_loop filtered_entries (S phrase_index) rest
            results
      | _ :: _ =>
          let mora_texts := mora_texts_of moras in
          let phrase_pronunciation := str_join mora_texts in
          find_matches_with_text_loop filtered_entries (S phrase_index) rest
            (scan_entries mora_texts phrase_pronunciation phrase_index
               filtered_entries results)
      end
  end.

Definition filter_entries (entries : list ExtendedDictEntry)
    (input_text : pystr) : list ExtendedDictEntry :=
  filter (λ e, str_contains input_text (word e) = true) entries.

Definition find_matches_with_text (audio_query : AudioQuery)
    (entries : list ExtendedDictEntry) (input_text : pystr)
  : list MatchResult :=
  match entries, input_text with
  | [], _ | _, [] => []
  | _ :: _, _ :: _ =>
      match get_accent_phrases audio_query with
      | [] => []
      | accent_phrases =>
          match filter_entries entries input_text with
          | [] => []
          | filtered_entries =>
              find_matches_with_text_loop filtered_entries 0 accent_phrases []
          end
      end
  end.


(* ================================================================== *)
(** * The object store *)
(* ================================================================== *)

(** The dicts and lists of an AudioQuery are mutable Python objects reached
    through references.  An address is a position in the store; a new
    object takes the next free position.  Each cell is one object of the
    data model: a mora dict, a list (of accent phrase dicts, or of mora
    dicts), an accent phrase dict or an AudioQuery dict.  Keys the service
    leaves alone are kept by value in [fields]. *)
Abbreviation loc := nat.

Inductive obj :=
| OMora (m : Mora)
| OList (items : list loc)
| OAccentPhrase (moras : option loc) (other : fields)
| OAudioQuery (phrases : option loc) (other : fields).

Abbreviation heap := (list obj).

(** The two [ValueError] families of [apply_partial_match], told apart by
    their message ("Invalid accent_phrase_index", "Invalid mora range" and
    the mora count mismatch). *)
Inductive value_error :=
| InvalidAccentPhraseIndex
| InvalidMoraRange
| MoraCountMismatch.

(** [TypeError] stands for every failure of reading an object that is not
    shaped like the data model; [ExternalError] for a failure of an
    external collaborator (the engine, the dictionary file). *)
Inductive exn :=
| ValueError (k : value_error)
| IndexError
| TypeError
| ExternalError.

Inductive outcome (A : Type) :=
| Ok (a : A)
| Raise (e : exn).
Arguments Ok {A} a.
Arguments Raise {A} e.

(** The range errors of the specification. *)
Definition is_range_error {A} (r : outcome A) : Prop :=
  r = Raise (ValueError InvalidAccentPhraseIndex) ∨
  r = Raise (ValueError InvalidMoraRange).

(** Computations on the store that may raise; the store survives a raise. *)
Definition M (A : Type) : Type := heap → heap * outcome A.

#[global] Instance M_ret : MRet M := λ A a h, (h, Ok a).
#[global] Instance M_bind : MBind M := λ A B k m h,
  match m h with
  | (h', Ok a) => k a h'
  | (h', Raise e) => (h', Raise e)
  end.

Definition raise {A} (e : exn) : M A := λ h, (h, Raise e).

Definition alloc (o : obj) : M loc := λ h, (h ++ [o], Ok (length h)).

Definition load (l : loc) : M obj := λ h,
  (h, match h !! l with Some o => Ok o | None => Raise TypeError end).

Definition store (l : loc) (o : obj) : M unit := λ h, (<[l := o]> h, Ok ()).

Definition load_mora (l : loc) : M Mora :=
  o ← load l; match o with OMora m => mret m | _ => raise TypeError end.

Definition load_list (l : loc) : M (list loc) :=
  o ← load l; match o with OList ls => mret ls | _ => raise TypeError end.

(** ** Reading a query out of the store *)

Definition read_mora (h : heap) (l : loc) : option Mora :=
  match h !! l with Some (OMora m) => Some m | _ => None end.

Definition read_list {A} (rd : loc → option A) (h : heap) (l : loc)
  : option (list A) :=
  match h !! l with Some (OList ls) => mapM rd ls | _ => None end.

Definition read_field {A} (rd : loc → option A) (o : option loc)
  : option (option A) :=
  match o with
  | None => Some None
  | Some l => Some <$> rd l
  end.

Definition read_accent_phrase (h : heap) (l : loc) : option AccentPhrase :=
  match h !! l with
  | Some (OAccentPhrase ml other) =>
      ms ← read_field (read_list (read_mora h) h) ml;
      Some {| ap_moras := ms; ap_other := other |}
  | _ => None
  end.

(** The AudioQuery a reference denotes; [None] when what it reaches is not
    shaped like the data model. *)
Definition read_query (h : heap) (l : loc) : option AudioQuery :=
  match h !! l with
  | Some (OAudioQuery pl other) =>
      aps ← read_field (read_list (read_accent_phrase h) h) pl;
      Some {| aq_accent_phrases := aps; aq_other := other |}
  | _ => None
  end.

(** ** [copy.deepcopy] on a query

    A fresh object for every dict and list reached from the argument, with
    the same contents.  Cells are allocated on the way back up, so a
    container is stored once its copied children are known. *)

Definition copy_mora (l : loc) : M loc :=
  m ← load_mora l; alloc (OMora m).

Fixpoint copy_each (copy : loc → M loc) (ls : list loc) : M (list loc) :=
  match ls with
  | [] => mret []
  | l :: rest =>
      l' ← copy l; rest' ← copy_each copy rest; mret (l' :: rest')
  end.

Definition copy_list (copy : loc → M loc) (l : loc) : M loc :=
  ls ← load_list l; ls' ← copy_each copy ls; alloc (OList ls').

Definition copy_field (copy : loc → M loc) (o : option loc)
  : M (option loc) :=
  match o with
  | None => mret None
  | Some l => l' ← copy l; mret (Some l')
  end.

Definition copy_accent_phrase (l : loc) : M loc :=
  o ← load l;
  match o with
  | OAccentPhrase ml other =>
      ml' ← copy_field (copy_list copy_mora) ml;
      alloc (OAccentPhrase ml' other)
  | _ => raise TypeError
  end.

(** [AudioQueryService._deep_copy_query] *)
Definition _deep_copy_query (audio_query : loc) : M loc :=
  o ← load audio_query;
  match o with
  | OAudioQuery pl other =>
      pl' ← copy_field (copy_list copy_accent_phrase) pl;
      alloc (OAudioQuery pl' other)
  | _ => raise TypeError
  end.

(* ================================================================== *)
(** * audio_query_service.py: AudioQueryService *)
(* ================================================================== *)

(** [audio_query.get("accent_phrases", [])]: the items of the list. *)
Definition dict_get_accent_phrases (audio_query : loc) : M (list loc) :=
  o ← load audio_query;
  match o with
  | OAudioQuery (Some pl) _ => load_list pl
  | OAudioQuery None _ => mret []
  | _ => raise TypeError
  end.

(** [phrase.get("moras", [])] *)
Definition dict_get_moras (phrase : loc) : M (list loc) :=
  o ← load phrase;
  match o with
  | OAccentPhrase (Some ml) _ => load_list ml
  | OAccentPhrase None _ => mret []
  | _ => raise TypeError
  end.

(** [l[i]] *)
Definition py_getitem {A} (l : list A) (i : Z) : M A :=
  match py_index (length l) i with
  | Some k =>
      match l !! k with Some x => mret x | None => raise IndexError end
  | None => raise IndexError
  end.

(** [mora["pitch"] = v] and [mora["vowel_length"] = v] *)
Definition set_pitch (v : pyfloat) (m : Mora) : Mora :=
  {| mora_text := mora_text m;
     mora_pitch := Some v;
     mora_vowel_length := mora_vowel_length m;
     mora_consonant_length := mora_consonant_length m;
     mora_other := mora_other m |}.

Definition set_vowel_length (v : pyfloat) (m : Mora) : Mora :=
  {| mora_text := mora_text m;
     mora_pitch := mora_pitch m;
     mora_vowel_length := Some v;
     mora_consonant_length := mora_consonant_length m;
     mora_other := mora_other m |}.

Definition setitem_mora (mora : loc) (set : Mora → Mora) : M unit :=
  m ← load_mora mora; store mora (OMora (set m)).

(** [_get_total_mora_count] *)
Fixpoint count_moras (phrases : list loc) (total : nat) : M nat :=
  match phrases with
  | [] => mret total
  | phrase :: rest =>
      moras ← dict_get_moras phrase;
      count_moras rest (total + length moras)
  end.

Definition _get_total_mora_count (audio_query : loc) : M nat :=
  phrases ← dict_get_accent_phrases audio_query;
  count_moras phrases 0.

(** The inner loop [for mora in phrase.get("moras", [])] of
    [apply_pitch_values] / [apply_length_values]; it returns the counters
    [(mora_idx, value_idx)]. *)
Fixpoint write_moras (set : pyfloat → Mora → Mora) (moras : list loc)
    (values : list pyfloat) (start_mora_index : Z) (mora_idx value_idx : nat)
  : M (nat * nat) :=
  match moras with
  | [] => mret (mora_idx, value_idx)
  | mora :: rest =>
      value_idx' ←
        (if decide ((start_mora_index ≤ Z.of_nat mora_idx)%Z
                    ∧ value_idx < length values)
         then v ← py_getitem values (Z.of_nat value_idx);
              _ ← setitem_mora mora (set v);
              mret (S value_idx)
         else mret value_idx);
      write_moras set rest values start_mora_index (S mora_idx) value_idx'
  end.

(** The outer loop [for phrase in modified_query.get("accent_phrases", [])]. *)
Fixpoint write_phrases (set : pyfloat → Mora → Mora) (phrases : list loc)
    (values : list pyfloat) (start_mora_index : Z) (mora_idx value_idx : nat)
  : M (nat * nat) :=
  match phrases with
  | [] => mret (mora_idx, value_idx)
  | phrase :: rest =>
      moras ← dict_get_moras phrase;
      '(mora_idx', value_idx') ←
        write_moras set moras values start_mora_index mora_idx value_idx;
      write_phrases set rest values start_mora_index mora_idx' value_idx'
  end.

(** The common body of [apply_pitch_values] and [apply_length_values],
    which differ only in the key they assign. *)
Definition apply_values (set : pyfloat → Mora → Mora) (audio_query : loc)
    (values : list pyfloat) (start_mora_index : Z) : M loc :=
  match values with
  | [] => _deep_copy_query audio_query
  | _ :: _ =>
      modified_query ← _deep_copy_query audio_query;
      total_moras ← _get_total_mora_count modified_query;
      let available_moras := (Z.of_nat total_moras - start_mora_index)%Z in
      if decide (Z.of_nat (length values) ≠ available_moras)
      then raise (ValueError MoraCountMismatch)
      else
        phrases ← dict_get_accent_phrases modified_query;
        _ ← write_phrases set phrases values start_mora_index 0 0;
        mret modified_query
  end.

Definition apply_pitch_values (audio_query : loc) (pitch_values : list pyfloat)
    (start_mora_index : Z) : M loc :=
  apply_values set_pitch audio_query pitch_values start_mora_index.

Definition apply_length_values (audio_query : loc)
    (length_values : list pyfloat) (start_mora_index : Z) : M loc :=
  apply_values set_vowel_length audio_query length_values start_mora_index.

(** [for i, v in enumerate(values): moras[mora_start_index + i][key] = v] *)
Fixpoint write_range (set : pyfloat → Mora → Mora) (moras : list loc)
    (mora_start_index : Z) (i : nat) (values : list pyfloat) : M unit :=
  match values with
  | [] => mret ()
  | v :: rest =>
      mora ← py_getitem moras (mora_start_index + Z.of_nat i);
      _ ← setitem_mora mora (set v);
      write_range set moras mora_start_index (S i) rest
  end.

(** One of the two "apply ... values if present" blocks of
    [apply_partial_match]. *)
Definition apply_range (set : pyfloat → Mora → Mora)
    (values : option (list pyfloat)) (moras : list loc)
    (mora_start_index target_mora_count : Z) : M unit :=
  match values with
  | Some ((_ :: _) as vs) =>
      if decide (Z.of_nat (length vs) ≠ target_mora_count)
      then raise (ValueError MoraCountMismatch)
      else write_range set moras mora_start_index 0 vs
  | _ => mret ()
  end.

Definition apply_partial_match (audio_query : loc) (e : ExtendedDictEntry)
    (accent_phrase_index mora_start_index mora_end_index : Z) : M loc :=
  result ← _deep_copy_query audio_query;
  accent_phrases ← dict_get_accent_phrases result;
  if decide (Z.of_nat (length accent_phrases) ≤ accent_phrase_index)%Z
  then raise (ValueError InvalidAccentPhraseIndex)
  else
    phrase ← py_getitem accent_phrases accent_phrase_index;
    moras ← dict_get_moras phrase;
    let target_mora_count := (mora_end_index - mora_start_index)%Z in
    if decide ((mora_start_index < 0)%Z
               ∨ (Z.of_nat (length moras) < mora_end_index)%Z)
    then raise (ValueError InvalidMoraRange)
    else
      _ ← apply_range set_pitch (pitch_values e) moras mora_start_index
            target_mora_count;
      _ ← apply_range set_vowel_length (length_values e) moras
            mora_start_index target_mora_count;
      mret result.

(** The [match_result] dict of [apply_extended_dict]: the one key it
    reads, ['start_mora_index'], and the others.  The value is used as an
    [int]. *)
Record MatchResultDict := {
  mr_start_mora_index : option Z;
  mr_other : fields;
}.

(** [apply_extended_dict]: both whole-query operations from the same
    starting unit, each on the result of the previous step. *)
Definition apply_extended_dict (audio_query : loc) (e : ExtendedDictEntry)
    (match_result : MatchResultDict) : M loc :=
  let start_mora_index := default 0%Z (mr_start_mora_index match_result) in
  result ← _deep_copy_query audio_query;
  result ← match pitch_values e with
           | Some ((_ :: _) as vs) =>
               apply_pitch_values result vs start_mora_index
           | _ => mret result
           end;
  match length_values e with
  | Some ((_ :: _) as vs) => apply_length_values result vs start_mora_index
  | _ => mret result
  end.

(** ** The layout of a copied query

    What [_deep_copy_query] appends to a store of size [b] for a query [q]:
    per accent phrase its mora dicts, its mora list and the phrase dict,
    then the phrase list and the query dict.  The layout depends on the
    shape of [q] only. *)

Definition phrase_size (ap : AccentPhrase) : nat :=
  match ap_moras ap with
  | None => 1
  | Some ms => length ms + 2
  end.

Definition encode_phrase (b : nat) (ap : AccentPhrase) : list obj :=
  match ap_moras ap with
  | None => [OAccentPhrase None (ap_other ap)]
  | Some ms =>
      (OMora <$> ms) ++
      [OList (seq b (length ms));
       OAccentPhrase (Some (b + length ms)) (ap_other ap)]
  end.

Definition phrase_root (b : nat) (ap : AccentPhrase) : loc :=
  b + phrase_size ap - 1.

Fixpoint encode_phrases (b : nat) (aps : list AccentPhrase) : list obj :=
  match aps with
  | [] => []
  | ap :: rest => encode_phrase b ap ++ encode_phrases (b + phrase_size ap) rest
  end.

Fixpoint phrase_roots (b : nat) (aps : list AccentPhrase) : list loc :=
  match aps with
  | [] => []
  | ap :: rest => phrase_root b ap :: phrase_roots (b + phrase_size ap) rest
  end.

Definition phrases_size (aps : list AccentPhrase) : nat :=
  sum_list_with phrase_size aps.
Arguments phrases_size : simpl never.

Definition encode_query (b : nat) (q : AudioQuery) : list obj :=
  match aq_accent_phrases q with
  | None => [OAudioQuery None (aq_other q)]
  | Some aps =>
      encode_phrases b aps ++
      [OList (phrase_roots b aps);
       OAudioQuery (Some (b + phrases_size aps)) (aq_other q)]
  end.

Definition query_size (q : AudioQuery) : nat :=
  match aq_accent_phrases q with
  | None => 1
  | Some aps => phrases_size aps + 2
  end.

Definition query_root (b : nat) (q : AudioQuery) : loc :=
  b + query_size q - 1.

(** Address of the first cell of accent phrase [j] in a query laid out at
    [b]; its mora dicts are the cells from there on. *)
Definition phrase_base (b : nat) (aps : list AccentPhrase) (j : nat) : nat :=
  b + phrases_size (take j aps).

(** ** What the overlay operations compute, on query values *)

(** [ms] with [set v] applied to the units from position [k] on, one per
    value. *)
Fixpoint overlay_units (set : pyfloat → Mora → Mora) (ms : list Mora)
    (k : nat) (values : list pyfloat) : list Mora :=
  match values with
  | [] => ms
  | v :: rest => overlay_units set (alter (set v) k ms) (S k) rest
  end.

(** One override dimension: untouched when the list is absent or empty. *)
Definition overlay_dimension (set : pyfloat → Mora → Mora)
    (values : option (list pyfloat)) (k : nat) (ms : list Mora) : list Mora :=
  overlay_units set ms k (default [] values).

Definition with_moras (ap : AccentPhrase) (ms : list Mora) : AccentPhrase :=
  {| ap_moras := match ap_moras ap with None => None | Some _ => Some ms end;
     ap_other := ap_other ap |}.

Definition with_accent_phrases (q : AudioQuery) (aps : list AccentPhrase)
  : AudioQuery :=
  {| aq_accent_phrases :=
       match aq_accent_phrases q with None => None | Some _ => Some aps end;
     aq_other := aq_other q |}.

Definition mismatch (values : option (list pyfloat)) (target : Z) : Prop :=
  match values with
  | Some ((_ :: _) as vs) => Z.of_nat (length vs) ≠ target
  | _ => False
  end.

#[global] Instance mismatch_dec values target : Decision (mismatch values target).
Proof. destruct values as [[|??]|]; simpl; apply _. Defined.

(** The query [apply_partial_match] returns, or the error it raises, as a
    function of the query read from the store. *)
Definition partial_match_result (q : AudioQuery) (e : ExtendedDictEntry)
    (accent_phrase_index mora_start_index mora_end_index : Z)
  : outcome AudioQuery :=
  let aps := get_accent_phrases q in
  if decide (Z.of_nat (length aps) ≤ accent_phrase_index)%Z
  then Raise (ValueError InvalidAccentPhraseIndex)
  else
    match py_index (length aps) accent_phrase_index with
    | None => Raise IndexError
    | Some j =>
        match aps !! j with
        | None => Raise IndexError
        | Some ap =>
            let ms := get_moras ap in
            let target := (mora_end_index - mora_start_index)%Z in
            if decide ((mora_start_index < 0)%Z
                       ∨ (Z.of_nat (length ms) < mora_end_index)%Z)
            then Raise (ValueError InvalidMoraRange)
            else if decide (mismatch (pitch_values e) target)
            then Raise (ValueError MoraCountMismatch)
            else if decide (mismatch (length_values e) target)
            then Raise (ValueError MoraCountMismatch)
            else
              let k := Z.to_nat mora_start_index in
              let ms' :=
                overlay_dimension set_vowel_length (length_values e) k
                  (overlay_dimension set_pitch (pitch_values e) k ms) in
              Ok (with_accent_phrases q (<[j := with_moras ap ms']> aps))
        end
    end.

(** What the secondary, whole-query operations compute.  Units are
    numbered across all accent phrases in document order; from unit
    [k0] on, unit [g] takes the value at position [g - k0], as long as
    there is one. *)
Definition total_moras (aps : list AccentPhrase) : nat :=
  length (concat (get_moras <$> aps)).

Definition units_before (aps : list AccentPhrase) (j : nat) : nat :=
  total_moras (take j aps).

Definition overlay_unit (set : pyfloat → Mora → Mora) (values : list pyfloat)
    (k0 g : nat) (m : Mora) : Mora :=
  if decide (k0 ≤ g) then
    match values !! (g - k0) with
    | Some v => set v m
    | None => m
    end
  else m.

Definition overlay_phrase (set : pyfloat → Mora → Mora)
    (values : list pyfloat) (k0 first : nat) (ap : AccentPhrase)
  : AccentPhrase :=
  with_moras ap
    (imap (λ k m, overlay_unit set values k0 (first + k) m) (get_moras ap)).

Definition overlay_query (set : pyfloat → Mora → Mora)
    (values : list pyfloat) (k0 : nat) (q : AudioQuery) : AudioQuery :=
  let aps := get_accent_phrases q in
  with_accent_phrases q
    (imap (λ j ap, overlay_phrase set values k0 (units_before aps j) ap) aps).

(** The query [apply_pitch_values] / [apply_length_values] return, or the
    error they raise, as a function of the query read from the store. *)
Definition apply_values_result (set : pyfloat → Mora → Mora) (q : AudioQuery)
    (values : list pyfloat) (start_mora_index : Z) : outcome AudioQuery :=
  match values with
  | [] => Ok q
  | _ :: _ =>
      if decide (Z.of_nat (length values) ≠
                 (Z.of_nat (total_moras (get_accent_phrases q))
                  - start_mora_index)%Z)
      then Raise (ValueError MoraCountMismatch)
      else Ok (overlay_query set values (Z.to_nat start_mora_index) q)
  end.

(** [ms] with [f i] applied to every unit at a position [i >= k]: what a
    loop over the units has still to do when it stands at position [k]. *)
Definition upd_from (f : nat → Mora → Mora) (k : nat) (ms : list Mora)
  : list Mora :=
  imap (λ i m, if decide (k ≤ i) then f i m else m) ms.

(** The accent phrases with the whole-query overlay applied from phrase [j]
    on. *)
Definition phrases_from (set : pyfloat → Mora → Mora) (values : list pyfloat)
    (k0 j : nat) (aps : list AccentPhrase) : list AccentPhrase :=
  imap (λ i ap, if decide (j ≤ i)
                then overlay_phrase set values k0 (units_before aps i) ap
                else ap) aps.

(* ================================================================== *)
(** * routers/synthesis.py: the dictionary-applying handlers *)
(* ================================================================== *)

(** The external collaborators.  [VoicevoxClient] talks to the engine:
    either call may fail.  [create_audio_query] answers with a freshly
    decoded query; [synthesis] with the audio bytes.  The dictionary is
    what [load_dictionary] returns, or the failure of reading the file. *)
Record VoicevoxClient := {
  create_audio_query : pystr → Z → outcome AudioQuery;
  synthesis : AudioQuery → Z → outcome (list N);
}.

(** [VoicevoxClient.get_version], as a function of what the engine
    answers to [GET /version]: the text of the response, or the failure of
    the request or of [raise_for_status].  The version is the text without
    the double quotes around it. *)
Definition get_version (response : outcome pystr) : outcome pystr :=
  match response with
  | Ok text => Ok (str_strip [34%N] text)
  | Raise e => Raise e
  end.

Definition lift {A} (r : outcome A) : M A := λ h, (h, r).

(** A freshly built query dict enters the store. *)
Definition new_query (q : AudioQuery) : M loc := λ h,
  (h ++ encode_query (length h) q, Ok (query_root (length h) q)).

(** Reading an argument dict as a query; a dict that is not shaped like one
    makes the reader fail. *)
Definition read_query_at (l : loc) : M AudioQuery := λ h,
  (h, match read_query h l with Some q => Ok q | None => Raise TypeError end).

(** [matcher.find_matches_with_text(audio_query, entries, text)] on a query
    in the store; the two early returns come before the dict is looked
    at. *)
Definition find_matches_with_text_at (audio_query : loc)
    (entries : list ExtendedDictEntry) (input_text : pystr)
  : M (list MatchResult) :=
  match entries, input_text with
  | [], _ | _, [] => mret []
  | _ :: _, _ :: _ =>
      q ← read_query_at audio_query;
      mret (find_matches_with_text q entries input_text)
  end.

(** The [try: ... except ValueError: continue] around one
    [apply_partial_match]: [None] when the match is skipped. *)
Definition try_apply (modified_query : loc) (m : MatchResult)
  : M (option loc) := λ h,
  match apply_partial_match modified_query (entry m) (accent_phrase_index m)
          (mora_start_index m) (mora_end_index m) h with
  | (h', Ok l) => (h', Ok (Some l))
  | (h', Raise (ValueError _)) => (h', Ok None)
  | (h', Raise ex) => (h', Raise ex)
  end.

(** [for match in matches] of [synthesize_with_extended_dict] *)
Fixpoint overlay_loop (modified_query : loc) (matches : list MatchResult)
  : M loc :=
  match matches with
  | [] => mret modified_query
  | m :: rest =>
      r ← try_apply modified_query m;
      overlay_loop (default modified_query r) rest
  end.

(** [for match in matches] of [apply_dictionary], which also records the
    words it applied. *)
Fixpoint overlay_loop_applied (modified_query : loc)
    (applied_entries : list pystr) (matches : list MatchResult)
  : M (loc * list pystr) :=
  match matches with
  | [] => mret (modified_query, applied_entries)
  | m :: rest =>
      r ← try_apply modified_query m;
      match r with
      | Some l =>
          overlay_loop_applied l (applied_entries ++ [word (entry m)]) rest
      | None => overlay_loop_applied modified_query applied_entries rest
      end
  end.

(** The response of [POST /synthesize]: the audio with the
    [X-Matches-Found] header, or the 503 raised from [except Exception]. *)
Inductive SynthesizeResponse :=
| Wav (content : list N) (x_matches_found : nat)
| Http503.

Definition synthesize_body (client : VoicevoxClient)
    (load_dictionary : outcome (list ExtendedDictEntry))
    (text : pystr) (speaker : Z) : M (list N * nat) :=
  q ← lift (create_audio_query client text speaker);
  audio_query ← new_query q;
  entries ← lift load_dictionary;
  matches ← find_matches_with_text_at audio_query entries text;
  modified_query ← overlay_loop audio_query matches;
  q' ← read_query_at modified_query;
  audio_data ← lift (synthesis client q' speaker);
  mret (audio_data, length matches).

Definition synthesize_with_extended_dict (client : VoicevoxClient)
    (load_dictionary : outcome (list ExtendedDictEntry))
    (text : pystr) (speaker : Z) (h : list obj)
  : list obj * SynthesizeResponse :=
  match synthesize_body client load_dictionary text speaker h with
  | (h', Ok (audio_data, n)) => (h', Wav audio_data n)
  | (h', Raise _) => (h', Http503)
  end.

(** [POST /synthesize/apply] *)
Record ApplyDictionaryRequest := {
  req_audio_query : loc;
  req_text : pystr;
  req_speaker : Z;
}.

Record ApplyDictionaryResponse := {
  resp_audio_query : loc;
  resp_matches_found : nat;
  resp_applied_entries : list pystr;
}.

(** The response built both for an empty dictionary and in
    [except Exception]. *)
Definition unchanged_response (request : ApplyDictionaryRequest)
  : ApplyDictionaryResponse :=
  {| resp_audio_query := req_audio_query request;
     resp_matches_found := 0;
     resp_applied_entries := [] |}.

Definition apply_dictionary_body
    (load_dictionary : outcome (list ExtendedDictEntry))
    (request : ApplyDictionaryRequest) : M ApplyDictionaryResponse :=
  entries ← lift load_dictionary;
  match entries with
  | [] => mret (unchanged_response request)
  | _ :: _ =>
      matches ← find_matches_with_text_at (req_audio_query request) entries
                  (req_text request);
      '(modified_query, applied_entries) ←
        overlay_loop_applied (req_audio_query request) [] matches;
      mret {| resp_audio_query := modified_query;
              resp_matches_found := length matches;
              resp_applied_entries := applied_entries |}
  end.

Definition apply_dictionary
    (load_dictionary : outcome (list ExtendedDictEntry))
    (request : ApplyDictionaryRequest) (h : list obj)
  : list obj * ApplyDictionaryResponse :=
  match apply_dictionary_body load_dictionary request h with
  | (h', Ok response) => (h', response)
  | (h', Raise _) => (h', unchanged_response request)
  end.

(** What the overlay loop computes on query values: the matches are applied
    in order, a match failing with a [ValueError] is skipped, the next one
    sees the query as modified so far.  The result is the final query and
    the words applied. *)
Fixpoint overlay_all (q : AudioQuery) (matches : list MatchResult)
  : outcome (AudioQuery * list pystr) :=
  match matches with
  | [] => Ok (q, [])
  | m :: rest =>
      match partial_match_result q (entry m) (accent_phrase_index m)
              (mora_start_index m) (mora_end_index m) with
      | Ok q' =>
          match overlay_all q' rest with
          | Ok (q'', ws) => Ok (q'', word (entry m) :: ws)
          | Raise ex => Raise ex
          end
      | Raise (ValueError _) => overlay_all q rest
      | Raise ex => Raise ex
      end
  end.

(** [POST /synthesize/debug]: the query is overlaid as in
    [synthesize_with_extended_dict] and returned instead of being
    rendered. *)
Inductive SynthesizeDebugResponse :=
| DebugProcessed (matches_found : nat) (modified_query : loc)
| DebugHttp503.

Definition synthesize_debug_body (client : VoicevoxClient)
    (load_dictionary : outcome (list ExtendedDictEntry))
    (text : pystr) (speaker : Z) : M (nat * loc) :=
  q ← lift (create_audio_query client text speaker);
  audio_query ← new_query q;
  entries ← lift load_dictionary;
  matches ← find_matches_with_text_at audio_query entries text;
  modified_query ← overlay_loop audio_query matches;
  mret (length matches, modified_query).

Definition synthesize_debug (client : VoicevoxClient)
    (load_dictionary : outcome (list ExtendedDictEntry))
    (text : pystr) (speaker : Z) (h : list obj)
  : list obj * SynthesizeDebugResponse :=
  match synthesize_debug_body client load_dictionary text speaker h with
  | (h', Ok (n, modified_query)) => (h', DebugProcessed n modified_query)
  | (h', Raise _) => (h', DebugHttp503)
  end.

(** [POST /synthesize/preview]: the given query is rendered as it is. *)
Inductive PreviewResponse :=
| PreviewWav (content : list N)
| PreviewHttp503.

Definition synthesize_preview (client : VoicevoxClient) (audio_query : loc)
    (speaker : Z) (h : list obj) : list obj * PreviewResponse :=
  match (q ← read_query_at audio_query;
         lift (synthesis client q speaker)) h with
  | (h', Ok audio_data) => (h', PreviewWav audio_data)
  | (h', Raise _) => (h', PreviewHttp503)
  end.

(* ================================================================== *)
(** * routers/dictionary.py: the dictionary file and its handlers *)
(* ================================================================== *)

(** The dictionary file [extended_dict.json].  [save_dictionary] writes the
    [model_dump] of every entry and [load_dictionary] rebuilds the entries
    from it, so a file written by the service is represented by the entry
    list it decodes to; [BadFile] is a file that [json.load] or the entry
    validation refuses.  A failure of writing the file is not modelled. *)
Inductive dict_file :=
| NoFile
| FileOf (entries : list ExtendedDictEntry)
| BadFile.

Definition load_dictionary (f : dict_file)
  : outcome (list ExtendedDictEntry) :=
  match f with
  | NoFile => Ok []
  | FileOf entries => Ok entries
  | BadFile => Raise ExternalError
  end.

Definition save_dictionary (entries : list ExtendedDictEntry) : dict_file :=
  FileOf entries.

(** What a handler of the dictionary router answers: its value, the 404 it
    raises itself, or the 500 an escaping exception becomes. *)
Inductive reply (A : Type) :=
| Reply (a : A)
| Http404
| Http500.
Arguments Reply {A} a.
Arguments Http404 {A}.
Arguments Http500 {A}.

(** [GET /]: the entries and their number. *)
Definition get_dictionary (f : dict_file)
  : reply (list ExtendedDictEntry * nat) :=
  match load_dictionary f with
  | Ok entries => Reply (entries, length entries)
  | Raise _ => Http500
  end.

(** The upsert loop of [add_entry]: the first entry with the same word is
    overwritten in place; without one the entry is appended. *)
Definition upsert (entries : list ExtendedDictEntry)
    (entry : ExtendedDictEntry) : list ExtendedDictEntry :=
  match list_find (λ existing, word existing = word entry) entries with
  | Some (i, _) => <[i := entry]> entries
  | None => entries ++ [entry]
  end.

(** [POST /] *)
Definition add_entry (entry : ExtendedDictEntry) (f : dict_file)
  : dict_file * reply ExtendedDictEntry :=
  match load_dictionary f with
  | Ok entries => (save_dictionary (upsert entries entry), Reply entry)
  | Raise _ => (f, Http500)
  end.

(** [GET /search] *)
Definition search_dictionary (w : pystr) (f : dict_file)
  : reply (list ExtendedDictEntry * nat) :=
  match load_dictionary f with
  | Ok entries =>
      let results := filter (λ e, word e = w) entries in
      Reply (results, length results)
  | Raise _ => Http500
  end.

(** [DELETE /{word}]: the reply carries the word of the message. *)
Definition delete_entry (w : pystr) (f : dict_file)
  : dict_file * reply pystr :=
  match load_dictionary f with
  | Ok entries =>
      let original_count := length entries in
      let entries := filter (λ e, word e ≠ w) entries in
      if decide (length entries = original_count) then (f, Http404)
      else (save_dictionary entries, Reply w)
  | Raise _ => (f, Http500)
  end.

(** ** Reference notions the matcher is compared with *)

(** [word] occurs in [text] as a literal substring. *)
Definition is_substring (sub text : pystr) : Prop :=
  ∃ pre post, text = pre ++ sub ++ post.

(** Non-overlapping occurrences of [p] in [s], scanned left to right: walk
    the text one character at a time; a hit at [i] is recorded and the next
    [len p - 1] characters are stepped over.  [i] is the position of the
    head of [s], [skip] the characters still to step over. *)
Fixpoint occurrences_from (p s : pystr) (i skip : nat) : list nat :=
  match s with
  | [] => []
  | _ :: s' =>
      match skip with
      | S k => occurrences_from p s' (S i) k
      | 0 =>
          if starts_with p s
          then i :: occurrences_from p s' (S i) (length p - 1)
          else occurrences_from p s' (S i) 0
      end
  end.

Definition occurrences (s p : pystr) : list nat :=
  match p with
  | [] => []
  | _ :: _ => occurrences_from p s 0 0
  end.

(** Character offset at which unit [i] of a segment starts (equally, at which
    unit [i - 1] ends). *)
Definition unit_offset (texts : list pystr) (i : nat) : nat :=
  length (str_join (take i texts)).

(** The run of whole units whose characters are exactly the [len] characters
    from offset [pos]: the first unit that starts at [pos], up to the first
    unit boundary after it that lies at [pos + len]. *)
Definition whole_units (texts : list pystr) (pos len : nat)
  : option (nat * nat) :=
  a ← snd <$> list_find (λ i, unit_offset texts i = pos)
                (seq 0 (length texts));
  b ← snd <$> list_find (λ j, unit_offset texts j = pos + len)
                (seq (S a) (length texts - a));
  Some (a, b).

(** Concatenation of [f i x] over the elements [x] of a list, [i] being the
    element's index (counted from [i0]). *)
Fixpoint flat_imap {A B} (f : nat → A → list B) (i0 : nat) (l : list A)
  : list B :=
  match l with
  | [] => []
  | x :: r => f i0 x ++ flat_imap f (S i0) r
  end.

Definition mk_match (e : ExtendedDictEntry) (idx a b : nat) : MatchResult :=
  {| entry := e;
     accent_phrase_index := Z.of_nat idx;
     mora_start_index := Z.of_nat a;
     mora_end_index := Z.of_nat b |}.

(** Exact mode, as the specification words it: a segment matches the
    entries whose pronunciation is the segment string, one result per such
    entry, covering the whole segment. *)
Definition exact_segment_matches (es : list ExtendedDictEntry) (idx : nat)
    (ap : AccentPhrase) : list MatchResult :=
  (λ e, mk_match e idx 0 (length (get_moras ap)))
    <$> filter (λ e, pronunciation e = phrase_pronunciation_of (get_moras ap))
          es.


(** Matches of one segment in partial mode. *)
Definition segment_matches (es : list ExtendedDictEntry) (idx : nat)
    (ap : AccentPhrase) : list MatchResult :=
  let texts := mora_texts_of (get_moras ap) in
  e ← es; pos ← occurrences (str_join texts) (pronunciation e);
  record_match texts e idx pos [].

(** Partial mode, as the specification words it: per segment, per
    surviving entry, per non-overlapping occurrence from left to right, the
    run of whole units the occurrence covers, when there is one. *)
Definition occurrence_matches (texts : list pystr) (e : ExtendedDictEntry)
    (idx : nat) : list MatchResult :=
  pos ← occurrences (str_join texts) (pronunciation e);
  match whole_units texts pos (length (pronunciation e)) with
  | Some (a, b) => [mk_match e idx a b]
  | None => []
  end.

Definition partial_matches (q : AudioQuery) (es : list ExtendedDictEntry)
    (text : pystr) : list MatchResult :=
  match text with
  | [] => []
  | _ :: _ =>
      flat_imap
        (λ idx ap, e ← filter_entries es text;
                   occurrence_matches (mora_texts_of (get_moras ap)) e idx)
        0 (get_accent_phrases q)
  end.

(** Every occurrence the scan visits starts where a unit starts. *)
Definition occurrences_on_unit_starts (q : AudioQuery)
    (es : list ExtendedDictEntry) (text : pystr) : Prop :=
  Forall (λ ap,
    Forall (λ e,
      Forall (λ pos,
                pos ∈ unit_offset (mora_texts_of (get_moras ap))
                        <$> seq 0 (length (mora_texts_of (get_moras ap))))
        (occurrences (phrase_pronunciation_of (get_moras ap))
           (pronunciation e)))
      (filter_entries es text))
    (get_accent_phrases q).

#[global] Instance occurrences_on_unit_starts_dec q es text :
  Decision (occurrences_on_unit_starts q es text).
Proof. unfold occurrences_on_unit_starts. apply _. Defined.

(** Every unit of the query has a one-character transcription. *)
Definition single_char_units (q : AudioQuery) : Prop :=
  Forall (λ ap, Forall (λ m, length (get_text m) = 1) (get_moras ap))
    (get_accent_phrases q).

(** The coordinates a match result must have to be applied to [q]. *)
Definition well_formed_match (q : AudioQuery) (m : MatchResult) : Prop :=
  ∃ j a b ap,
    accent_phrase_index m = Z.of_nat j ∧
    mora_start_index m = Z.of_nat a ∧
    mora_end_index m = Z.of_nat b ∧
    get_accent_phrases q !! j = Some ap ∧
    a ≤ b ≤ length (get_moras ap) ∧
    str_join (py_slice (mora_texts_of (get_moras ap)) a b) =
    pronunciation (entry m).



(** The transcription of a query: the unit texts of every segment.  It is
    all the matcher reads of a query. *)
Definition transcription (q : AudioQuery) : list (list pystr) :=
  (λ ap, mora_texts_of (get_moras ap)) <$> get_accent_phrases q.

(** Every unit of the query has a non-empty transcription. *)
Definition no_silent_units (q : AudioQuery) : Prop :=
  Forall (λ ap, Forall (λ m, get_text m ≠ []) (get_moras ap))
    (get_accent_phrases q).

(** [m1] lies before [m2]: in an earlier segment, or in the same segment
    on units that all come before those of [m2]. *)
Definition precedes (m1 m2 : MatchResult) : Prop :=
  (accent_phrase_index m1 < accent_phrase_index m2)%Z ∨
  (accent_phrase_index m1 = accent_phrase_index m2 ∧
   (mora_end_index m1 ≤ mora_start_index m2)%Z).

(** The override lists of the entry fit the range of the match: each is
    absent, empty, or as long as the range. *)
Definition applicable (m : MatchResult) : Prop :=
  ¬ mismatch (pitch_values (entry m))
      (mora_end_index m - mora_start_index m) ∧
  ¬ mismatch (length_values (entry m))
      (mora_end_index m - mora_start_index m).

#[global] Instance applicable_dec m : Decision (applicable m).
Proof. unfold applicable. apply _. Defined.

(* ================================================================== *)
(** * Example data *)
(* ================================================================== *)

(** Katakana ZU N DA MO N, DE SU, TO, CHI small-YA N, KI, KU, A;
    hiragana zu n da mo n, de su, to, a; the kanji of SUMIDA-MON. *)
Definition kata_zundamon : pystr := [0x30ba; 0x30f3; 0x30c0; 0x30e2; 0x30f3]%N.
Definition kata_desu : pystr := [0x30c7; 0x30b9]%N.
Definition kata_to : pystr := [0x30c8]%N.
Definition kata_a : pystr := [0x30a2]%N.
Definition hira_zundamon : pystr := [0x305a; 0x3093; 0x3060; 0x3082; 0x3093]%N.
Definition hira_desu : pystr := [0x3067; 0x3059]%N.
Definition hira_to : pystr := [0x3068]%N.
Definition hira_a : pystr := [0x3042]%N.
Definition kanji_sumidamon : pystr := [0x9685; 0x7530; 0x9580]%N.

Definition mora_of (text : pystr) : Mora :=
  {| mora_text := Some text;
     mora_pitch := Some 5.0%Q;
     mora_vowel_length := Some 0.1%Q;
     mora_consonant_length := Some 0.05%Q;
     mora_other := [] |}.

(** A segment with one unit per given text. *)
Definition phrase_of (texts : list pystr) : AccentPhrase :=
  {| ap_moras := Some (mora_of <$> texts); ap_other := [] |}.

(** A segment with one unit per character. *)
Definition phrase_of_chars (s : pystr) : AccentPhrase :=
  phrase_of ((λ c, [c]) <$> s).

Definition query_of (aps : list AccentPhrase) : AudioQuery :=
  {| aq_accent_phrases := Some aps; aq_other := [] |}.

Definition entry_of (w p : pystr) (pitch length : option (list pyfloat))
  : ExtendedDictEntry :=
  {| word := w; pronunciation := p; accent_type := 3; mora_count := None;
     accent_phrases := None; pitch_values := pitch; length_values := length;
     speaker_id := None |}.

Definition zundamon_entry : ExtendedDictEntry :=
  entry_of hira_zundamon kata_zundamon None None.

(** The segments and entries of the specification's examples. *)
Definition zundamon_desu_query : AudioQuery :=
  query_of [phrase_of_chars (kata_zundamon ++ kata_desu)].

Definition zundamon_twice_query : AudioQuery :=
  query_of [phrase_of_chars (kata_zundamon ++ kata_to ++ kata_zundamon)].




(** A store holding just the query [q], and the reference to it. *)
Definition store_of (q : AudioQuery) : list obj := encode_query 0 q.
Definition ref_of (q : AudioQuery) : loc := query_root 0 q.

(** A one-segment, one-unit query, an entry with one pitch value and one
    with two. *)
Definition a_query : AudioQuery := query_of [phrase_of [kata_a]].

Definition a_entry : ExtendedDictEntry :=
  entry_of hira_a kata_a (Some [9.0%Q]) None.

Definition a_entry_two_pitches : ExtendedDictEntry :=
  entry_of hira_a kata_a (Some [6.0%Q; 6.1%Q]) None.

(** The greeting of the end-to-end example: hiragana ko n ni chi ha, the
    ideographic comma, katakana KO N NI CHI WA. *)
Definition hira_konnichiwa : pystr := [0x3053; 0x3093; 0x306b; 0x3061; 0x306f]%N.
Definition kata_konnichiwa : pystr := [0x30b3; 0x30f3; 0x30cb; 0x30c1; 0x30ef]%N.
Definition touten : pystr := [0x3001]%N.

Definition konnichiwa_zundamon_text : pystr :=
  hira_konnichiwa ++ touten ++ hira_zundamon ++ hira_desu.

Definition konnichiwa_zundamon_query : AudioQuery :=
  query_of [phrase_of_chars kata_konnichiwa;
            phrase_of_chars (kata_zundamon ++ kata_desu)].

Definition zundamon_pitched_entry : ExtendedDictEntry :=
  entry_of hira_zundamon kata_zundamon
    (Some [6.0; 6.1; 6.2; 6.3; 6.4]%Q) None.

(** An engine that answers every text with the query [q] and renders every
    query as the four bytes RIFF. *)
Definition riff : list N := [82; 73; 70; 70]%N.

Definition engine_answering (q : AudioQuery) : VoicevoxClient :=
  {| create_audio_query := λ _ _, Ok q; synthesis := λ _ _, Ok riff |}.

(** An engine that is down. *)
Definition engine_down : VoicevoxClient :=
  {| create_audio_query := λ _ _, Raise ExternalError;
     synthesis := λ _ _, Raise ExternalError |}.

(* ================================================================== *)
(** * Proofs: strings *)
(* ================================================================== *)

Lemma starts_with_spec p s : starts_with p s = true ↔ take (length p) s = p.
Proof.
  revert s; induction p as [|c p IH]; intros [|d s]; simpl; try done.
  case_decide as E; [subst d|].
  - rewrite IH. split; [by intros ->|by intros [= ->]].
  - split; [done|by intros [= -> _]].
Qed.

Lemma starts_with_app p s : starts_with p (p ++ s) = true.
Proof. apply starts_with_spec. by rewrite take_app_length. Qed.

Lemma find_from_starts sub s i pos :
  find_from sub s i = Some pos → starts_with sub (drop (pos - i) s) = true.
Proof.
  revert i; induction s as [|d s IH]; intros i; simpl.
  - destruct (starts_with sub []) eqn:E; [|done]. intros [= <-].
    by rewrite Nat.sub_diag.
  - destruct (starts_with sub (d :: s)) eqn:E.
    + intros [= <-]. by rewrite Nat.sub_diag.
    + intros H. pose proof (find_from_bounds _ _ _ _ H) as [? _].
      apply IH in H. by replace (pos - i) with (S (pos - S i)) by lia.
Qed.

Lemma find_from_None_starts sub s i :
  find_from sub s i = None → ∀ k, starts_with sub (drop k s) = false.
Proof.
  revert i; induction s as [|d s IH]; intros i; simpl.
  - destruct (starts_with sub []) eqn:E; [done|]. intros _ k. by rewrite drop_nil.
  - destruct (starts_with sub (d :: s)) eqn:E; [done|].
    intros H [|k]; [done|]. simpl. by eapply IH.
Qed.

Lemma str_contains_spec text sub :
  str_contains text sub = true ↔ is_substring sub text.
Proof.
  unfold str_contains, str_find. rewrite bool_decide_eq_true.
  rewrite decide_True by lia. rewrite drop_0. split.
  - intros [pos H]. apply find_from_starts in H.
    apply starts_with_spec in H. rewrite Nat.sub_0_r in H.
    exists (take pos text), (drop (length sub) (drop pos text)).
    rewrite <- H at 1. by rewrite !take_drop.
  - intros (pre & post & ->).
    destruct (find_from sub (pre ++ sub ++ post) 0) eqn:E; [done|].
    eapply find_from_None_starts with (k := length pre) in E.
    by rewrite drop_app_length, starts_with_app in E.
Qed.

Lemma scan_unfold texts pp e c p idx start results :
  scan_phrase texts pp e (c :: p) idx start results =
  match str_find pp (c :: p) start with
  | None => results
  | Some pos =>
      scan_phrase texts pp e (c :: p) idx (pos + length (c :: p))
        (record_match texts e idx pos results)
  end.
Proof.
  simp scan_phrase.
  destruct (inspect (str_find pp (c :: p) start)) as [[pos|] H];
    simpl; by rewrite H.
Qed.

(** *** The scan loop visits exactly the non-overlapping occurrences *)

Lemma occurrences_from_skip p s i k :
  occurrences_from p s i k = occurrences_from p (drop k s) (i + k) 0.
Proof.
  revert i k; induction s as [|c s IH]; intros i k.
  - by rewrite drop_nil.
  - destruct k as [|k]; simpl.
    + by rewrite Nat.add_0_r.
    + rewrite IH. f_equal. lia.
Qed.

Lemma occurrences_from_None p s i :
  find_from p s i = None → occurrences_from p s i 0 = [].
Proof.
  revert i; induction s as [|c s IH]; intros i; simpl; [done|].
  destruct (starts_with p (c :: s)); [done|]. apply IH.
Qed.

Lemma occurrences_from_Some p s i pos :
  p ≠ [] →
  find_from p s i = Some pos →
  occurrences_from p s i 0 =
  pos :: occurrences_from p (drop (pos - i + length p) s) (pos + length p) 0.
Proof.
  intros Hp. revert i; induction s as [|c s IH]; intros i; simpl.
  - destruct p; [done|]. done.
  - destruct (starts_with p (c :: s)) eqn:E.
    + intros [= <-]. rewrite occurrences_from_skip. f_equal.
      destruct p as [|d p]; [done|]. simpl.
      rewrite Nat.sub_diag, Nat.sub_0_r. simpl. f_equal. lia.
    + intros H. pose proof (find_from_bounds _ _ _ _ H) as [? _].
      rewrite (IH _ H). f_equal.
      by replace (pos - i + length p) with (S (pos - S i + length p)) by lia.
Qed.

Lemma occurrences_from_elem p s i k pos :
  pos ∈ occurrences_from p s i k →
  i ≤ pos ∧ starts_with p (drop (pos - i) s) = true.
Proof.
  revert i k; induction s as [|c s IH]; intros i k; simpl.
  - by intros ?%elem_of_nil.
  - destruct k as [|k].
    + destruct (starts_with p (c :: s)) eqn:E.
      * intros [->|H]%elem_of_cons.
        { by rewrite Nat.sub_diag. }
        apply IH in H as [? H].
        split; [lia|]. by replace (pos - i) with (S (pos - S i)) by lia.
      * intros H. apply IH in H as [? H].
        split; [lia|]. by replace (pos - i) with (S (pos - S i)) by lia.
    + intros H. apply IH in H as [? H].
      split; [lia|]. by replace (pos - i) with (S (pos - S i)) by lia.
Qed.

Lemma occurrences_elem s p pos :
  pos ∈ occurrences s p →
  p ≠ [] ∧ pos + length p ≤ length s ∧ take (length p) (drop pos s) = p.
Proof.
  unfold occurrences. destruct p as [|c p]; [by intros ?%elem_of_nil|].
  intros [_ H]%occurrences_from_elem. rewrite Nat.sub_0_r in H.
  split; [done|]. split; [|by apply starts_with_spec].
  apply starts_with_length in H. rewrite length_drop in H.
  simpl in *. lia.
Qed.

(* ================================================================== *)
(** * Proofs: the partial-mode loops as comprehensions *)
(* ================================================================== *)

Lemma record_match_app texts e idx pos results :
  record_match texts e idx pos results =
  results ++ record_match texts e idx pos [].
Proof.
  unfold record_match. case_decide; [done|]. by rewrite app_nil_r.
Qed.

Lemma scan_phrase_occurrences texts pp e p idx start results :
  p ≠ [] →
  start ≤ length pp →
  scan_phrase texts pp e p idx start results =
  results ++ (pos ← occurrences_from p (drop start pp) start 0;
              record_match texts e idx pos []).
Proof.
  intros Hp. destruct p as [|c p]; [done|].
  remember (S (length pp) - start) as n eqn:Hn.
  revert start results Hn.
  induction (lt_wf n) as [n _ IH]. intros start results -> Hstart.
  rewrite scan_unfold. unfold str_find. rewrite decide_True by done.
  destruct (find_from (c :: p) (drop start pp) start) as [pos|] eqn:E.
  - pose proof (find_from_bounds _ _ _ _ E) as [? Hb].
    rewrite length_drop in Hb.
    rewrite (occurrences_from_Some _ _ _ _ Hp E).
    rewrite drop_drop.
    replace (start + (pos - start + length (c :: p)))
      with (pos + length (c :: p)) by lia.
    assert (pos + length (c :: p) ≤ length pp) as Hle by lia.
    rewrite (IH (S (length pp) - (pos + length (c :: p)))
               ltac:(simpl in *; lia) _ _ eq_refl Hle).
    rewrite record_match_app. rewrite bind_cons. by rewrite (assoc (++)).
  - rewrite (occurrences_from_None _ _ _ E). by rewrite app_nil_r.
Qed.

Lemma scan_phrase_spec texts pp e idx results :
  scan_phrase texts pp e (pronunciation e) idx 0 results =
  results ++ (pos ← occurrences pp (pronunciation e);
              record_match texts e idx pos []).
Proof.
  unfold occurrences. destruct (pronunciation e) as [|c p] eqn:E.
  - simp scan_phrase. by rewrite app_nil_r.
  - rewrite scan_phrase_occurrences by (done || lia). by rewrite drop_0.
Qed.

Lemma scan_entries_spec texts pp idx es results :
  scan_entries texts pp idx es results =
  results ++ (e ← es; pos ← occurrences pp (pronunciation e);
              record_match texts e idx pos []).
Proof.
  revert results; induction es as [|e es IH]; intros results.
  - simpl. by rewrite app_nil_r.
  - cbn [scan_entries]. rewrite IH, scan_phrase_spec.
    by rewrite bind_cons, (assoc (++)).
Qed.

Lemma bind_nil_fun {A B} (l : list A) : (x ← l; @nil B) = [].
Proof. induction l; [done|]. by rewrite bind_cons. Qed.

Lemma segment_matches_no_moras es idx ap :
  get_moras ap = [] → segment_matches es idx ap = [].
Proof.
  intros H. unfold segment_matches. rewrite H. simpl.
  induction es as [|e es IH]; [done|]. rewrite bind_cons, IH.
  unfold occurrences. by destruct (pronunciation e).
Qed.

Lemma find_matches_with_text_loop_spec es idx aps results :
  find_matches_with_text_loop es idx aps results =
  results ++ flat_imap (segment_matches es) idx aps.
Proof.
  revert idx results; induction aps as [|ap aps IH]; intros idx results; simpl.
  - by rewrite app_nil_r.
  - destruct (get_moras ap) as [|m ms] eqn:E.
    + rewrite IH, segment_matches_no_moras by done. done.
    + rewrite IH, scan_entries_spec, <- (assoc (++)). f_equal. f_equal.
      unfold segment_matches. by rewrite E.
Qed.

Lemma flat_imap_nil {A B} (f : nat → A → list B) i l :
  (∀ j x, f j x = []) → flat_imap f i l = [].
Proof.
  intros H. revert i; induction l as [|x l IH]; intros i; simpl; [done|].
  by rewrite H, IH.
Qed.

Lemma elem_of_flat_imap {A B} (f : nat → A → list B) i l y :
  y ∈ flat_imap f i l ↔ ∃ j x, l !! j = Some x ∧ y ∈ f (i + j) x.
Proof.
  revert i; induction l as [|x l IH]; intros i; simpl.
  - split; [by intros ?%elem_of_nil|]. by intros (j & x & ? & _).
  - rewrite elem_of_app, IH. split.
    + intros [H|(j & x' & Hj & H)].
      * exists 0, x. by rewrite Nat.add_0_r.
      * exists (S j), x'. split; [done|].
        by replace (i + S j) with (S i + j) by lia.
    + intros ([|j] & x' & Hj & H); simpl in Hj.
      * left. injection Hj as <-. by rewrite Nat.add_0_r in H.
      * right. exists j, x'. split; [done|].
        by replace (S i + j) with (i + S j) by lia.
Qed.

(** Partial mode as a comprehension: segments in order; within a segment
    the surviving entries in entry-list order; within an entry the
    occurrences from left to right. *)
Lemma find_matches_with_text_spec q es text :
  find_matches_with_text q es text =
  match text with
  | [] => []
  | _ :: _ =>
      flat_imap (segment_matches (filter_entries es text)) 0
        (get_accent_phrases q)
  end.
Proof.
  unfold find_matches_with_text.
  destruct text as [|t text]; [by destruct es|].
  destruct es as [|e es].
  { unfold filter_entries. rewrite filter_nil.
    by rewrite flat_imap_nil. }
  destruct (get_accent_phrases q) as [|ap aps] eqn:Eq; [done|].
  destruct (filter_entries (e :: es) (t :: text)) as [|e' es'] eqn:Ef.
  - by rewrite flat_imap_nil.
  - by rewrite find_matches_with_text_loop_spec.
Qed.

(* ================================================================== *)
(** * Proofs: from character offsets to unit ranges *)
(* ================================================================== *)

Lemma unit_offset_0 texts : unit_offset texts 0 = 0.
Proof. done. Qed.

Lemma unit_offset_S t texts i :
  unit_offset (t :: texts) (S i) = length t + unit_offset texts i.
Proof. unfold unit_offset, str_join. simpl. by rewrite length_app. Qed.

Lemma unit_offset_mono texts i j :
  i ≤ j → unit_offset texts i ≤ unit_offset texts j.
Proof.
  revert i j; induction texts as [|t texts IH]; intros i j Hij.
  - unfold unit_offset. by rewrite !take_nil.
  - destruct i as [|i]; [rewrite unit_offset_0; lia|].
    destruct j as [|j]; [lia|]. rewrite !unit_offset_S.
    specialize (IH i j). lia.
Qed.

Lemma unit_offset_all texts i :
  length texts ≤ i → unit_offset texts i = length (str_join texts).
Proof. intros H. unfold unit_offset. by rewrite take_ge. Qed.

Lemma unit_offset_drop texts a k :
  unit_offset (drop a texts) k = unit_offset texts (a + k) - unit_offset texts a.
Proof.
  revert a; induction texts as [|t texts IH]; intros a.
  - rewrite drop_nil. unfold unit_offset. by rewrite !take_nil.
  - destruct a as [|a]; simpl.
    + rewrite unit_offset_0. lia.
    + rewrite IH, !unit_offset_S. lia.
Qed.

Lemma str_join_take texts k :
  str_join (take k texts) = take (unit_offset texts k) (str_join texts).
Proof.
  revert k; induction texts as [|t texts IH]; intros k.
  - rewrite take_nil. unfold str_join. simpl. by rewrite take_nil.
  - destruct k as [|k]; [done|]. rewrite unit_offset_S.
    unfold str_join in *. simpl. rewrite take_app_add'; [|done].
    by rewrite IH.
Qed.

Lemma str_join_drop texts a :
  str_join (drop a texts) = drop (unit_offset texts a) (str_join texts).
Proof.
  revert a; induction texts as [|t texts IH]; intros a.
  - rewrite drop_nil. unfold str_join. simpl. by rewrite drop_nil.
  - destruct a as [|a]; [done|]. rewrite unit_offset_S.
    unfold str_join in *. simpl. rewrite drop_app_add'; [|done].
    by rewrite IH.
Qed.

Lemma str_join_take_drop texts a k :
  str_join (take k (drop a texts)) =
  take (unit_offset (drop a texts) k)
    (drop (unit_offset texts a) (str_join texts)).
Proof. by rewrite str_join_take, str_join_drop. Qed.

Lemma py_slice_take_drop {A} (l : list A) a b :
  py_slice l a b = take (b - a) (drop a l).
Proof.
  unfold py_slice. destruct (decide (a ≤ b)).
  - rewrite take_drop_commute. by replace (a + (b - a)) with b by lia.
  - replace (b - a) with 0 by lia. rewrite take_0. apply drop_ge.
    rewrite length_take. lia.
Qed.

(** [locate_mora_start] finds the first unit that starts at [pos]. *)
Lemma locate_mora_start_found texts pos i c k :
  k < length texts →
  c + unit_offset texts k = pos →
  (∀ j, j < k → c + unit_offset texts j ≠ pos) →
  locate_mora_start texts pos i c = i + k.
Proof.
  revert i c k; induction texts as [|t texts IH]; intros i c k Hk Hoff Hmin;
    simpl in *; [lia|].
  case_decide as E.
  - destruct k as [|k]; [lia|].
    exfalso. apply (Hmin 0); [lia|]. by rewrite unit_offset_0, Nat.add_0_r.
  - destruct k as [|k].
    { rewrite unit_offset_0 in Hoff. lia. }
    rewrite (IH (S i) (c + length t) k); [lia|lia|..].
    + rewrite unit_offset_S in Hoff. lia.
    + intros j Hj. specialize (Hmin (S j) ltac:(lia)).
      rewrite unit_offset_S in Hmin. lia.
Qed.

Lemma locate_mora_start_bound texts pos i c :
  locate_mora_start texts pos i c = 0 ∨
  (i ≤ locate_mora_start texts pos i c < i + length texts).
Proof.
  revert i c; induction texts as [|t texts IH]; intros i c; simpl; [by left|].
  case_decide; [right; lia|].
  destruct (IH (S i) (c + length t)) as [->|?]; [by left|right; lia].
Qed.

(** [locate_mora_end] stops at the first unit boundary at which at least
    [len] characters have been passed. *)
Lemma locate_mora_end_found rest i me mc len k :
  k < length rest →
  len ≤ mc + unit_offset rest (S k) →
  (∀ j, j < k → mc + unit_offset rest (S j) < len) →
  locate_mora_end rest i me mc len = i + S k.
Proof.
  revert i me mc k; induction rest as [|t rest IH]; intros i me mc k Hk Hoff Hmin;
    simpl in *; [lia|].
  case_decide as E.
  - destruct k as [|k]; [lia|]. exfalso.
    specialize (Hmin 0 ltac:(lia)).
    rewrite unit_offset_S, unit_offset_0 in Hmin. lia.
  - destruct k as [|k].
    { rewrite unit_offset_S, unit_offset_0 in Hoff. lia. }
    rewrite (IH (S i) (S i) (mc + length t) k); [lia|lia|..].
    + rewrite unit_offset_S in Hoff. lia.
    + intros j Hj. specialize (Hmin (S j) ltac:(lia)).
      rewrite unit_offset_S in Hmin. lia.
Qed.

Lemma locate_mora_end_bound rest i me mc len :
  me ≤ i →
  me ≤ locate_mora_end rest i me mc len ≤ i + length rest.
Proof.
  revert i me mc; induction rest as [|t rest IH]; intros i me mc Hme; simpl;
    [lia|].
  case_decide; [lia|].
  specialize (IH (S i) (S i) (mc + length t) ltac:(lia)). lia.
Qed.

(** Every recorded match is a unit range inside the segment whose texts
    spell the pronunciation. *)
Lemma record_match_elem texts e idx pos m :
  m ∈ record_match texts e idx pos [] →
  ∃ a b, m = mk_match e idx a b ∧ a ≤ b ≤ length texts ∧
         str_join (py_slice texts a b) = pronunciation e.
Proof.
  unfold record_match.
  set (a := locate_mora_start texts pos 0 0).
  set (b := locate_mora_end (drop a texts) a a 0 (length (pronunciation e))).
  case_decide as E; [|by intros ?%elem_of_nil].
  intros ->%list_elem_of_singleton. exists a, b. split; [done|]. split; [|done].
  assert (a ≤ length texts) as Ha.
  { subst a. destruct (locate_mora_start_bound texts pos 0 0) as [->|?]; lia. }
  pose proof (locate_mora_end_bound (drop a texts) a a 0
                (length (pronunciation e)) ltac:(lia)) as Hb.
  fold b in Hb. rewrite length_drop in Hb. lia.
Qed.

Lemma list_find_seq (P : nat → Prop) `{!∀ x, Decision (P x)} j n :
  (list_find P (seq j n) = None ∧ ∀ x, j ≤ x < j + n → ¬P x) ∨
  (∃ k, list_find P (seq j n) = Some (k, j + k) ∧ k < n ∧ P (j + k) ∧
        ∀ i, i < k → ¬P (j + i)).
Proof.
  destruct (list_find P (seq j n)) as [[k x]|] eqn:E.
  - right. apply list_find_Some in E as (Hk & HP & Hmin).
    apply lookup_seq in Hk as [-> Hk]. exists k. repeat split; try done.
    intros i Hi. apply (Hmin i); [|done]. apply lookup_seq_lt. lia.
  - left. split; [done|]. apply list_find_None in E.
    by apply Forall_seq.
Qed.

(** An occurrence that starts at a unit boundary is recorded exactly when
    it also ends at one, as the run of whole units it covers. *)
Lemma record_match_whole_units texts e idx pos :
  pos ∈ occurrences (str_join texts) (pronunciation e) →
  pos ∈ unit_offset texts <$> seq 0 (length texts) →
  record_match texts e idx pos [] =
  match whole_units texts pos (length (pronunciation e)) with
  | Some (a, b) => [mk_match e idx a b]
  | None => []
  end.
Proof.
  intros (Hp & Hlen & Hocc)%occurrences_elem Hstart.
  set (L := length (pronunciation e)) in *.
  assert (0 < L) as HL.
  { subst L. destruct (pronunciation e); [done|simpl; lia]. }
  unfold whole_units.
  destruct (list_find_seq (λ i, unit_offset texts i = pos) 0 (length texts))
    as [[_ Hno]|(a & -> & Ha & Hoff & Hmin)].
  { exfalso. apply list_elem_of_fmap in Hstart as (i & -> & Hi%elem_of_seq).
    by apply (Hno i). }
  simpl in Hoff, Hmin. cbn [fmap option_fmap option_map mbind option_bind snd].
  rewrite Nat.add_0_l.
  (* the end of the range the code computes *)
  destruct (list_find_seq (λ j, pos + L ≤ unit_offset texts j) (S a)
              (length texts - a)) as [[_ Hno]|(k & _ & Hk & Hge & Hlt)].
  { exfalso. apply (Hno (length texts)); [lia|].
    rewrite unit_offset_all by done. done. }
  assert (locate_mora_start texts pos 0 0 = a) as Hs.
  { apply (locate_mora_start_found texts pos 0 0 a); [done|done|].
    intros j Hj. simpl. by apply Hmin. }
  assert (locate_mora_end (drop a texts) a a 0 L = S a + k) as He.
  { rewrite (locate_mora_end_found _ a a 0 L k).
    - lia.
    - rewrite length_drop. lia.
    - rewrite unit_offset_drop. simpl.
      replace (a + S k) with (S a + k) by lia. lia.
    - intros j Hj. rewrite unit_offset_drop. simpl.
      specialize (Hlt j Hj). replace (a + S j) with (S a + j) by lia. lia. }
  unfold record_match. fold L. rewrite Hs, He.
  assert (str_join (py_slice texts a (S a + k)) =
          take (unit_offset texts (S a + k) - pos)
            (drop pos (str_join texts))) as ->.
  { rewrite py_slice_take_drop, str_join_take_drop, unit_offset_drop, Hoff.
    by replace (a + (S a + k - a)) with (S a + k) by lia. }
  assert (unit_offset texts (S a + k) ≤ length (str_join texts)) as Hub.
  { rewrite <- (unit_offset_all texts (length texts)) by done.
    apply unit_offset_mono. lia. }
  destruct (decide (unit_offset texts (S a + k) = pos + L)) as [Heq|Hne].
  - (* the occurrence ends on a unit boundary *)
    assert (list_find (λ j, unit_offset texts j = pos + L)
              (seq (S a) (length texts - a)) = Some (k, S a + k)) as ->.
    { apply list_find_Some. split; [by apply lookup_seq_lt|]. split; [done|].
      intros j y [-> _]%lookup_seq Hj. specialize (Hlt j Hj). lia. }
    rewrite Heq. replace (pos + L - pos) with L by lia.
    rewrite decide_True by done. done.
  - (* the occurrence ends inside a unit *)
    assert (list_find (λ j, unit_offset texts j = pos + L)
              (seq (S a) (length texts - a)) = None) as ->.
    { apply list_find_None, Forall_seq. intros j Hj Hj'.
      destruct (decide (j < S a + k)).
      - specialize (Hlt (j - S a) ltac:(lia)).
        replace (S a + (j - S a)) with j in Hlt by lia. lia.
      - pose proof (unit_offset_mono texts (S a + k) j ltac:(lia)). lia. }
    rewrite decide_False; [done|].
    intros Heq. apply (f_equal length) in Heq.
    rewrite length_take, length_drop in Heq. fold L in Heq. lia.
Qed.

(* ================================================================== *)
(** * Proofs: exact mode *)
(* ================================================================== *)

Lemma index_entry_lookup d e p :
  index_entry d e !! p =
  if decide (pronunciation e = p) then Some (default [] (d !! p) ++ [e])
  else d !! p.
Proof.
  unfold index_entry. case_decide as E.
  - subst p. rewrite lookup_insert_eq. do 2 f_equal.
    destruct (d !! pronunciation e) eqn:E'; [by rewrite E'|].
    by rewrite lookup_insert_eq.
  - rewrite lookup_insert_ne by done.
    destruct (d !! pronunciation e); [done|]. by rewrite lookup_insert_ne.
Qed.

Lemma foldl_index_entry_lookup d es p :
  foldl index_entry d es !! p =
  match filter (λ e, pronunciation e = p) es with
  | [] => d !! p
  | l => Some (default [] (d !! p) ++ l)
  end.
Proof.
  revert d; induction es as [|e es IH]; intros d; simpl; [done|].
  rewrite IH, index_entry_lookup, filter_cons.
  case_decide as E; simpl.
  - destruct (filter (λ e0, pronunciation e0 = p) es); [done|].
    by rewrite <- (assoc (++)).
  - done.
Qed.

Lemma pronunciation_to_entries_lookup es p :
  pronunciation_to_entries es !! p =
  match filter (λ e, pronunciation e = p) es with
  | [] => None
  | l => Some l
  end.
Proof.
  unfold pronunciation_to_entries. rewrite foldl_index_entry_lookup.
  rewrite lookup_empty. by destruct (filter _ es).
Qed.




(* ================================================================== *)
(** * Proofs: the store, deep copies and their layout *)
(* ================================================================== *)

Lemma bind_ok {A B} (m : M A) (k : A → M B) h h' a :
  m h = (h', Ok a) → (m ≫= k) h = k a h'.
Proof. unfold mbind, M_bind. by intros ->. Qed.

Lemma bind_raise {A B} (m : M A) (k : A → M B) h h' e :
  m h = (h', Raise e) → (m ≫= k) h = (h', Raise e).
Proof. unfold mbind, M_bind. by intros ->. Qed.

Lemma load_run h l o : h !! l = Some o → load l h = (h, Ok o).
Proof. unfold load. by intros ->. Qed.

Lemma load_mora_run h l m :
  h !! l = Some (OMora m) → load_mora l h = (h, Ok m).
Proof. intros H. unfold load_mora. by rewrite (bind_ok _ _ _ _ _ (load_run _ _ _ H)). Qed.

Lemma load_list_run h l ls :
  h !! l = Some (OList ls) → load_list l h = (h, Ok ls).
Proof. intros H. unfold load_list. by rewrite (bind_ok _ _ _ _ _ (load_run _ _ _ H)). Qed.

Lemma read_mora_Some h l m : read_mora h l = Some m ↔ h !! l = Some (OMora m).
Proof.
  unfold read_mora. destruct (h !! l) as [[]|]; naive_solver.
Qed.

Lemma length_encode_phrase b ap : length (encode_phrase b ap) = phrase_size ap.
Proof.
  unfold encode_phrase, phrase_size. destruct (ap_moras ap); [|done].
  rewrite length_app, length_fmap. simpl. lia.
Qed.

Lemma phrases_size_cons ap aps :
  phrases_size (ap :: aps) = phrase_size ap + phrases_size aps.
Proof. done. Qed.

Lemma phrases_size_app aps1 aps2 :
  phrases_size (aps1 ++ aps2) = phrases_size aps1 + phrases_size aps2.
Proof. apply sum_list_with_app. Qed.

Lemma length_encode_phrases b aps :
  length (encode_phrases b aps) = phrases_size aps.
Proof.
  revert b; induction aps as [|ap aps IH]; intros b; simpl; [done|].
  by rewrite length_app, length_encode_phrase, IH.
Qed.

Lemma length_encode_query b q : length (encode_query b q) = query_size q.
Proof.
  unfold encode_query, query_size. destruct (aq_accent_phrases q); [|done].
  rewrite length_app, length_encode_phrases. simpl. lia.
Qed.

Lemma length_phrase_roots b aps : length (phrase_roots b aps) = length aps.
Proof. revert b; induction aps; intros b; simpl; by f_equal. Qed.

Lemma phrase_size_pos ap : 0 < phrase_size ap.
Proof. unfold phrase_size. destruct (ap_moras ap); lia. Qed.

(** *** [_deep_copy_query] appends the layout of the query it reads *)

Lemma copy_mora_run h h' l m :
  read_mora h l = Some m → h `prefix_of` h' →
  copy_mora l h' = (h' ++ [OMora m], Ok (length h')).
Proof.
  intros Hm%read_mora_Some Hp. unfold copy_mora.
  by rewrite (bind_ok _ _ _ _ _
                (load_mora_run _ _ _ (prefix_lookup_Some _ _ _ _ Hm Hp))).
Qed.

Lemma copy_moras_run h h' ls ms :
  mapM (read_mora h) ls = Some ms → h `prefix_of` h' →
  copy_each copy_mora ls h' =
  (h' ++ (OMora <$> ms), Ok (seq (length h') (length ms))).
Proof.
  intros Hms%mapM_Some. revert h'.
  induction Hms as [|l m ls ms Hm _ IH]; intros h' Hp; simpl.
  - by rewrite app_nil_r.
  - rewrite (bind_ok _ _ _ _ _ (copy_mora_run _ _ _ _ Hm Hp)).
    assert (h `prefix_of` h' ++ [OMora m]) as Hp'
      by (etrans; [done|by apply prefix_app_r]).
    rewrite (bind_ok _ _ _ _ _ (IH _ Hp')).
    rewrite <- (assoc (++)). simpl. rewrite length_app. simpl.
    by rewrite Nat.add_1_r.
Qed.

Lemma read_accent_phrase_Some h l ap :
  read_accent_phrase h l = Some ap ↔
  ∃ ml, h !! l = Some (OAccentPhrase ml (ap_other ap)) ∧
        read_field (read_list (read_mora h) h) ml = Some (ap_moras ap).
Proof.
  unfold read_accent_phrase. destruct (h !! l) as [[| |ml other|]|];
    try by (split; [|intros (?&?&?)]).
  destruct (read_field _ ml) as [ms|] eqn:E; simpl.
  - split.
    + intros [= <-]. by exists ml.
    + intros (ml' & [= <- Ho] & Hms). rewrite E in Hms.
      injection Hms as Hms. destruct ap. simpl in *. by subst.
  - split; [done|]. intros (ml' & [= <- _] & Hms). by rewrite E in Hms.
Qed.

Lemma copy_mora_list_run h h' ml ms :
  read_list (read_mora h) h ml = Some ms → h `prefix_of` h' →
  copy_list copy_mora ml h' =
  (h' ++ (OMora <$> ms) ++ [OList (seq (length h') (length ms))],
   Ok (length h' + length ms)).
Proof.
  unfold read_list. intros E Hp.
  destruct (h !! ml) as [[|ls| |]|] eqn:Hml; try done.
  unfold copy_list.
  rewrite (bind_ok _ _ _ _ _
             (load_list_run _ _ _ (prefix_lookup_Some _ _ _ _ Hml Hp))).
  rewrite (bind_ok _ _ _ _ _ (copy_moras_run _ _ _ _ E Hp)).
  unfold alloc. by rewrite <- (assoc (++)), length_app, length_fmap.
Qed.

Lemma copy_accent_phrase_run h h' l ap :
  read_accent_phrase h l = Some ap → h `prefix_of` h' →
  copy_accent_phrase l h' =
  (h' ++ encode_phrase (length h') ap, Ok (phrase_root (length h') ap)).
Proof.
  intros (ml & Hl & Hms)%read_accent_phrase_Some Hp. unfold copy_accent_phrase.
  rewrite (bind_ok _ _ _ _ _ (load_run _ _ _ (prefix_lookup_Some _ _ _ _ Hl Hp))).
  unfold encode_phrase, phrase_root, phrase_size.
  destruct ml as [ml|]; simpl in Hms.
  - destruct (read_list (read_mora h) h ml) as [ms|] eqn:E; [|done].
    injection Hms as <-. unfold copy_field.
    rewrite (bind_ok _ _ _ _ _
      (bind_ok _ _ _ _ _ (copy_mora_list_run _ _ _ _ E Hp))).
    unfold alloc. rewrite <- !(assoc (++)). simpl.
    rewrite !length_app, length_fmap. simpl.
    by replace (length h' + (length ms + 2) - 1)
      with (length h' + (length ms + 1)) by lia.
  - injection Hms as <-. simpl. unfold mret, M_ret, alloc. simpl.
    by replace (length h' + 1 - 1) with (length h') by lia.
Qed.

Lemma copy_phrases_run h h' ls aps :
  mapM (read_accent_phrase h) ls = Some aps → h `prefix_of` h' →
  copy_each copy_accent_phrase ls h' =
  (h' ++ encode_phrases (length h') aps, Ok (phrase_roots (length h') aps)).
Proof.
  intros Haps%mapM_Some. revert h'.
  induction Haps as [|l ap ls aps Hap _ IH]; intros h' Hp; simpl.
  - by rewrite app_nil_r.
  - rewrite (bind_ok _ _ _ _ _ (copy_accent_phrase_run _ _ _ _ Hap Hp)).
    assert (h `prefix_of` h' ++ encode_phrase (length h') ap) as Hp'
      by (etrans; [done|by apply prefix_app_r]).
    rewrite (bind_ok _ _ _ _ _ (IH _ Hp')).
    by rewrite <- (assoc (++)), length_app, length_encode_phrase.
Qed.

Lemma read_query_Some h l q :
  read_query h l = Some q ↔
  ∃ pl, h !! l = Some (OAudioQuery pl (aq_other q)) ∧
        read_field (read_list (read_accent_phrase h) h) pl =
        Some (aq_accent_phrases q).
Proof.
  unfold read_query. destruct (h !! l) as [[| | |pl other]|];
    try by (split; [|intros (?&?&?)]).
  destruct (read_field _ pl) as [aps|] eqn:E; simpl.
  - split.
    + intros [= <-]. by exists pl.
    + intros (pl' & [= <- Ho] & Haps). rewrite E in Haps.
      injection Haps as Haps. destruct q. simpl in *. by subst.
  - split; [done|]. intros (pl' & [= <- _] & Haps). by rewrite E in Haps.
Qed.

Lemma deep_copy_query_run h h' l q :
  read_query h l = Some q → h `prefix_of` h' →
  _deep_copy_query l h' =
  (h' ++ encode_query (length h') q, Ok (query_root (length h') q)).
Proof.
  intros (pl & Hl & Haps)%read_query_Some Hp. unfold _deep_copy_query.
  rewrite (bind_ok _ _ _ _ _ (load_run _ _ _ (prefix_lookup_Some _ _ _ _ Hl Hp))).
  unfold encode_query, query_root, query_size.
  destruct pl as [pl|]; simpl in Haps.
  - destruct (read_list (read_accent_phrase h) h pl) as [aps|] eqn:E; [|done].
    injection Haps as <-. unfold read_list in E.
    destruct (h !! pl) as [[|ls| |]|] eqn:Hpl; try done.
    unfold copy_field, copy_list.
    assert ((ls0 ← load_list pl; ls' ← copy_each copy_accent_phrase ls0;
             alloc (OList ls')) h' =
            (h' ++ encode_phrases (length h') aps ++
               [OList (phrase_roots (length h') aps)],
             Ok (length h' + phrases_size aps))) as Hlist.
    { rewrite (bind_ok _ _ _ _ _
                 (load_list_run _ _ _ (prefix_lookup_Some _ _ _ _ Hpl Hp))).
      rewrite (bind_ok _ _ _ _ _ (copy_phrases_run _ _ _ _ E Hp)).
      unfold alloc.
      by rewrite <- (assoc (++)), length_app, length_encode_phrases. }
    rewrite (bind_ok _ _ _ _ _ (bind_ok _ _ _ _ _ Hlist)).
    unfold alloc. rewrite <- !(assoc (++)). simpl.
    rewrite !length_app, length_encode_phrases. simpl.
    by replace (length h' + (phrases_size aps + 2) - 1)
      with (length h' + (phrases_size aps + 1)) by lia.
  - injection Haps as <-. simpl. unfold mret, M_ret, alloc. simpl.
    by replace (length h' + 1 - 1) with (length h') by lia.
Qed.

(** *** Reading a laid-out query back *)

Lemma read_moras_encoded pre post ms :
  mapM (read_mora (pre ++ (OMora <$> ms) ++ post))
    (seq (length pre) (length ms)) = Some ms.
Proof.
  apply mapM_Some, Forall2_same_length_lookup_2.
  { by rewrite length_seq. }
  intros i l m [-> Hi]%lookup_seq Hm. apply read_mora_Some.
  rewrite lookup_app_r by lia. rewrite lookup_app_l by (rewrite length_fmap; lia).
  replace (length pre + i - length pre) with i by lia.
  by rewrite list_lookup_fmap, Hm.
Qed.

Lemma read_accent_phrase_encoded pre post ap :
  read_accent_phrase (pre ++ encode_phrase (length pre) ap ++ post)
    (phrase_root (length pre) ap) = Some ap.
Proof.
  apply read_accent_phrase_Some.
  unfold encode_phrase, phrase_root, phrase_size.
  destruct (ap_moras ap) as [ms|] eqn:E.
  - exists (Some (length pre + length ms)). split.
    + rewrite lookup_app_r by lia.
      replace (length pre + (length ms + 2) - 1 - length pre)
        with (length (OMora <$> ms) + 1) by (rewrite length_fmap; lia).
      rewrite <- !(assoc (++)). by rewrite lookup_app_r, Nat.add_comm, Nat.add_sub by lia.
    + simpl. unfold read_list.
      rewrite lookup_app_r by lia.
      replace (length pre + length ms - length pre)
        with (length (OMora <$> ms) + 0) by (rewrite length_fmap; lia).
      rewrite <- !(assoc (++)).
      rewrite lookup_app_r, Nat.add_comm, Nat.add_sub by lia. simpl.
      rewrite <- (assoc (++) (OMora <$> ms)).
      by rewrite read_moras_encoded.
  - exists None. split; [|done].
    rewrite lookup_app_r by lia.
    by replace (length pre + 1 - 1 - length pre) with 0 by lia.
Qed.

Lemma read_phrases_encoded_aux aps H pre post :
  H = pre ++ encode_phrases (length pre) aps ++ post →
  Forall2 (λ l ap, read_accent_phrase H l = Some ap)
    (phrase_roots (length pre) aps) aps.
Proof.
  revert H pre. induction aps as [|ap aps IH]; intros H pre ->; simpl;
    constructor.
  - rewrite <- (assoc (++)). apply read_accent_phrase_encoded.
  - replace (length pre + phrase_size ap)
      with (length (pre ++ encode_phrase (length pre) ap))
      by (by rewrite length_app, length_encode_phrase).
    apply IH. rewrite length_app, length_encode_phrase.
    by rewrite <- !(assoc (++)).
Qed.

Lemma read_phrases_encoded pre post aps :
  mapM (read_accent_phrase (pre ++ encode_phrases (length pre) aps ++ post))
    (phrase_roots (length pre) aps) = Some aps.
Proof. apply mapM_Some. by eapply read_phrases_encoded_aux. Qed.

Lemma read_query_encoded pre post q :
  read_query (pre ++ encode_query (length pre) q ++ post)
    (query_root (length pre) q) = Some q.
Proof.
  apply read_query_Some.
  unfold encode_query, query_root, query_size.
  destruct (aq_accent_phrases q) as [aps|] eqn:E.
  - exists (Some (length pre + phrases_size aps)). split.
    + rewrite lookup_app_r by lia.
      replace (length pre + (phrases_size aps + 2) - 1 - length pre)
        with (length (encode_phrases (length pre) aps) + 1)
        by (rewrite length_encode_phrases; lia).
      rewrite <- !(assoc (++)).
      by rewrite lookup_app_r, Nat.add_comm, Nat.add_sub by lia.
    + simpl. unfold read_list.
      rewrite lookup_app_r by lia.
      replace (length pre + phrases_size aps - length pre)
        with (length (encode_phrases (length pre) aps) + 0)
        by (rewrite length_encode_phrases; lia).
      rewrite <- !(assoc (++)).
      rewrite lookup_app_r, Nat.add_comm, Nat.add_sub by lia. simpl.
      rewrite <- (assoc (++) (encode_phrases _ _)).
      by rewrite read_phrases_encoded.
  - exists None. split; [|done].
    rewrite lookup_app_r by lia.
    by replace (length pre + 1 - 1 - length pre) with 0 by lia.
Qed.

(** *** Finding and updating a unit in a laid-out query *)

Lemma with_moras_size ap ms ms' :
  ap_moras ap = Some ms → length ms' = length ms →
  phrase_size (with_moras ap ms') = phrase_size ap.
Proof. unfold phrase_size, with_moras. simpl. intros -> ->. done. Qed.

Lemma phrases_size_insert aps j ap ap' :
  aps !! j = Some ap → phrase_size ap' = phrase_size ap →
  phrases_size (<[j := ap']> aps) = phrases_size aps.
Proof.
  revert j; induction aps as [|a aps IH]; intros [|j] Hj Hs; simpl in *;
    try done.
  - injection Hj as ->. by rewrite !phrases_size_cons, Hs.
  - by rewrite !phrases_size_cons, (IH j).
Qed.

Lemma phrase_base_insert b aps j ap ap' j' :
  aps !! j = Some ap → phrase_size ap' = phrase_size ap →
  phrase_base b (<[j := ap']> aps) j' = phrase_base b aps j'.
Proof.
  intros Hj Hs. unfold phrase_base. f_equal.
  destruct (decide (j < j')).
  - rewrite take_insert_lt by done.
    apply (phrases_size_insert _ _ ap); [|done].
    by rewrite lookup_take_lt.
  - by rewrite take_insert_ge by lia.
Qed.

Lemma phrase_roots_insert b aps j ap ap' :
  aps !! j = Some ap → phrase_size ap' = phrase_size ap →
  phrase_roots b (<[j := ap']> aps) = phrase_roots b aps.
Proof.
  revert b j; induction aps as [|a aps IH]; intros b [|j] Hj Hs; simpl in *;
    try done.
  - injection Hj as ->. unfold phrase_root. by rewrite Hs.
  - by rewrite (IH _ j).
Qed.

Lemma phrase_roots_lookup b aps j ap :
  aps !! j = Some ap →
  phrase_roots b aps !! j = Some (phrase_root (phrase_base b aps j) ap).
Proof.
  unfold phrase_base.
  revert b j; induction aps as [|a aps IH]; intros b [|j] Hj; simpl in *;
    try done.
  - injection Hj as ->. by rewrite Nat.add_0_r.
  - rewrite (IH _ j Hj), phrases_size_cons. do 2 f_equal. lia.
Qed.

Lemma encode_phrases_lookup b aps j ap off :
  aps !! j = Some ap → off < phrase_size ap →
  encode_phrases b aps !! (phrases_size (take j aps) + off) =
  encode_phrase (phrase_base b aps j) ap !! off.
Proof.
  unfold phrase_base.
  revert b j; induction aps as [|a aps IH]; intros b [|j] Hj Hoff; simpl in *;
    try done.
  - injection Hj as ->. rewrite Nat.add_0_r.
    by rewrite lookup_app_l by (by rewrite length_encode_phrase).
  - rewrite phrases_size_cons.
    rewrite lookup_app_r by (rewrite length_encode_phrase; lia).
    rewrite length_encode_phrase.
    replace (phrase_size a + phrases_size (take j aps) + off - phrase_size a)
      with (phrases_size (take j aps) + off) by lia.
    rewrite (IH _ j Hj Hoff). do 2 f_equal. lia.
Qed.

Lemma encode_phrases_insert b aps j ap ms k m' :
  aps !! j = Some ap → ap_moras ap = Some ms → k < length ms →
  <[phrases_size (take j aps) + k := OMora m']> (encode_phrases b aps) =
  encode_phrases b (<[j := with_moras ap (<[k := m']> ms)]> aps).
Proof.
  intros Hj Hms Hk.
  assert (phrase_size (with_moras ap (<[k := m']> ms)) = phrase_size ap) as Hs
    by (apply (with_moras_size _ ms); [done|by rewrite length_insert]).
  revert b j Hj; induction aps as [|a aps IH]; intros b [|j] Hj; simpl in *;
    try done.
  - injection Hj as ->. rewrite Hs.
    rewrite insert_app_l
      by (rewrite length_encode_phrase; unfold phrase_size; rewrite Hms; lia).
    f_equal. unfold encode_phrase, with_moras. rewrite Hms. simpl.
    rewrite insert_app_l by (by rewrite length_fmap).
    by rewrite list_fmap_insert, length_insert.
  - rewrite phrases_size_cons.
    rewrite insert_app_r_alt by (rewrite length_encode_phrase; lia).
    rewrite length_encode_phrase.
    replace (phrase_size a + phrases_size (take j aps) + k - phrase_size a)
      with (phrases_size (take j aps) + k) by lia.
    by rewrite (IH _ j Hj).
Qed.

Lemma phrases_size_take_lt aps j ap off :
  aps !! j = Some ap → off < phrase_size ap →
  phrases_size (take j aps) + off < phrases_size aps.
Proof.
  intros Hj Hoff. rewrite <- (take_drop_middle aps j ap Hj) at 2.
  rewrite phrases_size_app, phrases_size_cons. lia.
Qed.

Section encoded.
(** A store [h] followed by the layout of a query [q] with accent
    phrases [aps]. *)
Context (h : list obj) (q : AudioQuery) (aps : list AccentPhrase).
Context (Haps : aq_accent_phrases q = Some aps).
Let b := length h.

Lemma heap_phrase_lookup j ap off :
  aps !! j = Some ap → off < phrase_size ap →
  (h ++ encode_query b q) !! (phrase_base b aps j + off) =
  encode_phrase (phrase_base b aps j) ap !! off.
Proof using Haps.
  intros Hj Hoff. unfold encode_query. rewrite Haps.
  pose proof (phrases_size_take_lt _ _ _ _ Hj Hoff).
  unfold phrase_base at 1. rewrite lookup_app_r by (subst b; lia).
  rewrite lookup_app_l by (rewrite length_encode_phrases; subst b; lia).
  replace (b + phrases_size (take j aps) + off - length h)
    with (phrases_size (take j aps) + off) by (subst b; lia).
  by apply encode_phrases_lookup.
Qed.

Lemma heap_root_lookup :
  (h ++ encode_query b q) !! query_root b q =
  Some (OAudioQuery (Some (b + phrases_size aps)) (aq_other q)).
Proof using Haps.
  unfold encode_query, query_root, query_size. rewrite Haps.
  rewrite lookup_app_r by (subst b; lia).
  rewrite lookup_app_r by (rewrite length_encode_phrases; subst b; lia).
  rewrite length_encode_phrases.
  by replace (b + (phrases_size aps + 2) - 1 - length h - phrases_size aps)
    with 1 by (subst b; lia).
Qed.

Lemma heap_phrase_list_lookup :
  (h ++ encode_query b q) !! (b + phrases_size aps) =
  Some (OList (phrase_roots b aps)).
Proof using Haps.
  unfold encode_query. rewrite Haps.
  rewrite lookup_app_r by (subst b; lia).
  rewrite lookup_app_r by (rewrite length_encode_phrases; subst b; lia).
  rewrite length_encode_phrases.
  by replace (b + phrases_size aps - length h - phrases_size aps)
    with 0 by (subst b; lia).
Qed.

Lemma dict_get_accent_phrases_run :
  dict_get_accent_phrases (query_root b q) (h ++ encode_query b q) =
  (h ++ encode_query b q, Ok (phrase_roots b aps)).
Proof using Haps.
  unfold dict_get_accent_phrases.
  rewrite (bind_ok _ _ _ _ _ (load_run _ _ _ heap_root_lookup)).
  apply load_list_run, heap_phrase_list_lookup.
Qed.

Lemma dict_get_moras_run j ap :
  aps !! j = Some ap →
  dict_get_moras (phrase_root (phrase_base b aps j) ap)
    (h ++ encode_query b q) =
  (h ++ encode_query b q,
   Ok (seq (phrase_base b aps j) (length (get_moras ap)))).
Proof using Haps.
  intros Hj. unfold dict_get_moras, phrase_root, get_moras.
  pose proof (phrase_size_pos ap).
  replace (phrase_base b aps j + phrase_size ap - 1)
    with (phrase_base b aps j + (phrase_size ap - 1)) by lia.
  pose proof (heap_phrase_lookup j ap (phrase_size ap - 1) Hj ltac:(lia))
    as Hroot.
  unfold encode_phrase, phrase_size in *.
  destruct (ap_moras ap) as [ms|] eqn:Hms.
  - rewrite (lookup_app_r (OMora <$> ms)) in Hroot
      by (rewrite length_fmap; lia).
    rewrite length_fmap in Hroot.
    replace (length ms + 2 - 1 - length ms) with 1 in Hroot by lia.
    rewrite (bind_ok _ _ _ _ _ (load_run _ _ _ Hroot)).
    apply load_list_run.
    pose proof (heap_phrase_lookup j ap (length ms) Hj) as Hlist.
    unfold encode_phrase, phrase_size in Hlist. rewrite Hms in Hlist.
    rewrite Hlist by lia.
    rewrite (lookup_app_r (OMora <$> ms)) by (by rewrite length_fmap).
    by rewrite length_fmap, Nat.sub_diag.
  - by rewrite (bind_ok _ _ _ _ _ (load_run _ _ _ Hroot)).
Qed.

Lemma setitem_mora_run j ap ms k m set :
  aps !! j = Some ap → ap_moras ap = Some ms → ms !! k = Some m →
  setitem_mora (phrase_base b aps j + k) set (h ++ encode_query b q) =
  (h ++ encode_query b
          (with_accent_phrases q
             (<[j := with_moras ap (<[k := set m]> ms)]> aps)),
   Ok ()).
Proof using Haps.
  intros Hj Hms Hk. pose proof (lookup_lt_Some _ _ _ Hk) as Hlt.
  assert (k < phrase_size ap) as Hoff
    by (unfold phrase_size; rewrite Hms; lia).
  pose proof (heap_phrase_lookup j ap k Hj Hoff) as Hcell.
  unfold encode_phrase in Hcell. rewrite Hms in Hcell.
  rewrite (lookup_app_l (OMora <$> ms)) in Hcell by (by rewrite length_fmap).
  rewrite list_lookup_fmap, Hk in Hcell. simpl in Hcell.
  unfold setitem_mora.
  rewrite (bind_ok _ _ _ _ _ (load_mora_run _ _ _ Hcell)).
  unfold store. f_equal.
  assert (phrase_size (with_moras ap (<[k := set m]> ms)) = phrase_size ap)
    as Hs by (apply (with_moras_size _ ms); [done|by rewrite length_insert]).
  unfold encode_query, with_accent_phrases. rewrite Haps. simpl.
  rewrite (phrase_roots_insert _ _ _ ap), (phrases_size_insert _ _ ap)
    by done.
  pose proof (phrases_size_take_lt _ _ _ _ Hj Hoff).
  unfold phrase_base. rewrite insert_app_r_alt by (subst b; lia).
  f_equal.
  rewrite insert_app_l by (rewrite length_encode_phrases; subst b; lia).
  f_equal.
  replace (b + phrases_size (take j aps) + k - length h)
    with (phrases_size (take j aps) + k) by (subst b; lia).
  by apply encode_phrases_insert.
Qed.
End encoded.

Lemma py_index_lt n i k : py_index n i = Some k → k < n.
Proof. unfold py_index. repeat case_decide; intros [= <-]; lia. Qed.

Lemma py_index_nonneg n i :
  (0 ≤ i < Z.of_nat n)%Z → py_index n i = Some (Z.to_nat i).
Proof. intros ?. unfold py_index. by rewrite !decide_True by lia. Qed.

Lemma py_getitem_run {A} (l : list A) i k x (h : list obj) :
  py_index (length l) i = Some k → l !! k = Some x →
  py_getitem l i h = (h, Ok x).
Proof. unfold py_getitem. by intros -> ->. Qed.

Lemma py_getitem_raise {A} (l : list A) i (h : list obj) :
  py_index (length l) i = None → py_getitem l i h = (h, Raise IndexError).
Proof. unfold py_getitem. by intros ->. Qed.

Lemma with_moras_id ap ms : ap_moras ap = Some ms → with_moras ap ms = ap.
Proof. destruct ap. unfold with_moras. simpl. by intros ->. Qed.

Lemma with_moras_None ap ms : ap_moras ap = None → with_moras ap ms = ap.
Proof. destruct ap. unfold with_moras. simpl. by intros ->. Qed.

Lemma with_moras_twice ap ms ms' :
  with_moras (with_moras ap ms) ms' = with_moras ap ms'.
Proof. unfold with_moras. simpl. by destruct (ap_moras ap). Qed.

Lemma with_accent_phrases_id q aps :
  aq_accent_phrases q = Some aps → with_accent_phrases q aps = q.
Proof. destruct q. unfold with_accent_phrases. simpl. by intros ->. Qed.

Lemma with_accent_phrases_twice q aps aps' :
  with_accent_phrases (with_accent_phrases q aps) aps' =
  with_accent_phrases q aps'.
Proof. unfold with_accent_phrases. simpl. by destruct (aq_accent_phrases q). Qed.

Lemma alter_insert {A} (f : A → A) (l : list A) k x :
  l !! k = Some x → alter f k l = <[k := f x]> l.
Proof.
  revert k; induction l as [|y l IH]; intros [|k] Hk; simplify_eq/=;
    f_equal; auto.
Qed.

Section overlay_one_phrase.
(** The copy of [q] laid out behind [h], with the units of accent phrase
    [j] replaced by [ms]. *)
Context (h : list obj) (q : AudioQuery) (aps : list AccentPhrase).
Context (j : nat) (ap : AccentPhrase) (ms0 : list Mora).
Context (Haps : aq_accent_phrases q = Some aps).
Context (Hj : aps !! j = Some ap) (Hms0 : ap_moras ap = Some ms0).
Let b := length h.
Let Q (ms : list Mora) : AudioQuery :=
  with_accent_phrases q (<[j := with_moras ap ms]> aps).

Lemma overlay_start : Q ms0 = q.
Proof using Haps Hj Hms0.
  subst Q. simpl. rewrite with_moras_id by done.
  rewrite list_insert_id by done. by apply with_accent_phrases_id.
Qed.

Lemma write_range_run set s vs : ∀ i ms,
  length ms = length ms0 → (0 ≤ s)%Z →
  Z.to_nat s + i + length vs ≤ length ms0 →
  write_range set (seq (phrase_base b aps j) (length ms0)) s i vs
    (h ++ encode_query b (Q ms)) =
  (h ++ encode_query b (Q (overlay_units set ms (Z.to_nat s + i) vs)),
   Ok ()).
Proof using Haps Hj Hms0.
  induction vs as [|v vs IH]; intros i ms Hlen Hs Hfit; simpl in *; [done|].
  set (k := Z.to_nat s + i).
  assert (k < length ms) as Hk by lia.
  destruct (lookup_lt_is_Some_2 ms k Hk) as [m Hm].
  assert (py_getitem (seq (phrase_base b aps j) (length ms0))
            (s + Z.of_nat i) (h ++ encode_query b (Q ms)) =
          (h ++ encode_query b (Q ms), Ok (phrase_base b aps j + k)))
    as Hget.
  { apply (py_getitem_run _ _ k).
    - rewrite length_seq, py_index_nonneg by lia. f_equal. lia.
    - apply lookup_seq_lt. lia. }
  rewrite (bind_ok _ _ _ _ _ Hget).
  assert (j < length aps) as Hjlt by (by eapply lookup_lt_Some).
  assert (phrase_size (with_moras ap ms) = phrase_size ap) as Hsize
    by (by apply (with_moras_size _ ms0)).
  pose proof (setitem_mora_run h (Q ms) (<[j := with_moras ap ms]> aps)
    ltac:(subst Q; unfold with_accent_phrases; simpl; by rewrite Haps)
    j (with_moras ap ms) ms k m (set v)
    ltac:(by rewrite list_lookup_insert_eq)
    ltac:(unfold with_moras; simpl; by rewrite Hms0) Hm) as Hset.
  rewrite (phrase_base_insert _ _ _ ap) in Hset by done.
  rewrite (bind_ok _ _ _ _ _ Hset).
  rewrite list_insert_insert_eq, with_moras_twice in *.
  subst Q. cbn beta. rewrite with_accent_phrases_twice.
  rewrite (IH (S i) (<[k := set v m]> ms)); [|by rewrite length_insert|done|lia].
  rewrite (alter_insert _ _ _ _ Hm).
  by replace (Z.to_nat s + S i) with (S k) by lia.
Qed.

Lemma apply_range_run set values s t ms :
  length ms = length ms0 → (0 ≤ s)%Z → (t ≤ Z.of_nat (length ms0))%Z →
  apply_range set values (seq (phrase_base b aps j) (length ms0)) s (t - s)
    (h ++ encode_query b (Q ms)) =
  if decide (mismatch values (t - s))
  then (h ++ encode_query b (Q ms), Raise (ValueError MoraCountMismatch))
  else (h ++ encode_query b
               (Q (overlay_dimension set values (Z.to_nat s) ms)), Ok ()).
Proof using Haps Hj Hms0.
  intros Hlen Hs Ht. unfold apply_range, overlay_dimension.
  destruct values as [[|v vs]|]; try done.
  destruct (decide (mismatch (Some (v :: vs)) (t - s))) as [Hmis|Hmis];
    simpl in Hmis.
  { by rewrite decide_True by done. }
  rewrite decide_False by done.
  rewrite write_range_run; [|done|done|simpl in *; lia].
  by rewrite Nat.add_0_r.
Qed.
End overlay_one_phrase.

Lemma length_overlay_units set ms k vs :
  length (overlay_units set ms k vs) = length ms.
Proof.
  revert ms k; induction vs as [|v vs IH]; intros ms k; simpl; [done|].
  by rewrite IH, length_alter.
Qed.

Lemma length_overlay_dimension set values k ms :
  length (overlay_dimension set values k ms) = length ms.
Proof. apply length_overlay_units. Qed.

Lemma dict_get_accent_phrases_none (h : list obj) q :
  aq_accent_phrases q = None →
  dict_get_accent_phrases (query_root (length h) q)
    (h ++ encode_query (length h) q) =
  (h ++ encode_query (length h) q, Ok []).
Proof.
  intros Hq. unfold dict_get_accent_phrases, query_root, query_size,
    encode_query. rewrite Hq.
  replace (length h + 1 - 1) with (length h) by lia.
  by rewrite (bind_ok _ _ _ _ _ (load_run _ _ _ (list_lookup_middle _ _ _ _ eq_refl))).
Qed.

Lemma apply_range_nil set values s target (h : list obj) :
  (target ≤ 0)%Z →
  apply_range set values [] s target h =
  if decide (mismatch values target)
  then (h, Raise (ValueError MoraCountMismatch))
  else (h, Ok ()).
Proof.
  intros Ht. unfold apply_range. destruct values as [[|v vs]|]; try done.
  simpl mismatch. rewrite !decide_True; [done| |]; simpl; lia.
Qed.

Lemma query_root_insert b q aps j ap ms ms' :
  aq_accent_phrases q = Some aps → aps !! j = Some ap →
  ap_moras ap = Some ms → length ms' = length ms →
  query_root b (with_accent_phrases q (<[j := with_moras ap ms']> aps)) =
  query_root b q.
Proof.
  intros Haps Hj Hms Hlen.
  unfold query_root, query_size, with_accent_phrases. rewrite Haps. simpl.
  rewrite (phrases_size_insert _ _ ap); [done|done|].
  by apply (with_moras_size _ ms).
Qed.

(** Case analysis on a test that the code and its value-level description
    both make. *)
Ltac split_decide H :=
  match goal with
  | |- context [decide ?P] =>
      destruct (decide P) as [H|H];
      rewrite ?decide_True, ?decide_False by (simpl in *; (done || lia))
  end.

(** [apply_partial_match] on a store in which [l] denotes the query [q]:
    the store grows by a copy [qc] of the query, nothing else changes, and
    the outcome is the one computed on [q]; on success the copy is the
    returned query. *)
Lemma apply_partial_match_run h l q e idx s t :
  read_query h l = Some q →
  ∃ qc, apply_partial_match l e idx s t h =
        (h ++ encode_query (length h) qc,
         match partial_match_result q e idx s t with
         | Ok q' => Ok (query_root (length h) q')
         | Raise ex => Raise ex
         end) ∧
        (∀ q', partial_match_result q e idx s t = Ok q' → qc = q').
Proof.
  intros Hq. unfold apply_partial_match, partial_match_result.
  rewrite (bind_ok _ _ _ _ _ (deep_copy_query_run h h l q Hq (reflexivity _))).
  unfold get_accent_phrases.
  destruct (aq_accent_phrases q) as [aps|] eqn:Haps; simpl default.
  2: { rewrite (bind_ok _ _ _ _ _ (dict_get_accent_phrases_none h q Haps)).
       simpl length. split_decide Hidx; [by exists q|].
       assert (py_index 0 idx = None) as Hpy
         by (unfold py_index; rewrite !decide_False; [done|simpl in *; lia..]).
       rewrite (bind_raise _ _ _ _ _ (py_getitem_raise [] idx _ Hpy)).
       rewrite Hpy. by exists q. }
  rewrite (bind_ok _ _ _ _ _ (dict_get_accent_phrases_run h q aps Haps)).
  rewrite length_phrase_roots.
  split_decide Hidx; [by exists q|].
  destruct (py_index (length aps) idx) as [j|] eqn:Hpy.
  2: { rewrite (bind_raise _ _ _ _ _
                  (py_getitem_raise (phrase_roots (length h) aps) idx _
                     ltac:(by rewrite length_phrase_roots))).
       by exists q. }
  destruct (lookup_lt_is_Some_2 aps j (py_index_lt _ _ _ Hpy)) as [ap Hj].
  rewrite Hj.
  rewrite (bind_ok _ _ _ _ _
    (py_getitem_run (phrase_roots (length h) aps) idx j _ _
       ltac:(by rewrite length_phrase_roots)
       (phrase_roots_lookup _ _ _ _ Hj))).
  rewrite (bind_ok _ _ _ _ _ (dict_get_moras_run h q aps Haps j ap Hj)).
  rewrite length_seq.
  split_decide Hrange; [by exists q|].
  assert (0 ≤ s)%Z as Hs by lia.
  assert (t ≤ Z.of_nat (length (get_moras ap)))%Z as Ht by lia.
  unfold get_moras in *.
  destruct (ap_moras ap) as [ms0|] eqn:Hms0; simpl default in *.
  - (* the phrase has a mora list *)
    pose proof (apply_range_run h q aps j ap ms0 Haps Hj Hms0 set_pitch
                  (pitch_values e) s t ms0 eq_refl Hs Ht) as Hp.
    cbv beta zeta in Hp.
    rewrite (overlay_start q aps j ap ms0 Haps Hj Hms0) in Hp.
    destruct (decide (mismatch (pitch_values e) (t - s))) as [Hm1|Hm1].
    { rewrite (bind_raise _ _ _ _ _ Hp). by exists q. }
    rewrite (bind_ok _ _ _ _ _ Hp).
    set (ms1 := overlay_dimension set_pitch (pitch_values e) (Z.to_nat s) ms0)
      in *.
    pose proof (apply_range_run h q aps j ap ms0 Haps Hj Hms0 set_vowel_length
                  (length_values e) s t ms1
                  (length_overlay_dimension _ _ _ _) Hs Ht) as Hl.
    cbv beta zeta in Hl.
    destruct (decide (mismatch (length_values e) (t - s))) as [Hm2|Hm2].
    { rewrite (bind_raise _ _ _ _ _ Hl). by eexists. }
    rewrite (bind_ok _ _ _ _ _ Hl).
    eexists. split; [|by intros ? [= <-]].
    unfold mret, M_ret. do 2 f_equal.
    symmetry. apply (query_root_insert _ _ _ _ _ ms0); try done.
    subst ms1. by rewrite !length_overlay_dimension.
  - (* the phrase has no "moras" key *)
    assert (t - s ≤ 0)%Z as Hts by (simpl in *; lia).
    pose proof (apply_range_nil set_pitch (pitch_values e) s (t - s)
                  (h ++ encode_query (length h) q) Hts) as Hp.
    pose proof (apply_range_nil set_vowel_length (length_values e) s (t - s)
                  (h ++ encode_query (length h) q) Hts) as Hl.
    simpl seq.
    destruct (decide (mismatch (pitch_values e) (t - s))) as [Hm1|Hm1].
    { rewrite (bind_raise _ _ _ _ _ Hp). by exists q. }
    rewrite (bind_ok _ _ _ _ _ Hp).
    destruct (decide (mismatch (length_values e) (t - s))) as [Hm2|Hm2].
    { rewrite (bind_raise _ _ _ _ _ Hl). by exists q. }
    rewrite (bind_ok _ _ _ _ _ Hl).
    rewrite with_moras_None, list_insert_id, with_accent_phrases_id by done.
    exists q. split; [done|]. by intros ? [= <-].
Qed.

(** *** Reading is stable when the store grows *)

Lemma mapM_impl {A B} (f g : A → option B) ls bs :
  (∀ l b, f l = Some b → g l = Some b) →
  mapM f ls = Some bs → mapM g ls = Some bs.
Proof.
  intros Hfg Hf%mapM_Some. apply mapM_Some.
  eapply Forall2_impl; [done|]. by intros ???%Hfg.
Qed.

Lemma read_mora_prefix h h' l m :
  h `prefix_of` h' → read_mora h l = Some m → read_mora h' l = Some m.
Proof.
  intros Hp Hm%read_mora_Some. apply read_mora_Some.
  by eapply prefix_lookup_Some.
Qed.

Lemma read_accent_phrase_prefix h h' l ap :
  h `prefix_of` h' →
  read_accent_phrase h l = Some ap → read_accent_phrase h' l = Some ap.
Proof.
  intros Hp (ml & Hl & Hms)%read_accent_phrase_Some.
  apply read_accent_phrase_Some. exists ml.
  split; [by eapply prefix_lookup_Some|].
  destruct ml as [ml|]; [|done]. simpl in *.
  destruct (read_list (read_mora h) h ml) as [ms|] eqn:E; [|done].
  injection Hms as <-. unfold read_list in *.
  destruct (h !! ml) as [[|ls| |]|] eqn:Hml; try done.
  rewrite (prefix_lookup_Some _ _ _ _ Hml Hp).
  erewrite mapM_impl; [done| |done]. intros. by eapply read_mora_prefix.
Qed.

Lemma read_query_prefix h h' l q :
  h `prefix_of` h' → read_query h l = Some q → read_query h' l = Some q.
Proof.
  intros Hp (pl & Hl & Haps)%read_query_Some.
  apply read_query_Some. exists pl.
  split; [by eapply prefix_lookup_Some|].
  destruct pl as [pl|]; [|done]. simpl in *.
  destruct (read_list (read_accent_phrase h) h pl) as [aps|] eqn:E; [|done].
  injection Haps as <-. unfold read_list in *.
  destruct (h !! pl) as [[|ls| |]|] eqn:Hpl; try done.
  rewrite (prefix_lookup_Some _ _ _ _ Hpl Hp).
  erewrite mapM_impl; [done| |done].
  intros. by eapply read_accent_phrase_prefix.
Qed.

(** A query laid out behind [h] does not depend on the cells of [h], and a
    query read from [h] does not depend on the cells behind it. *)
Lemma read_query_encoded_insert_old (h : list obj) q a o :
  a < length h →
  read_query (<[a := o]> (h ++ encode_query (length h) q))
    (query_root (length h) q) = Some q.
Proof.
  intros Ha. rewrite insert_app_l by done.
  pose proof (read_query_encoded (<[a := o]> h) [] q) as H.
  by rewrite length_insert, app_nil_r in H.
Qed.

Lemma read_query_insert_new (h ext : list obj) l q a o :
  read_query h l = Some q → length h ≤ a →
  read_query (<[a := o]> (h ++ ext)) l = Some q.
Proof.
  intros Hq Ha. rewrite insert_app_r_alt by done.
  eapply read_query_prefix; [|done]. by apply prefix_app_r.
Qed.

Lemma query_root_fresh b q : b ≤ query_root b q.
Proof.
  unfold query_root, query_size. destruct (aq_accent_phrases q); lia.
Qed.

(** What a call of [apply_partial_match] does to the store and what it
    returns, in terms of the query the argument denotes. *)
Lemma apply_partial_match_spec h l q e idx s t :
  read_query h l = Some q →
  ∃ ext, (apply_partial_match l e idx s t h).1 = h ++ ext ∧
    match partial_match_result q e idx s t with
    | Ok q' =>
        ext = encode_query (length h) q' ∧
        (apply_partial_match l e idx s t h).2 = Ok (query_root (length h) q')
    | Raise ex => (apply_partial_match l e idx s t h).2 = Raise ex
    end.
Proof.
  intros Hq.
  destruct (apply_partial_match_run h l q e idx s t Hq) as (qc & -> & Hqc).
  eexists. split; [done|]. simpl.
  destruct (partial_match_result q e idx s t) as [q'|ex]; [|done].
  by rewrite (Hqc q' eq_refl).
Qed.

(* ================================================================== *)
(** * Proofs: the whole-query operations *)
(* ================================================================== *)

Lemma total_moras_cons ap aps :
  total_moras (ap :: aps) = length (get_moras ap) + total_moras aps.
Proof. unfold total_moras. simpl. by rewrite length_app. Qed.

Lemma total_moras_app aps1 aps2 :
  total_moras (aps1 ++ aps2) = total_moras aps1 + total_moras aps2.
Proof.
  unfold total_moras. by rewrite fmap_app, concat_app, length_app.
Qed.

Lemma units_before_S aps j ap :
  aps !! j = Some ap →
  units_before aps (S j) = units_before aps j + length (get_moras ap).
Proof.
  intros Hj. unfold units_before.
  rewrite (take_S_r _ _ _ Hj), total_moras_app, total_moras_cons.
  change (total_moras []) with 0. lia.
Qed.

Lemma units_before_all aps j :
  length aps ≤ j → units_before aps j = total_moras aps.
Proof. intros H. unfold units_before. by rewrite take_ge. Qed.

Lemma total_moras_insert aps j ap ap' :
  aps !! j = Some ap → length (get_moras ap') = length (get_moras ap) →
  total_moras (<[j := ap']> aps) = total_moras aps.
Proof.
  revert j; induction aps as [|a aps IH]; intros [|j] Hj Hs; simpl in *;
    try done.
  - injection Hj as ->. by rewrite !total_moras_cons, Hs.
  - by rewrite !total_moras_cons, (IH j).
Qed.

Lemma units_before_insert aps j ap ap' i :
  aps !! j = Some ap → length (get_moras ap') = length (get_moras ap) →
  units_before (<[j := ap']> aps) i = units_before aps i.
Proof.
  intros Hj Hs. unfold units_before.
  destruct (decide (j < i)).
  - rewrite take_insert_lt by done.
    apply (total_moras_insert _ _ ap); [|done].
    by rewrite lookup_take_lt.
  - by rewrite take_insert_ge by lia.
Qed.

Lemma get_moras_with_moras ap ms0 ms :
  ap_moras ap = Some ms0 → get_moras (with_moras ap ms) = ms.
Proof. unfold get_moras, with_moras. simpl. by intros ->. Qed.

Lemma upd_from_lookup f k ms i :
  upd_from f k ms !! i =
  (λ m, if decide (k ≤ i) then f i m else m) <$> ms !! i.
Proof. unfold upd_from. by rewrite list_lookup_imap. Qed.

Lemma length_upd_from f k ms : length (upd_from f k ms) = length ms.
Proof. unfold upd_from. by rewrite length_imap. Qed.

Lemma upd_from_step f k ms :
  upd_from f k ms = upd_from f (S k) (alter (f k) k ms).
Proof.
  apply list_eq. intros i. rewrite !upd_from_lookup, list_lookup_alter.
  destruct (decide (k = i)) as [->|Hne].
  - destruct (ms !! i); simpl; [|done].
    by rewrite decide_True, decide_False by lia.
  - destruct (ms !! i); simpl; [|done].
    destruct (decide (k ≤ i)); [by rewrite decide_True by lia|].
    by rewrite decide_False by lia.
Qed.

Lemma upd_from_ge f k ms : length ms ≤ k → upd_from f k ms = ms.
Proof.
  intros Hk. apply list_eq. intros i. rewrite upd_from_lookup.
  destruct (ms !! i) eqn:E; simpl; [|done].
  apply lookup_lt_Some in E. by rewrite decide_False by lia.
Qed.

Lemma alter_id_at {A} (f : A → A) (l : list A) k :
  (∀ x, l !! k = Some x → f x = x) → alter f k l = l.
Proof.
  intros Hf. apply list_eq. intros i. rewrite list_lookup_alter.
  case_decide as E; [subst i|done].
  destruct (l !! k) eqn:El; simpl; [|done]. by rewrite Hf.
Qed.

Section overlay_all_units.
Context (h : list obj) (q : AudioQuery) (aps : list AccentPhrase).
Context (j : nat) (ap : AccentPhrase) (ms0 : list Mora).
Context (Haps : aq_accent_phrases q = Some aps).
Context (Hj : aps !! j = Some ap) (Hms0 : ap_moras ap = Some ms0).
Context (set : pyfloat → Mora → Mora) (vs : list pyfloat) (start : Z).
Context (first : nat).
Let b := length h.
Let k0 := Z.to_nat start.
Let Q (ms : list Mora) : AudioQuery :=
  with_accent_phrases q (<[j := with_moras ap ms]> aps).
Let f (i : nat) : Mora → Mora := overlay_unit set vs k0 (first + i).

Lemma write_moras_run : ∀ n k ms,
  k + n = length ms0 → length ms = length ms0 →
  write_moras set (seq (phrase_base b aps j + k) n) vs start (first + k)
    (min (first + k - k0) (length vs)) (h ++ encode_query b (Q ms)) =
  (h ++ encode_query b (Q (upd_from f k ms)),
   Ok (first + k + n, min (first + k + n - k0) (length vs))).
Proof using Haps Hj Hms0.
  induction n as [|n IH]; intros k ms Hk Hlen; simpl.
  { rewrite upd_from_ge by lia. unfold mret, M_ret.
    by rewrite Nat.add_0_r. }
  assert (k < length ms) as Hklt by lia.
  destruct (lookup_lt_is_Some_2 ms k Hklt) as [m Hm].
  rewrite upd_from_step.
  assert (j < length aps) as Hjlt by (by eapply lookup_lt_Some).
  assert (phrase_size (with_moras ap ms) = phrase_size ap) as Hsize
    by (by apply (with_moras_size _ ms0)).
  case_decide as Hw.
  - (* the unit takes a value *)
    destruct Hw as [Hstart Hvi].
    assert (min (first + k - k0) (length vs) = first + k - k0) as Hmin
      by lia.
    rewrite Hmin in *.
    destruct (lookup_lt_is_Some_2 vs _ Hvi) as [v Hv].
    assert (py_getitem vs (Z.of_nat (first + k - k0))
              (h ++ encode_query b (Q ms)) =
            (h ++ encode_query b (Q ms), Ok v)) as Hget.
    { apply (py_getitem_run _ _ (first + k - k0)); [|done].
      rewrite py_index_nonneg by lia. f_equal. lia. }
    pose proof (setitem_mora_run h (Q ms) (<[j := with_moras ap ms]> aps)
      ltac:(subst Q; unfold with_accent_phrases; simpl; by rewrite Haps)
      j (with_moras ap ms) ms k m (set v)
      ltac:(by rewrite list_lookup_insert_eq)
      ltac:(unfold with_moras; simpl; by rewrite Hms0) Hm) as Hset.
    rewrite (phrase_base_insert _ _ _ ap) in Hset by done.
    unfold mbind at 1, M_bind at 1.
    rewrite (bind_ok _ _ _ _ _ Hget), (bind_ok _ _ _ _ _ Hset).
    unfold mret at 1, M_ret at 1.
    rewrite list_insert_insert_eq, with_moras_twice.
    subst Q. cbn beta. rewrite with_accent_phrases_twice.
    pose proof (IH (S k) (<[k := set v m]> ms) ltac:(lia)
                  ltac:(by rewrite length_insert)) as IH'.
    replace (phrase_base b aps j + S k) with (S (phrase_base b aps j + k))
      in IH' by lia.
    replace (first + S k) with (S (first + k)) in IH' by lia.
    replace (min (S (first + k) - k0) (length vs))
      with (S (first + k - k0)) in IH' by lia.
    change (length h) with b.
    rewrite IH'.
    assert (alter (f k) k ms = <[k := set v m]> ms) as ->.
    { rewrite (alter_insert _ _ _ _ Hm). f_equal. subst f. cbn beta.
      unfold overlay_unit. rewrite decide_True by lia. by rewrite Hv. }
    do 3 f_equal; lia.
  - (* the unit is left alone *)
    unfold mret at 1, M_ret at 1.
    assert (alter (f k) k ms = ms) as ->.
    { apply alter_id_at. intros m' _. subst f. cbn beta.
      unfold overlay_unit. case_decide as Hk0; [|done].
      destruct (vs !! (first + k - k0)) as [v|] eqn:Hv; [|done].
      apply lookup_lt_Some in Hv. lia. }
    pose proof (IH (S k) ms ltac:(lia) Hlen) as IH'.
    replace (phrase_base b aps j + S k) with (S (phrase_base b aps j + k))
      in IH' by lia.
    replace (first + S k) with (S (first + k)) in IH' by lia.
    replace (min (S (first + k) - k0) (length vs))
      with (min (first + k - k0) (length vs)) in IH' by lia.
    unfold mbind at 1, M_bind at 1.
    rewrite IH'. do 3 f_equal; lia.
Qed.
End overlay_all_units.

Lemma phrases_from_lookup set vs k0 j aps i :
  phrases_from set vs k0 j aps !! i =
  (λ ap, if decide (j ≤ i)
         then overlay_phrase set vs k0 (units_before aps i) ap else ap)
    <$> aps !! i.
Proof. unfold phrases_from. by rewrite list_lookup_imap. Qed.

Lemma phrases_from_ge set vs k0 j aps :
  length aps ≤ j → phrases_from set vs k0 j aps = aps.
Proof.
  intros Hj. apply list_eq. intros i. rewrite phrases_from_lookup.
  destruct (aps !! i) eqn:E; simpl; [|done].
  apply lookup_lt_Some in E. by rewrite decide_False by lia.
Qed.

Lemma phrases_from_step set vs k0 j aps ap ms0 :
  aps !! j = Some ap → ap_moras ap = Some ms0 →
  phrases_from set vs k0 j aps =
  phrases_from set vs k0 (S j)
    (<[j := with_moras ap
              (upd_from (λ i, overlay_unit set vs k0 (units_before aps j + i))
                 0 ms0)]> aps).
Proof.
  intros Hj Hms0. apply list_eq. intros i. rewrite !phrases_from_lookup.
  set (ap' := with_moras ap _).
  assert (length (get_moras ap') = length (get_moras ap)) as Hlen.
  { subst ap'. rewrite (get_moras_with_moras _ ms0) by done.
    unfold get_moras. rewrite Hms0. simpl. by rewrite length_upd_from. }
  rewrite (units_before_insert _ _ ap) by done.
  destruct (decide (j = i)) as [->|Hne].
  - rewrite list_lookup_insert_eq by (by eapply lookup_lt_Some).
    rewrite Hj. simpl. rewrite decide_True, decide_False by lia.
    f_equal. subst ap'. unfold overlay_phrase, get_moras. rewrite Hms0.
    simpl. reflexivity.
  - rewrite list_lookup_insert_ne by done.
    destruct (aps !! i); simpl; [|done].
    destruct (decide (j ≤ i)); [by rewrite decide_True by lia|].
    by rewrite decide_False by lia.
Qed.

Lemma phrases_from_step_None set vs k0 j aps ap :
  aps !! j = Some ap → ap_moras ap = None →
  phrases_from set vs k0 j aps = phrases_from set vs k0 (S j) aps.
Proof.
  intros Hj Hms. apply list_eq. intros i. rewrite !phrases_from_lookup.
  destruct (decide (j = i)) as [->|Hne].
  - rewrite Hj. cbn [fmap option_fmap option_map].
    rewrite decide_True, decide_False by lia.
    f_equal. unfold overlay_phrase. by apply with_moras_None.
  - destruct (aps !! i); simpl; [|done].
    destruct (decide (j ≤ i)); [by rewrite decide_True by lia|].
    by rewrite decide_False by lia.
Qed.

Lemma write_phrases_run set vs start (h : list obj) : ∀ n j q aps,
  aq_accent_phrases q = Some aps → j + n = length aps →
  write_phrases set (drop j (phrase_roots (length h) aps)) vs start
    (units_before aps j)
    (min (units_before aps j - Z.to_nat start) (length vs))
    (h ++ encode_query (length h) q) =
  (h ++ encode_query (length h)
          (with_accent_phrases q
             (phrases_from set vs (Z.to_nat start) j aps)),
   Ok (total_moras aps,
       min (total_moras aps - Z.to_nat start) (length vs))).
Proof.
  induction n as [|n IH]; intros j q aps Haps Hj.
  { rewrite drop_ge by (rewrite length_phrase_roots; lia). simpl.
    rewrite phrases_from_ge, with_accent_phrases_id by (done || lia).
    by rewrite units_before_all by lia. }
  destruct (lookup_lt_is_Some_2 aps j ltac:(lia)) as [ap Hap].
  rewrite (drop_S _ _ _ (phrase_roots_lookup (length h) _ _ _ Hap)).
  cbn [write_phrases].
  rewrite (bind_ok _ _ _ _ _ (dict_get_moras_run h q aps Haps j ap Hap)).
  destruct (ap_moras ap) as [ms0|] eqn:Hms0.
  - pose proof (write_moras_run h q aps j ap ms0 Haps Hap Hms0 set vs start
                  (units_before aps j) (length ms0) 0 ms0 ltac:(lia) eq_refl)
      as Hw.
    cbv beta zeta in Hw.
    rewrite (overlay_start q aps j ap ms0 Haps Hap Hms0) in Hw.
    rewrite !Nat.add_0_r in Hw.
    assert (length (get_moras ap) = length ms0) as Hn
      by (unfold get_moras; by rewrite Hms0).
    rewrite Hn, (bind_ok _ _ _ _ _ Hw). cbn beta iota.
    set (ap' := with_moras ap _).
    assert (length (get_moras ap') = length (get_moras ap)) as Hlen.
    { subst ap'. rewrite (get_moras_with_moras _ ms0) by done.
      by rewrite length_upd_from. }
    assert (phrase_size ap' = phrase_size ap) as Hsize.
    { apply (with_moras_size _ ms0); [done|]. by rewrite length_upd_from. }
    pose proof (IH (S j) (with_accent_phrases q (<[j := ap']> aps))
                  (<[j := ap']> aps)
                  ltac:(unfold with_accent_phrases; simpl; by rewrite Haps)
                  ltac:(rewrite length_insert; lia)) as IH'.
    rewrite (phrase_roots_insert _ _ _ ap), (units_before_insert _ _ ap),
      (total_moras_insert _ _ ap), with_accent_phrases_twice in IH' by done.
    rewrite (units_before_S _ _ _ Hap), Hn in IH'.
    rewrite IH'. subst ap'.
    by rewrite <- (phrases_from_step _ _ _ _ _ _ _ Hap Hms0).
  - assert (length (get_moras ap) = 0) as Hn
      by (unfold get_moras; by rewrite Hms0).
    rewrite Hn. simpl seq. cbn [write_moras].
    unfold mbind at 1, M_bind at 1, mret at 1, M_ret at 1.
    pose proof (IH (S j) q aps Haps ltac:(lia)) as IH'.
    rewrite (units_before_S _ _ _ Hap), Hn, Nat.add_0_r in IH'.
    rewrite IH'. by rewrite <- (phrases_from_step_None _ _ _ _ _ _ Hap Hms0).
Qed.

Lemma count_moras_run (h : list obj) q aps :
  aq_accent_phrases q = Some aps →
  ∀ n j total, j + n = length aps →
  count_moras (drop j (phrase_roots (length h) aps)) total
    (h ++ encode_query (length h) q) =
  (h ++ encode_query (length h) q, Ok (total + total_moras (drop j aps))).
Proof.
  intros Haps. induction n as [|n IH]; intros j total Hj.
  { rewrite !drop_ge by (rewrite ?length_phrase_roots; lia). simpl.
    change (total_moras []) with 0. by rewrite Nat.add_0_r. }
  destruct (lookup_lt_is_Some_2 aps j ltac:(lia)) as [ap Hap].
  rewrite (drop_S _ _ _ (phrase_roots_lookup (length h) _ _ _ Hap)).
  rewrite (drop_S _ _ _ Hap). cbn [count_moras].
  rewrite (bind_ok _ _ _ _ _ (dict_get_moras_run h q aps Haps j ap Hap)).
  rewrite length_seq, IH by lia. rewrite total_moras_cons.
  do 2 f_equal. lia.
Qed.

Lemma phrase_size_overlay_phrase set vs k0 first ap :
  phrase_size (overlay_phrase set vs k0 first ap) = phrase_size ap.
Proof.
  unfold overlay_phrase. destruct (ap_moras ap) as [ms|] eqn:Hms.
  - apply (with_moras_size _ ms); [done|].
    unfold get_moras. rewrite Hms. simpl. by rewrite length_imap.
  - by rewrite with_moras_None.
Qed.

Lemma phrases_size_imap (f : nat → AccentPhrase → AccentPhrase) aps :
  (∀ i ap, phrase_size (f i ap) = phrase_size ap) →
  phrases_size (imap f aps) = phrases_size aps.
Proof.
  revert f; induction aps as [|ap aps IH]; intros f Hf; [done|].
  rewrite imap_cons, !phrases_size_cons, Hf, IH; [done|].
  intros i ap'. apply Hf.
Qed.

Lemma with_accent_phrases_None q aps :
  aq_accent_phrases q = None → with_accent_phrases q aps = q.
Proof. destruct q. unfold with_accent_phrases. simpl. by intros ->. Qed.

Lemma query_root_overlay_query b set vs k0 q :
  query_root b (overlay_query set vs k0 q) = query_root b q.
Proof.
  unfold query_root, query_size, overlay_query, with_accent_phrases,
    get_accent_phrases.
  destruct (aq_accent_phrases q) as [aps|]; simpl; [|done].
  rewrite phrases_size_imap; [done|].
  intros. apply phrase_size_overlay_phrase.
Qed.

Lemma phrases_from_0 set vs k0 aps :
  phrases_from set vs k0 0 aps =
  imap (λ j ap, overlay_phrase set vs k0 (units_before aps j) ap) aps.
Proof.
  unfold phrases_from. apply imap_ext. intros i ap _.
  by rewrite decide_True by lia.
Qed.

(** [apply_pitch_values] / [apply_length_values] on a store in which [l]
    denotes the query [q]. *)
Lemma apply_values_run set h l q vs start :
  read_query h l = Some q →
  ∃ qc, apply_values set l vs start h =
        (h ++ encode_query (length h) qc,
         match apply_values_result set q vs start with
         | Ok q' => Ok (query_root (length h) q')
         | Raise ex => Raise ex
         end) ∧
        (∀ q', apply_values_result set q vs start = Ok q' → qc = q').
Proof.
  intros Hq. unfold apply_values, apply_values_result.
  pose proof (deep_copy_query_run h h l q Hq (reflexivity _)) as Hcopy.
  destruct vs as [|v vs].
  { exists q. split; [done|]. by intros ? [= <-]. }
  rewrite (bind_ok _ _ _ _ _ Hcopy).
  unfold get_accent_phrases.
  destruct (aq_accent_phrases q) as [aps|] eqn:Haps; simpl default.
  - pose proof (dict_get_accent_phrases_run h q aps Haps) as Hget.
    pose proof (count_moras_run h q aps Haps (length aps) 0 0 eq_refl) as Hc.
    rewrite !drop_0 in Hc. simpl in Hc.
    assert (_get_total_mora_count (query_root (length h) q)
              (h ++ encode_query (length h) q) =
            (h ++ encode_query (length h) q, Ok (total_moras aps))) as Htot.
    { unfold _get_total_mora_count. by rewrite (bind_ok _ _ _ _ _ Hget). }
    rewrite (bind_ok _ _ _ _ _ Htot).
    split_decide Hlen; [by exists q|].
    rewrite (bind_ok _ _ _ _ _ Hget).
    pose proof (write_phrases_run set (v :: vs) start h (length aps) 0 q aps
                  Haps eq_refl) as Hw.
    rewrite drop_0 in Hw.
    change (units_before aps 0) with 0 in Hw. simpl Nat.sub in Hw.
    simpl Nat.min in Hw.
    rewrite (bind_ok _ _ _ _ _ Hw).
    eexists. split; [|by intros ? [= <-]].
    unfold mret, M_ret. rewrite query_root_overlay_query.
    unfold overlay_query, get_accent_phrases. rewrite Haps. simpl default.
    by rewrite phrases_from_0.
  - pose proof (dict_get_accent_phrases_none h q Haps) as Hget.
    assert (_get_total_mora_count (query_root (length h) q)
              (h ++ encode_query (length h) q) =
            (h ++ encode_query (length h) q, Ok 0)) as Htot.
    { unfold _get_total_mora_count. by rewrite (bind_ok _ _ _ _ _ Hget). }
    rewrite (bind_ok _ _ _ _ _ Htot).
    change (total_moras []) with 0.
    split_decide Hlen; [by exists q|].
    rewrite (bind_ok _ _ _ _ _ Hget).
    assert (overlay_query set (v :: vs) (Z.to_nat start) q = q) as ->
      by (unfold overlay_query; by rewrite with_accent_phrases_None).
    exists q. split; [done|]. by intros ? [= <-].
Qed.

(* ================================================================== *)
(** * Proofs: what an overlay changes *)
(* ================================================================== *)

Lemma overlay_units_lookup set ms k vs i :
  overlay_units set ms k vs !! i = overlay_unit set vs k i <$> ms !! i.
Proof.
  revert ms k; induction vs as [|v vs IH]; intros ms k; simpl.
  - unfold overlay_unit. destruct (ms !! i); simpl; [|done].
    by case_decide.
  - rewrite IH, list_lookup_alter. unfold overlay_unit.
    destruct (decide (k = i)) as [->|Hne].
    + destruct (ms !! i); simpl; [|done].
      rewrite decide_False, decide_True by lia.
      by rewrite Nat.sub_diag.
    + destruct (ms !! i); simpl; [|done].
      destruct (decide (S k ≤ i)).
      * rewrite decide_True by lia.
        by replace (i - k) with (S (i - S k)) by lia.
      * by rewrite decide_False by lia.
Qed.


Lemma overlay_unit_set_pitch vs k0 g m :
  let m' := overlay_unit set_pitch vs k0 g m in
  mora_text m' = mora_text m ∧
  mora_vowel_length m' = mora_vowel_length m ∧
  mora_consonant_length m' = mora_consonant_length m ∧
  mora_other m' = mora_other m.
Proof.
  unfold overlay_unit. case_decide; [|done].
  by destruct (vs !! (g - k0)).
Qed.

Lemma overlay_unit_set_vowel_length vs k0 g m :
  let m' := overlay_unit set_vowel_length vs k0 g m in
  mora_text m' = mora_text m ∧
  mora_pitch m' = mora_pitch m ∧
  mora_consonant_length m' = mora_consonant_length m ∧
  mora_other m' = mora_other m.
Proof.
  unfold overlay_unit. case_decide; [|done].
  by destruct (vs !! (g - k0)).
Qed.

Lemma partial_match_result_Ok q e idx s t q' :
  partial_match_result q e idx s t = Ok q' →
  ∃ aps j ap,
    aq_accent_phrases q = Some aps ∧
    py_index (length aps) idx = Some j ∧ aps !! j = Some ap ∧
    (0 ≤ s)%Z ∧ (t ≤ Z.of_nat (length (get_moras ap)))%Z ∧
    ¬ mismatch (pitch_values e) (t - s) ∧
    ¬ mismatch (length_values e) (t - s) ∧
    q' = with_accent_phrases q
           (<[j := with_moras ap
                     (overlay_dimension set_vowel_length (length_values e)
                        (Z.to_nat s)
                        (overlay_dimension set_pitch (pitch_values e)
                           (Z.to_nat s) (get_moras ap)))]> aps).
Proof.
  unfold partial_match_result, get_accent_phrases.
  destruct (aq_accent_phrases q) as [aps|]; simpl default.
  2: { case_decide; [done|]. simpl length.
       unfold py_index. by rewrite !decide_False by (simpl in *; lia). }
  case_decide; [done|].
  destruct (py_index (length aps) idx) as [j|] eqn:Hpy; [|done].
  destruct (aps !! j) as [ap|] eqn:Hj; [|done].
  case_decide as Hr; [done|].
  case_decide as Hm1; [done|]. case_decide as Hm2; [done|].
  intros [= <-]. exists aps, j, ap. repeat split; try done; lia.
Qed.


(* ================================================================== *)
(** * The matcher *)
(* ================================================================== *)

Lemma bind_ext_Forall {A B} (f g : A → list B) l :
  Forall (λ x, f x = g x) l → l ≫= f = l ≫= g.
Proof.
  induction 1 as [|x l Hx _ IH]; [done|]. by rewrite !bind_cons, Hx, IH.
Qed.

Lemma flat_imap_ext_Forall {A B} (f g : nat → A → list B) i l :
  Forall (λ x, ∀ j, f j x = g j x) l → flat_imap f i l = flat_imap g i l.
Proof.
  intros H. revert i. induction H as [|x l Hx _ IH]; intros i; simpl; [done|].
  by rewrite Hx, IH.
Qed.

Lemma find_matches_with_text_elem q es text m :
  m ∈ find_matches_with_text q es text →
  ∃ j ap e pos,
    get_accent_phrases q !! j = Some ap ∧
    e ∈ filter_entries es text ∧
    pos ∈ occurrences (phrase_pronunciation_of (get_moras ap))
            (pronunciation e) ∧
    m ∈ record_match (mora_texts_of (get_moras ap)) e j pos [].
Proof.
  rewrite find_matches_with_text_spec. destruct text as [|c text].
  { by intros ?%elem_of_nil. }
  intros (j & ap & Hj & Hm)%elem_of_flat_imap.
  unfold segment_matches in Hm.
  apply list_elem_of_bind in Hm as (e & Hm & He).
  apply list_elem_of_bind in Hm as (pos & Hm & Hpos).
  by exists j, ap, e, pos.
Qed.



(** The first example of the specification: one match, units [0, 5). *)
Example partial_mode_zundamon_desu :
  find_matches_with_text zundamon_desu_query [zundamon_entry]
    (hira_zundamon ++ hira_desu) =
  [mk_match zundamon_entry 0 0 5].
Proof. vm_compute. reflexivity. Qed.


(** An occurrence that starts inside a unit leaves the start index of the
    conversion loop at 0.  In the segment A, I, UA, I the pronunciation A I
    occurs at characters 0 and 3; the second occurrence starts inside the
    third unit, and the scan reports the units [0, 2) a second time. *)
Example partial_mode_occurrence_inside_unit :
  let ai := [0x30a2; 0x30a4]%N in
  let e := entry_of hira_a ai None None in
  let q := query_of [phrase_of [kata_a; [0x30a4]; [0x30a6; 0x30a2];
                                [0x30a4]]%N] in
  occurrences (phrase_pronunciation_of (get_moras
                 (phrase_of [kata_a; [0x30a4]; [0x30a6; 0x30a2];
                             [0x30a4]]%N))) ai = [0; 3] ∧
  find_matches_with_text q [e] hira_a = [mk_match e 0 0 2; mk_match e 0 0 2].
Proof. vm_compute. done. Qed.

(** With one-character units, unit indices are character offsets: an
    occurrence at offset [k] is the unit range [k, k + len). *)
Lemma unit_offset_single_chars texts i :
  Forall (λ t, length t = 1) texts → i ≤ length texts →
  unit_offset texts i = i.
Proof.
  intros H. revert i. induction H as [|t texts Ht _ IH]; intros i Hi.
  - simpl in Hi. by replace i with 0 by lia.
  - destruct i as [|i]; [done|]. rewrite unit_offset_S, Ht, IH; simpl in *; lia.
Qed.

Lemma whole_units_single_chars texts pos len :
  Forall (λ t, length t = 1) texts → 0 < len → pos + len ≤ length texts →
  whole_units texts pos len = Some (pos, pos + len).
Proof.
  intros H Hlen Hfit. unfold whole_units.
  destruct (list_find_seq (λ i, unit_offset texts i = pos) 0 (length texts))
    as [[_ Hno]|(a & -> & Ha & Hoff & _)].
  { exfalso. apply (Hno pos); [lia|].
    apply unit_offset_single_chars; [done|lia]. }
  simpl in Hoff. rewrite unit_offset_single_chars in Hoff by (done || lia).
  subst a. cbn [fmap option_fmap option_map mbind option_bind snd].
  rewrite Nat.add_0_l.
  destruct (list_find_seq (λ j, unit_offset texts j = pos + len) (S pos)
              (length texts - pos)) as [[_ Hno]|(k & -> & Hk & Hoff & _)].
  { exfalso. apply (Hno (pos + len)); [lia|].
    apply unit_offset_single_chars; [done|lia]. }
  rewrite unit_offset_single_chars in Hoff by (done || lia).
  cbn [fmap option_fmap option_map mbind option_bind snd].
  by rewrite Hoff.
Qed.

Lemma single_char_join texts :
  Forall (λ t, length t = 1) texts → length (str_join texts) = length texts.
Proof.
  intros H. rewrite <- (unit_offset_all texts (length texts)) by done.
  by apply unit_offset_single_chars.
Qed.

Lemma single_char_units_starts q es text :
  single_char_units q → occurrences_on_unit_starts q es text.
Proof.
  unfold single_char_units, occurrences_on_unit_starts.
  intros H. eapply Forall_impl; [exact H|]. intros ap Hap. cbn beta in *.
  assert (Forall (λ t, length t = 1) (mora_texts_of (get_moras ap))) as Ht.
  { unfold mora_texts_of. by apply Forall_fmap. }
  apply Forall_forall. intros e _. apply Forall_forall. intros pos Hpos.
  apply occurrences_elem in Hpos as (Hp & Hfit & _).
  unfold phrase_pronunciation_of in Hfit.
  rewrite single_char_join in Hfit by done.
  apply list_elem_of_fmap. exists pos. split.
  - by rewrite unit_offset_single_chars by (done || lia).
  - apply elem_of_seq. destruct (pronunciation e); [done|simpl in *; lia].
Qed.

(** The scan and the reference notion of partial mode agree when the
    occurrences start on unit boundaries. *)
Lemma find_matches_with_text_on_unit_starts q es text :
  occurrences_on_unit_starts q es text →
  find_matches_with_text q es text = partial_matches q es text.
Proof.
  intros Hstart. rewrite find_matches_with_text_spec. unfold partial_matches.
  destruct text as [|c text]; [done|].
  apply flat_imap_ext_Forall.
  eapply Forall_impl; [exact Hstart|]. intros ap Hap idx. cbn beta in Hap.
  unfold segment_matches, occurrence_matches.
  apply bind_ext_Forall. eapply Forall_impl; [exact Hap|].
  intros e He. cbn beta in He. apply bind_ext_Forall.
  apply Forall_forall. intros pos Hpos.
  apply record_match_whole_units; [done|].
  by eapply Forall_forall in He.
Qed.

(** Partial mode on single-character units: every non-overlapping
    occurrence at character offset [k] is the match [k, k + len). *)
Lemma partial_mode_single_chars q es text :
  single_char_units q →
  find_matches_with_text q es text =
  match text with
  | [] => []
  | _ :: _ =>
      flat_imap
        (λ idx ap,
           e ← filter_entries es text;
           pos ← occurrences (phrase_pronunciation_of (get_moras ap))
                   (pronunciation e);
           [mk_match e idx pos (pos + length (pronunciation e))])
        0 (get_accent_phrases q)
  end.
Proof.
  intros H.
  rewrite (find_matches_with_text_on_unit_starts _ _ _
             (single_char_units_starts _ _ _ H)).
  unfold partial_matches. destruct text as [|c text]; [done|].
  apply flat_imap_ext_Forall. eapply Forall_impl; [exact H|].
  intros ap Hap idx. cbn beta in Hap.
  assert (Forall (λ t, length t = 1) (mora_texts_of (get_moras ap))) as Ht.
  { unfold mora_texts_of. by apply Forall_fmap. }
  apply bind_ext_Forall, Forall_forall. intros e _.
  unfold occurrence_matches. apply bind_ext_Forall, Forall_forall.
  intros pos (Hp & Hfit & _)%occurrences_elem.
  unfold phrase_pronunciation_of in Hfit.
  rewrite single_char_join in Hfit by done.
  rewrite whole_units_single_chars; [done|done| |done].
  destruct (pronunciation e); [done|simpl; lia].
Qed.

Lemma partial_mode_single_chars_witness :
  single_char_units zundamon_twice_query ∧
  find_matches_with_text zundamon_twice_query [zundamon_entry]
    (hira_zundamon ++ hira_to ++ hira_zundamon) =
  [mk_match zundamon_entry 0 0 5; mk_match zundamon_entry 0 6 11].
Proof.
  assert (single_char_units zundamon_twice_query) as H
    by (vm_compute; repeat constructor).
  split; [exact H|].
  rewrite (partial_mode_single_chars _ [zundamon_entry]
             (hira_zundamon ++ hira_to ++ hira_zundamon) H).
  vm_compute. reflexivity.
Defined.



(** Entries sharing the matching pronunciation each yield a result. *)
Example exact_mode_shared_pronunciation :
  find_matches (query_of [phrase_of_chars kata_zundamon])
    [zundamon_entry; entry_of hira_a kata_zundamon None None] =
  [mk_match zundamon_entry 0 0 5;
   mk_match (entry_of hira_a kata_zundamon None None) 0 0 5].
Proof. vm_compute. reflexivity. Qed.

Lemma filter_entries_idemp es text :
  filter_entries (filter_entries es text) text = filter_entries es text.
Proof.
  unfold filter_entries. induction es as [|e es IH]; [done|].
  rewrite filter_cons. case_decide as E; [|done].
  by rewrite filter_cons, decide_True, IH.
Qed.

(** C5.  In partial mode an entry whose word is not a literal substring of
    the source text never matches: the scan runs on the surviving entries
    only.  An empty entry list or an empty source text gives no match. *)
Theorem text_filter_discards q es text :
  (∀ m, m ∈ find_matches_with_text q es text →
        is_substring (word (entry m)) text) ∧
  find_matches_with_text q es text =
    find_matches_with_text q (filter_entries es text) text ∧
  (∀ e, e ∈ filter_entries es text ↔ e ∈ es ∧ is_substring (word e) text) ∧
  find_matches_with_text q [] text = [] ∧
  find_matches_with_text q es [] = [].
Proof.
  split; [|split; [|split; [|split]]].
  - intros m (j & ap & e & pos & _ & He & _ & Hm)%find_matches_with_text_elem.
    apply record_match_elem in Hm as (a & b & -> & _). simpl.
    apply list_elem_of_filter in He as [He _]. by apply str_contains_spec.
  - rewrite !find_matches_with_text_spec. destruct text; [done|].
    by rewrite filter_entries_idemp.
  - intros e. unfold filter_entries.
    by rewrite list_elem_of_filter, str_contains_spec, (comm and).
  - done.
  - by destruct es.
Qed.

Lemma text_filter_discards_witness :
  mk_match zundamon_entry 0 0 5 ∈
    find_matches_with_text zundamon_desu_query [zundamon_entry]
      (hira_zundamon ++ hira_desu) ∧
  is_substring hira_zundamon (hira_zundamon ++ hira_desu).
Proof.
  assert (mk_match zundamon_entry 0 0 5 ∈
            find_matches_with_text zundamon_desu_query [zundamon_entry]
              (hira_zundamon ++ hira_desu)) as Hin
    by (vm_compute; apply list_elem_of_here).
  split; [exact Hin|].
  exact (proj1 (text_filter_discards zundamon_desu_query [zundamon_entry]
                  (hira_zundamon ++ hira_desu)) _ Hin).
Defined.

(** The homophone example of the specification: the word zundamon against
    the text SUMIDA-MON desu, whose segment reads ZUNDAMON DESU. *)
Example text_filter_homophone :
  find_matches_with_text zundamon_desu_query [zundamon_entry]
    (kanji_sumidamon ++ hira_desu) = [] ∧
  find_matches_with_text zundamon_desu_query [zundamon_entry]
    (hira_zundamon ++ hira_desu) ≠ [].
Proof. vm_compute. done. Qed.

Lemma store_of_read q : read_query (store_of q) (ref_of q) = Some q.
Proof.
  pose proof (read_query_encoded [] [] q) as H.
  by rewrite app_nil_r in H.
Qed.

Lemma find_matches_loop_elem d idx aps results m :
  m ∈ find_matches_loop d idx aps results →
  m ∈ results ∨
  ∃ j ap es, aps !! j = Some ap ∧
             d !! phrase_pronunciation_of (get_moras ap) = Some es ∧
             entry m ∈ es ∧
             m = mk_match (entry m) (idx + j) 0 (length (get_moras ap)).
Proof.
  revert idx results; induction aps as [|ap aps IH]; intros idx results;
    simpl; [by left|].
  assert (∀ res, m ∈ find_matches_loop d (S idx) aps res →
                 m ∈ res ∨
                 ∃ j ap0 es, (ap :: aps) !! j = Some ap0 ∧
                   d !! phrase_pronunciation_of (get_moras ap0) = Some es ∧
                   entry m ∈ es ∧
                   m = mk_match (entry m) (idx + j) 0
                         (length (get_moras ap0))) as Hrest.
  { intros res [?|(j & ap0 & es & Hj & Hd & He & Hm)]%IH; [by left|].
    right. exists (S j), ap0, es. repeat split; try done.
    by replace (idx + S j) with (S idx + j) by lia. }
  destruct (get_moras ap) as [|m0 ms] eqn:Hms; [by apply Hrest|].
  destruct (d !! phrase_pronunciation_of (m0 :: ms)) as [es|] eqn:Hd;
    [|by apply Hrest].
  intros [[?|Hin]%elem_of_app|?]%Hrest; [by left| |by right].
  right. apply list_elem_of_fmap in Hin as (e & -> & He).
  exists 0, ap, es. rewrite Hms, Nat.add_0_r. by repeat split.
Qed.

Lemma find_matches_elem q es m :
  m ∈ find_matches q es →
  ∃ j ap, get_accent_phrases q !! j = Some ap ∧
          entry m ∈ es ∧
          pronunciation (entry m) = phrase_pronunciation_of (get_moras ap) ∧
          m = mk_match (entry m) j 0 (length (get_moras ap)).
Proof.
  unfold find_matches. destruct es as [|e0 es]; [by intros ?%elem_of_nil|].
  destruct (get_accent_phrases q) as [|ap0 aps] eqn:Hq;
    [by intros ?%elem_of_nil|].
  intros [?%elem_of_nil|(j & ap & l & Hj & Hd & He & Hm)]%find_matches_loop_elem;
    [done|].
  rewrite pronunciation_to_entries_lookup in Hd.
  destruct (filter _ (e0 :: es)) as [|e' l'] eqn:Hf; [done|].
  injection Hd as <-. rewrite <- Hf in He.
  apply list_elem_of_filter in He as [Hp He].
  exists j, ap. by repeat split.
Qed.

Lemma well_formed_match_no_range_error q m h l :
  well_formed_match q m → read_query h l = Some q →
  ¬ is_range_error
      (apply_partial_match l (entry m) (accent_phrase_index m)
         (mora_start_index m) (mora_end_index m) h).2 ∧
  (apply_partial_match l (entry m) (accent_phrase_index m)
     (mora_start_index m) (mora_end_index m) h).2 ≠ Raise IndexError.
Proof.
  intros (j & a & b & ap & -> & -> & -> & Hj & Hab & _) Hq.
  destruct (apply_partial_match_spec h l q (entry m) (Z.of_nat j)
              (Z.of_nat a) (Z.of_nat b) Hq) as (ext & _ & Hr).
  pose proof (lookup_lt_Some _ _ _ Hj) as Hjlt.
  unfold partial_match_result in Hr.
  rewrite decide_False in Hr by lia.
  rewrite py_index_nonneg, Nat2Z.id, Hj in Hr by lia.
  rewrite decide_False in Hr by lia.
  unfold is_range_error.
  destruct (decide (mismatch (pitch_values (entry m)) _)) as [?|?];
    [rewrite Hr; by split; [intros [?|?]|]|].
  destruct (decide (mismatch (length_values (entry m)) _)) as [?|?];
    [rewrite Hr; by split; [intros [?|?]|]|].
  destruct Hr as [_ ->]. by split; [intros [?|?]|].
Qed.

(** C10.  Every result of either matching mode designates a segment of the
    query and a unit range inside it whose texts spell the entry's
    pronunciation; so applying it to the same query never fails with a
    range error. *)
Theorem matcher_results_well_formed q es text m :
  m ∈ find_matches q es ∨ m ∈ find_matches_with_text q es text →
  well_formed_match q m ∧
  ∀ h l, read_query h l = Some q →
         ¬ is_range_error
             (apply_partial_match l (entry m) (accent_phrase_index m)
                (mora_start_index m) (mora_end_index m) h).2.
Proof.
  intros Hm.
  assert (well_formed_match q m) as Hwf.
  { destruct Hm as [Hm|Hm].
    - apply find_matches_elem in Hm as (j & ap & Hj & _ & Hp & ->).
      exists j, 0, (length (get_moras ap)), ap. simpl.
      repeat split; try done; try lia.
      rewrite Hp, py_slice_take_drop, drop_0, Nat.sub_0_r.
      unfold phrase_pronunciation_of, mora_texts_of.
      by rewrite take_ge by (by rewrite length_fmap).
    - apply find_matches_with_text_elem in Hm
        as (j & ap & e & pos & Hj & _ & _ & Hm).
      apply record_match_elem in Hm as (a & b & -> & Hab & Hjoin).
      exists j, a, b, ap. simpl. unfold mora_texts_of in Hab.
      rewrite length_fmap in Hab. repeat split; try done; lia. }
  split; [done|]. intros h l Hq.
  by apply (well_formed_match_no_range_error q).
Qed.

Lemma matcher_results_well_formed_witness :
  mk_match zundamon_entry 0 0 5 ∈
    find_matches_with_text zundamon_desu_query [zundamon_entry]
      (hira_zundamon ++ hira_desu) ∧
  well_formed_match zundamon_desu_query (mk_match zundamon_entry 0 0 5).
Proof.
  assert (mk_match zundamon_entry 0 0 5 ∈
            find_matches_with_text zundamon_desu_query [zundamon_entry]
              (hira_zundamon ++ hira_desu)) as H.
  { rewrite partial_mode_zundamon_desu. apply list_elem_of_here. }
  split; [exact H|].
  exact (proj1 (matcher_results_well_formed zundamon_desu_query
                  [zundamon_entry] (hira_zundamon ++ hira_desu) _
                  (or_intror H))).
Defined.

(* ================================================================== *)
(** * The overlay engine *)
(* ================================================================== *)

(** Whatever [apply_partial_match] does, the objects already in the store
    stay as they are, so the argument still denotes the same query. *)
Lemma apply_partial_match_preserves h l q e idx s t :
  read_query h l = Some q →
  h `prefix_of` (apply_partial_match l e idx s t h).1 ∧
  read_query (apply_partial_match l e idx s t h).1 l = Some q.
Proof.
  intros Hq.
  destruct (apply_partial_match_spec h l q e idx s t Hq) as (ext & -> & _).
  split; [by apply prefix_app_r|].
  eapply read_query_prefix; [|done]. by apply prefix_app_r.
Qed.

(** Coordinates at or beyond the bounds are refused: a segment index at or
    beyond the number of segments, and, for a segment index in range, a
    unit range that starts below zero or ends beyond the segment, fail
    with a range error, and the argument is left as it was. *)
Lemma apply_partial_match_range_error h l q e idx s t :
  read_query h l = Some q →
  (Z.of_nat (length (get_accent_phrases q)) ≤ idx)%Z ∨
  (∃ j ap, idx = Z.of_nat j ∧ get_accent_phrases q !! j = Some ap ∧
           ((s < 0)%Z ∨ (Z.of_nat (length (get_moras ap)) < t)%Z)) →
  is_range_error (apply_partial_match l e idx s t h).2 ∧
  read_query (apply_partial_match l e idx s t h).1 l = Some q.
Proof.
  intros Hq Hbad.
  split; [|by apply apply_partial_match_preserves].
  destruct (apply_partial_match_spec h l q e idx s t Hq) as (ext & _ & Hr).
  unfold partial_match_result in Hr. unfold is_range_error.
  destruct Hbad as [Hidx|(j & ap & -> & Hj & Hrange)].
  - rewrite decide_True in Hr by done. by left.
  - pose proof (lookup_lt_Some _ _ _ Hj) as Hjlt.
    rewrite decide_False in Hr by lia.
    rewrite py_index_nonneg, Nat2Z.id, Hj in Hr by lia.
    rewrite decide_True in Hr by done. by right.
Qed.

Lemma apply_partial_match_range_error_witness :
  is_range_error
    (apply_partial_match (ref_of a_query) a_entry 0 0 2 (store_of a_query)).2 ∧
  is_range_error
    (apply_partial_match (ref_of a_query) a_entry 1 0 1 (store_of a_query)).2.
Proof.
  split.
  - apply (apply_partial_match_range_error _ _ _ _ _ _ _
             (store_of_read a_query)).
    right. exists 0, (phrase_of [kata_a]). split; [done|]. split; [done|].
    right. simpl. lia.
  - apply (apply_partial_match_range_error _ _ _ _ _ _ _
             (store_of_read a_query)).
    left. simpl. lia.
Defined.

(** C1 fails on the code for a negative segment index, which is never
    compared with zero: [-1] designates the last segment and the call
    succeeds, overlaying it; an index below [-len] escapes as an
    [IndexError], which is not the [ValueError] the callers catch. *)
Theorem apply_partial_match_negative_index :
  read_query (store_of a_query) (ref_of a_query) = Some a_query ∧
  (apply_partial_match (ref_of a_query) a_entry (-1) 0 1
     (store_of a_query)).2 = Ok 9 ∧
  read_query
    (apply_partial_match (ref_of a_query) a_entry (-1) 0 1
       (store_of a_query)).1 9 =
  Some (query_of
          [{| ap_moras := Some [set_pitch 9.0%Q (mora_of kata_a)];
              ap_other := [] |}]) ∧
  (apply_partial_match (ref_of a_query) a_entry (-2) 0 1
     (store_of a_query)).2 = Raise IndexError.
Proof. vm_compute. done. Qed.








(** The overlay of the specification's unit tests: the pitch values land
    in the designated units and nowhere else. *)
Example apply_partial_match_middle :
  let q := query_of [phrase_of_chars (kata_zundamon ++ kata_desu)] in
  let e := entry_of hira_desu kata_desu (Some [6.0; 6.1]%Q) None in
  let r := apply_partial_match (ref_of q) e 0 5 7 (store_of q) in
  ∃ l' q', r.2 = Ok l' ∧ read_query r.1 l' = Some q' ∧
    (mora_pitch <$> concat (get_moras <$> get_accent_phrases q')) =
    (Some <$> [5.0; 5.0; 5.0; 5.0; 5.0; 6.0; 6.1]%Q) ∧
    read_query r.1 (ref_of q) = Some q.
Proof. eexists _, _. vm_compute. done. Qed.

(* ================================================================== *)
(** * The whole-query operations *)
(* ================================================================== *)





(* ================================================================== *)
(** * The handlers *)
(* ================================================================== *)

Lemma find_matches_with_text_at_run h l q es text :
  read_query h l = Some q →
  find_matches_with_text_at l es text h =
  (h, Ok (find_matches_with_text q es text)).
Proof.
  intros Hq. unfold find_matches_with_text_at.
  destruct es as [|e es]; [done|]. destruct text as [|c text]; [done|].
  unfold mbind, M_bind, read_query_at. by rewrite Hq.
Qed.

Lemma try_apply_run h l q m :
  read_query h l = Some q →
  ∃ ext, (try_apply l m h).1 = h ++ ext ∧
    match partial_match_result q (entry m) (accent_phrase_index m)
            (mora_start_index m) (mora_end_index m) with
    | Ok q' =>
        ext = encode_query (length h) q' ∧
        (try_apply l m h).2 = Ok (Some (query_root (length h) q'))
    | Raise (ValueError _) => (try_apply l m h).2 = Ok None
    | Raise ex => (try_apply l m h).2 = Raise ex
    end.
Proof.
  intros Hq.
  destruct (apply_partial_match_spec h l q (entry m) (accent_phrase_index m)
              (mora_start_index m) (mora_end_index m) Hq) as (ext & Hh & Hr).
  exists ext. unfold try_apply.
  destruct (apply_partial_match l (entry m) (accent_phrase_index m)
              (mora_start_index m) (mora_end_index m) h) as [h' r].
  simpl in *. subst h'.
  destruct (partial_match_result q (entry m) (accent_phrase_index m)
              (mora_start_index m) (mora_end_index m)) as [q'|ex].
  - destruct Hr as [-> ->]. done.
  - subst r. by destruct ex.
Qed.

Lemma read_query_fresh h q :
  read_query (h ++ encode_query (length h) q) (query_root (length h) q)
  = Some q.
Proof.
  pose proof (read_query_encoded h [] q) as H. by rewrite app_nil_r in H.
Qed.

(** The loop of [apply_dictionary] computes [overlay_all] on the query its
    argument denotes. *)
Lemma overlay_loop_applied_run ms : ∀ h l q acc,
  read_query h l = Some q →
  ∃ ext, (overlay_loop_applied l acc ms h).1 = h ++ ext ∧
    match overlay_all q ms with
    | Ok (q', ws) =>
        ∃ l', (overlay_loop_applied l acc ms h).2 = Ok (l', acc ++ ws) ∧
              read_query (h ++ ext) l' = Some q'
    | Raise ex => (overlay_loop_applied l acc ms h).2 = Raise ex
    end.
Proof.
  induction ms as [|m ms IH]; intros h l q acc Hq.
  - exists []. simpl. rewrite !app_nil_r. split; [done|]. by exists l.
  - destruct (try_apply_run h l q m Hq) as (ext & Hh & Hr).
    cbn [overlay_loop_applied overlay_all].
    destruct (try_apply l m h) as [h1 r] eqn:Htry. simpl in Hh, Hr. subst h1.
    destruct (partial_match_result q (entry m) (accent_phrase_index m)
                (mora_start_index m) (mora_end_index m)) as [q'|ex].
    + destruct Hr as [-> ->].
      rewrite (bind_ok _ _ _ _ _ Htry).
      destruct (IH (h ++ encode_query (length h) q')
                  (query_root (length h) q') q'
                  (acc ++ [word (entry m)]) (read_query_fresh h q'))
        as (ext' & Hh' & Hr').
      exists (encode_query (length h) q' ++ ext').
      rewrite Hh', <- !(assoc_L (++)). split; [done|].
      destruct (overlay_all q' ms) as [[q'' ws]|ex']; [|done].
      destruct Hr' as (l' & Hl' & Hread). exists l'.
      rewrite Hl', <- (assoc_L (++) acc). simpl.
      split; [done|]. by rewrite <- (assoc_L (++)) in Hread.
    + assert (h `prefix_of` h ++ ext) as Hp by by apply prefix_app_r.
      destruct ex as [k| | |]; subst r;
        try (exists ext; by rewrite (bind_raise _ _ _ _ _ Htry)).
      rewrite (bind_ok _ _ _ _ _ Htry).
      destruct (IH (h ++ ext) l q acc (read_query_prefix _ _ _ _ Hp Hq))
        as (ext' & Hh' & Hr').
      exists (ext ++ ext'). rewrite Hh', <- !(assoc_L (++)). split; [done|].
      destruct (overlay_all q ms) as [[q'' ws]|ex']; [|done].
      destruct Hr' as (l' & Hl' & Hread). exists l'.
      by rewrite <- (assoc_L (++)) in *.
Qed.

(** The loop of [synthesize_with_extended_dict] is the same loop without
    the record of applied words. *)
Lemma overlay_loop_run ms : ∀ h l q,
  read_query h l = Some q →
  ∃ ext, (overlay_loop l ms h).1 = h ++ ext ∧
    match overlay_all q ms with
    | Ok (q', ws) =>
        ∃ l', (overlay_loop l ms h).2 = Ok l' ∧
              read_query (h ++ ext) l' = Some q'
    | Raise ex => (overlay_loop l ms h).2 = Raise ex
    end.
Proof.
  induction ms as [|m ms IH]; intros h l q Hq.
  - exists []. simpl. rewrite !app_nil_r. split; [done|]. by exists l.
  - destruct (try_apply_run h l q m Hq) as (ext & Hh & Hr).
    cbn [overlay_loop overlay_all].
    destruct (try_apply l m h) as [h1 r] eqn:Htry. simpl in Hh, Hr. subst h1.
    destruct (partial_match_result q (entry m) (accent_phrase_index m)
                (mora_start_index m) (mora_end_index m)) as [q'|ex].
    + destruct Hr as [-> ->].
      rewrite (bind_ok _ _ _ _ _ Htry). simpl.
      destruct (IH (h ++ encode_query (length h) q')
                  (query_root (length h) q') q' (read_query_fresh h q'))
        as (ext' & Hh' & Hr').
      exists (encode_query (length h) q' ++ ext').
      rewrite Hh', <- !(assoc_L (++)). split; [done|].
      destruct (overlay_all q' ms) as [[q'' ws]|ex']; [|done].
      destruct Hr' as (l' & Hl' & Hread). exists l'.
      by rewrite <- (assoc_L (++)) in *.
    + assert (h `prefix_of` h ++ ext) as Hp by by apply prefix_app_r.
      destruct ex as [k| | |]; subst r;
        try (exists ext; by rewrite (bind_raise _ _ _ _ _ Htry)).
      rewrite (bind_ok _ _ _ _ _ Htry). simpl.
      destruct (IH (h ++ ext) l q (read_query_prefix _ _ _ _ Hp Hq))
        as (ext' & Hh' & Hr').
      exists (ext ++ ext'). rewrite Hh', <- !(assoc_L (++)). split; [done|].
      destruct (overlay_all q ms) as [[q'' ws]|ex']; [|done].
      destruct Hr' as (l' & Hl' & Hread). exists l'.
      by rewrite <- (assoc_L (++)) in *.
Qed.

(** No more words are applied than matches were found. *)
Lemma overlay_all_applied_le ms : ∀ q q' ws,
  overlay_all q ms = Ok (q', ws) → length ws ≤ length ms.
Proof.
  induction ms as [|m ms IH]; intros q q' ws; simpl.
  - intros [= <- <-]. done.
  - destruct (partial_match_result q (entry m) (accent_phrase_index m)
                (mora_start_index m) (mora_end_index m)) as [q1|ex].
    + destruct (overlay_all q1 ms) as [[q2 ws2]|ex'] eqn:E; [|done].
      intros [= <- <-]. apply IH in E. simpl. lia.
    + destruct ex; try done. intros ?%IH. lia.
Qed.

Lemma synthesize_body_run client load text sp h q es :
  create_audio_query client text sp = Ok q → load = Ok es →
  ∃ ext, synthesize_body client load text sp h =
    (h ++ ext,
     match overlay_all q (find_matches_with_text q es text) with
     | Ok (q', ws) =>
         match synthesis client q' sp with
         | Ok audio_data =>
             Ok (audio_data, length (find_matches_with_text q es text))
         | Raise ex => Raise ex
         end
     | Raise ex => Raise ex
     end).
Proof.
  intros Hc ->. unfold synthesize_body. rewrite Hc.
  unfold mbind at 1, M_bind at 1, lift at 1.
  unfold mbind at 1, M_bind at 1, new_query at 1.
  unfold mbind at 1, M_bind at 1, lift at 1.
  rewrite (bind_ok _ _ _ _ _
             (find_matches_with_text_at_run _ _ _ es text
                (read_query_fresh h q))).
  destruct (overlay_loop_run (find_matches_with_text q es text)
              _ _ _ (read_query_fresh h q)) as (ext & Hh & Hr).
  destruct (overlay_loop _ _ _) as [h1 r] eqn:Hloop. simpl in Hh, Hr.
  subst h1. exists (encode_query (length h) q ++ ext).
  destruct (overlay_all q (find_matches_with_text q es text))
    as [[q' ws]|ex].
  - destruct Hr as (l' & -> & Hread).
    rewrite (bind_ok _ _ _ _ _ Hloop).
    unfold mbind at 1, M_bind at 1, read_query_at at 1. rewrite Hread.
    unfold mbind at 1, M_bind at 1, lift at 1.
    rewrite <- (assoc_L (++)).
    by destruct (synthesis client q' sp).
  - subst r. rewrite (bind_raise _ _ _ _ _ Hloop).
    by rewrite <- (assoc_L (++)).
Qed.

(** C6, as stated, fails: the engine answers with [a_query], the
    dictionary holds an entry with two pitch values for its single unit.
    The matcher finds one match, its overlay is skipped for the count
    mismatch, no word is applied, and the header says 1. *)
Lemma x_matches_found_counterexample :
  (synthesize_with_extended_dict (engine_answering a_query)
     (Ok [a_entry_two_pitches]) hira_a 1 []).2 = Wav riff 1 ∧
  find_matches_with_text a_query [a_entry_two_pitches] hira_a =
    [mk_match a_entry_two_pitches 0 0 1] ∧
  overlay_all a_query [mk_match a_entry_two_pitches 0 0 1] =
    Ok (a_query, []).
Proof. vm_compute. done. Qed.

(** C6 (as amended).  When [synthesize_with_extended_dict] answers with
    audio, the [X-Matches-Found] header is the number of matches the
    matcher found for the engine's query, applied or skipped; the audio is
    rendered from the query with the applicable matches overlaid, and the
    number of matches applied is at most the number in the header. *)
Theorem x_matches_found_is_matches_found client load text sp h h' audio n :
  synthesize_with_extended_dict client load text sp h = (h', Wav audio n) →
  ∃ q es q' ws,
    create_audio_query client text sp = Ok q ∧ load = Ok es ∧
    overlay_all q (find_matches_with_text q es text) = Ok (q', ws) ∧
    synthesis client q' sp = Ok audio ∧
    n = length (find_matches_with_text q es text) ∧
    length ws ≤ n.
Proof.
  unfold synthesize_with_extended_dict.
  destruct (create_audio_query client text sp) as [q|ex] eqn:Hc.
  2: { unfold synthesize_body. rewrite Hc. done. }
  destruct load as [es|ex] eqn:Hl.
  2: { unfold synthesize_body. rewrite Hc. done. }
  destruct (synthesize_body_run client (Ok es) text sp h q es Hc eq_refl)
    as (ext & ->).
  destruct (overlay_all q (find_matches_with_text q es text))
    as [[q' ws]|ex] eqn:Hall; [|done].
  destruct (synthesis client q' sp) as [a|ex] eqn:Hs; [|done].
  intros [= <- <- <-]. exists q, es, q', ws.
  repeat split; try done. by eapply overlay_all_applied_le.
Qed.

(** The end-to-end example of the specification: one match, applied, and
    reported. *)
Lemma x_matches_found_is_matches_found_witness :
  let r := synthesize_with_extended_dict
             (engine_answering konnichiwa_zundamon_query)
             (Ok [zundamon_pitched_entry]) konnichiwa_zundamon_text 1 [] in
  r.2 = Wav riff 1 ∧
  ∃ q es q' ws,
    q = konnichiwa_zundamon_query ∧ es = [zundamon_pitched_entry] ∧
    overlay_all q (find_matches_with_text q es konnichiwa_zundamon_text)
      = Ok (q', ws) ∧
    ws = [hira_zundamon] ∧
    1 = length (find_matches_with_text q es konnichiwa_zundamon_text).
Proof.
  intros r.
  assert (r = (r.1, Wav riff 1)) as Hr by (vm_compute; reflexivity).
  split; [by rewrite Hr|].
  destruct (x_matches_found_is_matches_found _ _ _ _ _ _ _ _ Hr)
    as (q & es & q' & ws & Hq & Hes & Hall & _ & Hn & _).
  injection Hq as <-. injection Hes as <-.
  exists konnichiwa_zundamon_query, [zundamon_pitched_entry], q', ws.
  repeat split; try done.
  revert Hall. vm_compute. by intros [= _ <-].
Defined.

Lemma apply_dictionary_body_run e es req h q :
  read_query h (req_audio_query req) = Some q →
  let ms := find_matches_with_text q (e :: es) (req_text req) in
  ∃ ext r, apply_dictionary_body (Ok (e :: es)) req h = (h ++ ext, r) ∧
    match overlay_all q ms with
    | Ok (q', ws) =>
        ∃ l', r = Ok {| resp_audio_query := l';
                        resp_matches_found := length ms;
                        resp_applied_entries := ws |} ∧
              read_query (h ++ ext) l' = Some q'
    | Raise ex => r = Raise ex
    end.
Proof.
  intros Hq ms. unfold apply_dictionary_body.
  unfold mbind at 1, M_bind at 1, lift.
  rewrite (bind_ok _ _ _ _ _
             (find_matches_with_text_at_run _ _ _ (e :: es) (req_text req)
                Hq)).
  fold ms.
  destruct (overlay_loop_applied_run ms h (req_audio_query req) q [] Hq)
    as (ext & Hh & Hr).
  destruct (overlay_loop_applied _ _ _ _) as [h1 r] eqn:Hloop.
  simpl in Hh, Hr. subst h1. exists ext.
  destruct (overlay_all q ms) as [[q' ws]|ex].
  - destruct Hr as (l' & -> & Hread).
    rewrite (bind_ok _ _ _ _ _ Hloop). eexists. split; [done|]. by exists l'.
  - subst r. rewrite (bind_raise _ _ _ _ _ Hloop). by eexists.
Qed.



(** The fallback on the end-to-end example: nothing to load, nothing
    changes. *)
Example apply_dictionary_unavailable :
  let req := {| req_audio_query := ref_of a_query; req_text := hira_a;
                req_speaker := 1 |} in
  apply_dictionary (Raise ExternalError) req (store_of a_query) =
    (store_of a_query, unchanged_response req) ∧
  apply_dictionary (Ok []) req (store_of a_query) =
    (store_of a_query, unchanged_response req).
Proof. done. Qed.

(* ================================================================== *)
(** * More on the matcher *)
(* ================================================================== *)

Lemma flat_imap_fmap {A B C} (f : nat → B → list C) (g : A → B) i l :
  flat_imap f i (g <$> l) = flat_imap (λ j x, f j (g x)) i l.
Proof.
  revert i; induction l as [|x l IH]; intros i; simpl; [done|].
  by rewrite IH.
Qed.

Lemma flat_imap_app_pointwise {A B} (f g1 g2 : nat → A → list B) i l :
  (∀ j x, f j x = g1 j x ++ g2 j x) →
  ∀ y, y ∈ flat_imap f i l ↔ y ∈ flat_imap g1 i l ∨ y ∈ flat_imap g2 i l.
Proof.
  intros Hf y. rewrite !elem_of_flat_imap. split.
  - intros (j & x & Hj & Hy). rewrite Hf, elem_of_app in Hy.
    destruct Hy; [left|right]; by exists j, x.
  - intros [(j & x & Hj & Hy)|(j & x & Hj & Hy)]; exists j, x;
      rewrite Hf, elem_of_app; auto.
Qed.

Lemma length_flat_imap_app_pointwise {A B} (f g1 g2 : nat → A → list B) i l :
  (∀ j x, f j x = g1 j x ++ g2 j x) →
  length (flat_imap f i l) =
  length (flat_imap g1 i l) + length (flat_imap g2 i l).
Proof.
  intros Hf. revert i; induction l as [|x l IH]; intros i; simpl; [done|].
  rewrite !length_app, Hf, length_app, IH. lia.
Qed.

(** Exact mode without any assumption on the entries: segments without
    units are passed over. *)
Lemma find_matches_loop_general es idx aps results :
  find_matches_loop (pronunciation_to_entries es) idx aps results =
  results ++
  flat_imap (λ i ap, match get_moras ap with
                     | [] => []
                     | _ :: _ => exact_segment_matches es i ap
                     end) idx aps.
Proof.
  revert idx results; induction aps as [|ap aps IH]; intros idx results; simpl.
  - by rewrite app_nil_r.
  - unfold exact_segment_matches at 1.
    destruct (get_moras ap) as [|m ms] eqn:E; [by rewrite IH|].
    rewrite pronunciation_to_entries_lookup.
    destruct (filter _ es) as [|e' es'] eqn:Ef.
    + by rewrite IH.
    + rewrite IH. by rewrite <- (assoc (++)).
Qed.

Lemma find_matches_general q es :
  find_matches q es =
  flat_imap (λ i ap, match get_moras ap with
                     | [] => []
                     | _ :: _ => exact_segment_matches es i ap
                     end) 0 (get_accent_phrases q).
Proof.
  unfold find_matches. destruct es as [|e es].
  { symmetry. apply flat_imap_nil. intros j x.
    unfold exact_segment_matches. by destruct (get_moras x). }
  destruct (get_accent_phrases q) as [|ap aps] eqn:E; [done|].
  by rewrite find_matches_loop_general.
Qed.

(** Both modes as functions of the transcription. *)
Lemma find_matches_transcription q es :
  find_matches q es =
  flat_imap (λ i texts,
               match texts with
               | [] => []
               | _ :: _ =>
                   (λ e, mk_match e i 0 (length texts))
                     <$> filter (λ e, pronunciation e = str_join texts) es
               end) 0 (transcription q).
Proof.
  rewrite find_matches_general. unfold transcription.
  rewrite flat_imap_fmap. apply flat_imap_ext_Forall, Forall_forall.
  intros ap _ j. unfold exact_segment_matches, phrase_pronunciation_of,
    mora_texts_of.
  destruct (get_moras ap) as [|m ms]; [done|]. simpl.
  by rewrite length_fmap.
Qed.

Lemma find_matches_with_text_transcription q es text :
  find_matches_with_text q es text =
  match text with
  | [] => []
  | _ :: _ =>
      flat_imap (λ i texts,
                   e ← filter_entries es text;
                   pos ← occurrences (str_join texts) (pronunciation e);
                   record_match texts e i pos []) 0 (transcription q)
  end.
Proof.
  rewrite find_matches_with_text_spec. destruct text as [|c text]; [done|].
  unfold transcription. by rewrite flat_imap_fmap.
Qed.

Lemma extract_pronunciation_transcription q :
  extract_pronunciation q = str_join (str_join <$> transcription q).
Proof.
  unfold extract_pronunciation, transcription, str_join.
  induction (get_accent_phrases q) as [|ap aps IH]; [done|].
  rewrite bind_cons, concat_app, IH, !fmap_cons, concat_cons. f_equal.
  unfold mora_texts_of. clear IH.
  induction (get_moras ap) as [|m ms IH]; [done|].
  rewrite bind_cons, concat_app, IH, fmap_cons, concat_cons. f_equal.
  case_decide as E; simpl; [by rewrite E|by rewrite app_nil_r].
Qed.

(** The coordinates of every result designate units of the query that
    spell the pronunciation. *)
Lemma matches_well_formed q es text m :
  m ∈ find_matches q es ∨ m ∈ find_matches_with_text q es text →
  well_formed_match q m.
Proof.
  intros [Hm|Hm].
  - apply find_matches_elem in Hm as (j & ap & Hj & _ & Hp & ->).
    exists j, 0, (length (get_moras ap)), ap. simpl.
    repeat split; try done; try lia.
    rewrite Hp, py_slice_take_drop, drop_0, Nat.sub_0_r.
    unfold phrase_pronunciation_of, mora_texts_of.
    by rewrite take_ge by (by rewrite length_fmap).
  - apply find_matches_with_text_elem in Hm
      as (j & ap & e & pos & Hj & _ & _ & Hm).
    apply record_match_elem in Hm as (a & b & -> & Hab & Hjoin).
    exists j, a, b, ap. simpl. unfold mora_texts_of in Hab.
    rewrite length_fmap in Hab. repeat split; try done; lia.
Qed.

Lemma is_substring_slice (texts : list pystr) a b :
  is_substring (str_join (py_slice texts a b)) (str_join texts).
Proof.
  unfold py_slice, str_join.
  exists (concat (take a (take b texts))), (concat (drop b texts)).
  rewrite <- !concat_app, (assoc_L (++)), take_drop.
  by rewrite take_drop.
Qed.

Lemma is_substring_lookup (parts : list pystr) j s :
  parts !! j = Some s → is_substring s (str_join parts).
Proof.
  intros Hj. exists (concat (take j parts)), (concat (drop (S j) parts)).
  unfold str_join. rewrite <- (take_drop_middle _ _ _ Hj) at 1.
  by rewrite concat_app.
Qed.

Lemma is_substring_trans (a b c : pystr) :
  is_substring a b → is_substring b c → is_substring a c.
Proof.
  intros (p1 & s1 & ->) (p2 & s2 & ->).
  exists (p2 ++ p1), (s1 ++ s2). by rewrite <- !(assoc_L (++)).
Qed.

(** Every result of either mode carries an entry whose pronunciation
    is a contiguous part of what [extract_pronunciation] returns for the
    query. *)
Theorem match_pronunciation_extracted q es text m :
  m ∈ find_matches q es ∨ m ∈ find_matches_with_text q es text →
  is_substring (pronunciation (entry m)) (extract_pronunciation q).
Proof.
  intros (j & a & b & ap & _ & _ & _ & Hj & _ & <-)%matches_well_formed.
  rewrite extract_pronunciation_transcription.
  eapply is_substring_trans; [apply is_substring_slice|].
  apply is_substring_lookup with j.
  unfold transcription. by rewrite !list_lookup_fmap, Hj.
Qed.

Lemma match_pronunciation_extracted_witness :
  mk_match zundamon_entry 1 0 5 ∈
    find_matches_with_text konnichiwa_zundamon_query [zundamon_entry]
      konnichiwa_zundamon_text ∧
  extract_pronunciation konnichiwa_zundamon_query =
    kata_konnichiwa ++ kata_zundamon ++ kata_desu ∧
  is_substring kata_zundamon (extract_pronunciation konnichiwa_zundamon_query).
Proof.
  assert (mk_match zundamon_entry 1 0 5 ∈
            find_matches_with_text konnichiwa_zundamon_query [zundamon_entry]
              konnichiwa_zundamon_text) as Hin
    by (vm_compute; apply list_elem_of_here).
  split; [exact Hin|]. split; [vm_compute; reflexivity|].
  exact (match_pronunciation_extracted konnichiwa_zundamon_query
           [zundamon_entry] konnichiwa_zundamon_text _ (or_intror Hin)).
Defined.

Lemma find_matches_elem_units q es m :
  m ∈ find_matches q es →
  ∃ j ap, get_accent_phrases q !! j = Some ap ∧ get_moras ap ≠ [] ∧
          m = mk_match (entry m) j 0 (length (get_moras ap)).
Proof.
  rewrite find_matches_general, elem_of_flat_imap.
  intros (j & ap & Hj & Hm). exists j, ap. split; [done|].
  destruct (get_moras ap) as [|u us] eqn:E; [by apply elem_of_nil in Hm|].
  split; [done|]. unfold exact_segment_matches in Hm.
  apply list_elem_of_fmap in Hm as (e & -> & _). by rewrite E.
Qed.

(** No result is empty: in either mode a result designates at least one
    unit of its segment, so a segment without units is never matched. *)
Theorem matches_cover_units q es text m :
  m ∈ find_matches q es ∨ m ∈ find_matches_with_text q es text →
  ∃ j ap, accent_phrase_index m = Z.of_nat j ∧
          get_accent_phrases q !! j = Some ap ∧
          (0 ≤ mora_start_index m < mora_end_index m)%Z ∧
          (mora_end_index m ≤ Z.of_nat (length (get_moras ap)))%Z.
Proof.
  intros [Hm|Hm].
  - apply find_matches_elem_units in Hm as (j & ap & Hj & Hne & ->).
    exists j, ap. simpl. repeat split; try done; try lia.
    destruct (get_moras ap); [done|simpl; lia].
  - apply find_matches_with_text_elem in Hm
      as (j & ap & e & pos & Hj & _ & Hpos & Hm).
    apply occurrences_elem in Hpos as (Hne & _).
    apply record_match_elem in Hm as (a & b & -> & Hab & Hjoin).
    exists j, ap. simpl. unfold mora_texts_of in Hab.
    rewrite length_fmap in Hab. repeat split; try done; try lia.
    destruct (decide (a < b)) as [?|Hge]; [lia|]. exfalso. apply Hne.
    rewrite <- Hjoin, py_slice_take_drop.
    by replace (b - a) with 0 by lia.
Qed.

Lemma matches_cover_units_witness :
  mk_match zundamon_entry 0 6 11 ∈
    find_matches_with_text zundamon_twice_query [zundamon_entry]
      (hira_zundamon ++ hira_to ++ hira_zundamon) ∧
  ∃ j ap, 0%Z = Z.of_nat j ∧
          get_accent_phrases zundamon_twice_query !! j = Some ap ∧
          (0 ≤ 6 < 11)%Z ∧ (11 ≤ Z.of_nat (length (get_moras ap)))%Z.
Proof.
  assert (mk_match zundamon_entry 0 6 11 ∈
            find_matches_with_text zundamon_twice_query [zundamon_entry]
              (hira_zundamon ++ hira_to ++ hira_zundamon)) as Hin
    by (vm_compute; apply list_elem_of_further, list_elem_of_here).
  split; [exact Hin|].
  exact (matches_cover_units zundamon_twice_query [zundamon_entry]
           (hira_zundamon ++ hira_to ++ hira_zundamon) _ (or_intror Hin)).
Defined.

Lemma filter_entries_app es1 es2 text :
  filter_entries (es1 ++ es2) text =
  filter_entries es1 text ++ filter_entries es2 text.
Proof. unfold filter_entries. by rewrite filter_app. Qed.

(** Growing the dictionary never loses a result: in both modes the
    results for two entry lists put together are the results for the one
    and the results for the other. *)
Theorem matches_of_joined_dictionaries q es1 es2 text :
  (∀ m, m ∈ find_matches q (es1 ++ es2) ↔
        m ∈ find_matches q es1 ∨ m ∈ find_matches q es2) ∧
  length (find_matches q (es1 ++ es2)) =
    length (find_matches q es1) + length (find_matches q es2) ∧
  (∀ m, m ∈ find_matches_with_text q (es1 ++ es2) text ↔
        m ∈ find_matches_with_text q es1 text ∨
        m ∈ find_matches_with_text q es2 text) ∧
  length (find_matches_with_text q (es1 ++ es2) text) =
    length (find_matches_with_text q es1 text) +
    length (find_matches_with_text q es2 text).
Proof.
  assert (∀ j ap,
    match get_moras ap with
    | [] => []
    | _ :: _ => exact_segment_matches (es1 ++ es2) j ap
    end =
    match get_moras ap with
    | [] => []
    | _ :: _ => exact_segment_matches es1 j ap
    end ++
    match get_moras ap with
    | [] => []
    | _ :: _ => exact_segment_matches es2 j ap
    end) as Hexact.
  { intros j ap. destruct (get_moras ap); [done|].
    unfold exact_segment_matches. by rewrite filter_app, fmap_app. }
  assert (∀ j ap,
    segment_matches (filter_entries (es1 ++ es2) text) j ap =
    segment_matches (filter_entries es1 text) j ap ++
    segment_matches (filter_entries es2 text) j ap) as Hpartial.
  { intros j ap. unfold segment_matches.
    by rewrite filter_entries_app, bind_app. }
  rewrite !find_matches_general, !find_matches_with_text_spec.
  split; [by apply flat_imap_app_pointwise|].
  split; [by apply length_flat_imap_app_pointwise|].
  destruct text as [|c text].
  { split; [|done]. intros m. split; [by intros ?%elem_of_nil|].
    by intros [?%elem_of_nil|?%elem_of_nil]. }
  split; [by apply flat_imap_app_pointwise|].
  by apply length_flat_imap_app_pointwise.
Qed.

(** The matcher reads nothing of a query but its transcription: queries
    that differ only in pitch, durations or other keys get the same
    results. *)
Theorem matcher_reads_transcription q q' es text :
  transcription q = transcription q' →
  find_matches q es = find_matches q' es ∧
  find_matches_with_text q es text = find_matches_with_text q' es text ∧
  extract_pronunciation q = extract_pronunciation q'.
Proof.
  intros H.
  rewrite !find_matches_transcription, !find_matches_with_text_transcription,
    !extract_pronunciation_transcription.
  by rewrite H.
Qed.

Lemma matcher_reads_transcription_witness :
  let q' := query_of [phrase_of_chars kata_zundamon] in
  let q := query_of
             [{| ap_moras := Some (set_pitch 6.5%Q ∘ mora_of ∘ (λ c, [c])
                                     <$> kata_zundamon);
                 ap_other := [([97%N], JNum 3%Q)] |}] in
  q ≠ q' ∧
  find_matches q [zundamon_entry] = find_matches q' [zundamon_entry] ∧
  find_matches q [zundamon_entry] = [mk_match zundamon_entry 0 0 5].
Proof.
  intros q' q. split; [by intros [=]|].
  destruct (matcher_reads_transcription q q' [zundamon_entry] hira_zundamon)
    as (Hexact & _); [vm_compute; reflexivity|].
  split; [exact Hexact|]. vm_compute. reflexivity.
Defined.

Lemma unit_offset_strict texts i j :
  Forall (λ t, t ≠ []) texts → i < j ≤ length texts →
  unit_offset texts i < unit_offset texts j.
Proof.
  intros H. revert i j. induction H as [|t texts Ht _ IH]; intros i j Hij.
  - simpl in Hij. lia.
  - destruct j as [|j]; [lia|]. rewrite unit_offset_S.
    destruct i as [|i].
    + rewrite unit_offset_0. destruct t; [done|]. simpl. lia.
    + rewrite unit_offset_S. simpl in Hij.
      specialize (IH i j ltac:(lia)). lia.
Qed.

Lemma occurrences_self (s : pystr) : s ≠ [] → 0 ∈ occurrences s s.
Proof.
  destruct s as [|c s]; [done|]. intros _. unfold occurrences.
  cbn [occurrences_from].
  rewrite (proj2 (starts_with_spec (c :: s) (c :: s)))
    by (by rewrite firstn_all).
  apply list_elem_of_here.
Qed.

Lemma whole_units_all texts :
  Forall (λ t, t ≠ []) texts → texts ≠ [] →
  whole_units texts 0 (length (str_join texts)) = Some (0, length texts).
Proof.
  intros Hne Hnil. unfold whole_units.
  destruct texts as [|t texts]; [done|].
  cbn [length seq list_find]. rewrite decide_True by done.
  cbn [fmap option_fmap option_map mbind option_bind snd].
  rewrite Nat.sub_0_r.
  destruct (list_find_seq
              (λ j, unit_offset (t :: texts) j = 0 + length (str_join (t :: texts)))
              1 (S (length texts)))
    as [[_ Hno]|(k & -> & Hk & Hoff & Hmin)].
  - exfalso. apply (Hno (S (length texts))); [lia|].
    by rewrite unit_offset_all.
  - simpl. do 2 f_equal.
    destruct (decide (1 + k < S (length texts))) as [Hlt|?]; [|lia].
    exfalso.
    pose proof (unit_offset_strict (t :: texts) (1 + k) (S (length texts))
                  Hne ltac:(simpl; lia)) as Hs.
    rewrite (unit_offset_all _ (S (length texts))) in Hs by done.
    simpl in *. lia.
Qed.

(** A segment spelled exactly like an entry's pronunciation is found by
    partial mode as the whole segment, when the word occurs in the text
    and every unit of the segment has a transcription. *)
Lemma whole_segment_match_found q es text e j ap :
  get_accent_phrases q !! j = Some ap →
  Forall (λ m, get_text m ≠ []) (get_moras ap) →
  e ∈ es → word e ≠ [] → pronunciation e ≠ [] →
  pronunciation e = phrase_pronunciation_of (get_moras ap) →
  is_substring (word e) text →
  mk_match e j 0 (length (get_moras ap)) ∈ find_matches_with_text q es text.
Proof.
  intros Hj Hunits He Hw Hpron Hp Hword.
  rewrite find_matches_with_text_spec.
  destruct text as [|c text].
  { destruct Hword as (pre & post & Htext). destruct pre; [|done].
    simpl in Htext. by destruct (word e). }
  apply elem_of_flat_imap. exists j, ap. split; [done|]. simpl.
  unfold segment_matches. apply list_elem_of_bind. exists e.
  split; [|apply list_elem_of_filter; split;
             [by apply str_contains_spec|done]].
  apply list_elem_of_bind. exists 0.
  unfold phrase_pronunciation_of in Hp. rewrite Hp.
  split; [|apply occurrences_self; by rewrite <- Hp].
  assert (Forall (λ t, t ≠ []) (mora_texts_of (get_moras ap))) as Hne
    by (unfold mora_texts_of; by apply Forall_fmap).
  assert (mora_texts_of (get_moras ap) ≠ []) as Hnil.
  { intros E. apply Hpron. by rewrite Hp, E. }
  rewrite record_match_whole_units.
  - rewrite Hp, whole_units_all by done.
    unfold mora_texts_of. rewrite length_fmap. apply list_elem_of_here.
  - rewrite Hp. apply occurrences_self. by rewrite <- Hp.
  - apply list_elem_of_fmap. exists 0. split; [done|].
    apply elem_of_seq. destruct (mora_texts_of (get_moras ap)); [done|].
    simpl. lia.
Qed.

(** When every unit has a transcription and the entries are valid, a
    result of exact mode whose word occurs in the source text is also a
    result of partial mode for that text. *)
Theorem exact_matches_are_partial_matches q es text m :
  Forall entry_valid es → no_silent_units q →
  m ∈ find_matches q es → is_substring (word (entry m)) text →
  m ∈ find_matches_with_text q es text.
Proof.
  intros Hvalid Hunits Hm Hword.
  apply find_matches_elem in Hm as (j & ap & Hj & He & Hp & Hmk).
  destruct (proj1 (Forall_forall _ _) Hvalid _ He) as [Hw Hpron].
  rewrite Hmk. eapply whole_segment_match_found; try done.
  by eapply Forall_forall in Hunits; [|by eapply list_elem_of_lookup_2].
Qed.

Lemma exact_matches_are_partial_matches_witness :
  mk_match zundamon_entry 0 0 5 ∈
    find_matches (query_of [phrase_of_chars kata_zundamon]) [zundamon_entry] ∧
  mk_match zundamon_entry 0 0 5 ∈
    find_matches_with_text (query_of [phrase_of_chars kata_zundamon])
      [zundamon_entry] (hira_zundamon ++ hira_desu).
Proof.
  assert (mk_match zundamon_entry 0 0 5 ∈
            find_matches (query_of [phrase_of_chars kata_zundamon])
              [zundamon_entry]) as Hin
    by (vm_compute; apply list_elem_of_here).
  split; [exact Hin|].
  assert (Forall entry_valid [zundamon_entry]) as Hvalid
    by (repeat constructor; by vm_compute).
  assert (no_silent_units (query_of [phrase_of_chars kata_zundamon]))
    as Hunits by (vm_compute; repeat constructor; done).
  apply (exact_matches_are_partial_matches _ _ _ _ Hvalid Hunits Hin).
  by exists [], hira_desu.
Defined.

(* ================================================================== *)
(** * The order of the results of partial mode *)
(* ================================================================== *)

Lemma StronglySorted_lookup {A} (R : relation A) l i j x y :
  StronglySorted R l → i < j → l !! i = Some x → l !! j = Some y → R x y.
Proof.
  intros Hl. revert i j. induction Hl as [|z l Hl IH Hz]; intros i j Hij Hi Hj.
  - done.
  - destruct j as [|j]; [lia|]. destruct i as [|i]; simpl in *.
    + injection Hi as ->. eapply Forall_forall; [done|].
      by eapply list_elem_of_lookup_2.
    + apply (IH i j); [lia|done|done].
Qed.

Lemma StronglySorted_bind {A B} (R1 : relation A) (R2 : relation B)
    (f : A → list B) l :
  StronglySorted R1 l →
  (∀ x, x ∈ l → StronglySorted R2 (f x)) →
  (∀ x y u v, R1 x y → u ∈ f x → v ∈ f y → R2 u v) →
  StronglySorted R2 (l ≫= f).
Proof.
  intros Hl Hf HR. induction Hl as [|x l Hl IH Hx]; [constructor|].
  rewrite bind_cons. apply StronglySorted_app_2.
  - intros u v Hu (y & Hv & Hy)%list_elem_of_bind.
    apply (HR x y); [|done|done]. by eapply Forall_forall.
  - apply Hf, list_elem_of_here.
  - apply IH. intros y Hy. by apply Hf, list_elem_of_further.
Qed.

(** The occurrences come from left to right and do not overlap. *)
Lemma occurrences_from_sorted p : p ≠ [] → ∀ s i k,
  StronglySorted (λ a b, a + length p ≤ b) (occurrences_from p s i k) ∧
  Forall (λ a, i + k ≤ a) (occurrences_from p s i k).
Proof.
  intros Hp. assert (0 < length p) by (destruct p; [done|simpl; lia]).
  induction s as [|c s IH]; intros i k; simpl; [by split; constructor|].
  destruct k as [|k].
  - destruct (starts_with p (c :: s)).
    + destruct (IH (S i) (length p - 1)) as [Hs Hall]. split.
      * constructor; [done|]. eapply Forall_impl; [done|]. simpl. lia.
      * constructor; [lia|]. eapply Forall_impl; [done|]. simpl. lia.
    + destruct (IH (S i) 0) as [Hs Hall]. split; [done|].
      eapply Forall_impl; [done|]. simpl. lia.
  - destruct (IH (S i) k) as [Hs Hall]. split; [done|].
    eapply Forall_impl; [done|]. simpl. lia.
Qed.

Lemma occurrences_sorted s p :
  StronglySorted (λ a b, a + length p ≤ b) (occurrences s p).
Proof.
  unfold occurrences. destruct p as [|c p]; [constructor|].
  by apply occurrences_from_sorted.
Qed.

Lemma whole_units_Some texts pos len a b :
  whole_units texts pos len = Some (a, b) →
  a < b ∧ unit_offset texts a = pos ∧ unit_offset texts b = pos + len ∧
  ∀ j, a < j < b → unit_offset texts j ≠ pos + len.
Proof.
  unfold whole_units. intros Hw.
  destruct (list_find_seq (λ i, unit_offset texts i = pos) 0 (length texts))
    as [[E _]|(k & E & Hk & Hoff & _)]; rewrite E in Hw; [done|].
  simpl in Hw.
  destruct (list_find_seq (λ j, unit_offset texts j = pos + len) (S k)
              (length texts - k))
    as [[E' _]|(k' & E' & Hk' & Hoff' & Hmin)]; rewrite E' in Hw; [done|].
  simpl in Hw. injection Hw as <- <-.
  split; [lia|]. split; [done|]. split; [done|].
  intros j Hj. replace j with (S k + (j - S k)) by lia.
  apply Hmin. lia.
Qed.

Lemma whole_units_disjoint texts len pos1 pos2 a1 b1 a2 b2 :
  0 < len → pos1 + len ≤ pos2 →
  whole_units texts pos1 len = Some (a1, b1) →
  whole_units texts pos2 len = Some (a2, b2) →
  b1 ≤ a2.
Proof.
  intros Hlen Hpos (Hab1 & Ha1 & Hb1 & Hmin1)%whole_units_Some
    (Hab2 & Ha2 & Hb2 & _)%whole_units_Some.
  destruct (decide (b1 ≤ a2)) as [|Hgt]; [done|]. exfalso.
  pose proof (unit_offset_mono texts a2 b1 ltac:(lia)) as Hm.
  assert (unit_offset texts a2 = pos1 + len) as Heq by lia.
  destruct (decide (a1 < a2)) as [Hlt|Hge].
  - by apply (Hmin1 a2 ltac:(lia)).
  - pose proof (unit_offset_mono texts a2 a1 ltac:(lia)). lia.
Qed.

Lemma occurrence_matches_sorted texts e idx :
  StronglySorted precedes (occurrence_matches texts e idx) ∧
  Forall (λ m, accent_phrase_index m = Z.of_nat idx)
    (occurrence_matches texts e idx).
Proof.
  unfold occurrence_matches. split.
  - destruct (decide (pronunciation e = [])) as [->|Hne]; [constructor|].
    assert (0 < length (pronunciation e)) as Hlen
      by (destruct (pronunciation e); [done|simpl; lia]).
    eapply StronglySorted_bind; [apply occurrences_sorted| |].
    + intros pos _. destruct (whole_units _ _ _) as [[a b]|];
        repeat constructor.
    + intros pos1 pos2 u v Hpos Hu Hv.
      destruct (whole_units texts pos1 _) as [[a1 b1]|] eqn:E1;
        [|by apply elem_of_nil in Hu].
      destruct (whole_units texts pos2 _) as [[a2 b2]|] eqn:E2;
        [|by apply elem_of_nil in Hv].
      apply list_elem_of_singleton in Hu as ->.
      apply list_elem_of_singleton in Hv as ->.
      right. simpl. split; [done|].
      pose proof (whole_units_disjoint _ _ _ _ _ _ _ _ Hlen Hpos E1 E2). lia.
  - apply Forall_forall. intros m (pos & Hm & _)%list_elem_of_bind.
    destruct (whole_units _ _ _) as [[a b]|]; [|by apply elem_of_nil in Hm].
    by apply list_elem_of_singleton in Hm as ->.
Qed.

Lemma flat_imap_sorted {A} (f : nat → A → list MatchResult) i l :
  (∀ j x, StronglySorted precedes (f j x) ∧
          Forall (λ m, accent_phrase_index m = Z.of_nat j) (f j x)) →
  StronglySorted precedes (flat_imap f i l) ∧
  Forall (λ m, (Z.of_nat i ≤ accent_phrase_index m)%Z) (flat_imap f i l).
Proof.
  intros Hf. revert i. induction l as [|x l IH]; intros i; simpl.
  { split; constructor. }
  destruct (Hf i x) as [Hs Hidx]. destruct (IH (S i)) as [Hs' Hidx'].
  split.
  - apply StronglySorted_app_2; [|done|done].
    intros u v Hu Hv. left.
    pose proof (proj1 (Forall_forall _ _) Hidx _ Hu).
    pose proof (proj1 (Forall_forall _ _) Hidx' _ Hv). simpl in *. lia.
  - apply Forall_app. split.
    + eapply Forall_impl; [done|]. simpl. lia.
    + eapply Forall_impl; [done|]. simpl. lia.
Qed.

(** The results for one entry come in order and never overlap: when every
    occurrence of the pronunciation starts at a unit boundary, a result
    that comes earlier in the list lies in an earlier segment, or in the
    same segment on units that all come before those of the later
    result. *)
Theorem partial_matches_in_order q e text i1 i2 m1 m2 :
  occurrences_on_unit_starts q [e] text →
  i1 < i2 →
  find_matches_with_text q [e] text !! i1 = Some m1 →
  find_matches_with_text q [e] text !! i2 = Some m2 →
  precedes m1 m2.
Proof.
  intros Hstart. rewrite (find_matches_with_text_on_unit_starts _ _ _ Hstart).
  apply StronglySorted_lookup. unfold partial_matches.
  destruct text as [|c text]; [constructor|].
  apply flat_imap_sorted. intros j ap.
  destruct (filter_entries [e] (c :: text)) as [|e' [|e'' es']] eqn:E.
  - split; constructor.
  - rewrite bind_cons. change ([] ≫= _) with (@nil MatchResult).
    rewrite app_nil_r. apply occurrence_matches_sorted.
  - apply (f_equal length) in E. unfold filter_entries in E.
    pose proof (length_filter (λ e0, str_contains (c :: text) (word e0) = true)
                  [e]). simpl in *. lia.
Qed.

Lemma partial_matches_in_order_witness :
  find_matches_with_text zundamon_twice_query [zundamon_entry]
    (hira_zundamon ++ hira_to ++ hira_zundamon) !! 0 =
    Some (mk_match zundamon_entry 0 0 5) ∧
  find_matches_with_text zundamon_twice_query [zundamon_entry]
    (hira_zundamon ++ hira_to ++ hira_zundamon) !! 1 =
    Some (mk_match zundamon_entry 0 6 11) ∧
  precedes (mk_match zundamon_entry 0 0 5) (mk_match zundamon_entry 0 6 11).
Proof.
  assert (occurrences_on_unit_starts zundamon_twice_query [zundamon_entry]
            (hira_zundamon ++ hira_to ++ hira_zundamon)) as H.
  { apply (bool_decide_unpack _). vm_compute. exact I. }
  assert (find_matches_with_text zundamon_twice_query [zundamon_entry]
            (hira_zundamon ++ hira_to ++ hira_zundamon) !! 0 =
          Some (mk_match zundamon_entry 0 0 5)) as H0
    by (vm_compute; reflexivity).
  assert (find_matches_with_text zundamon_twice_query [zundamon_entry]
            (hira_zundamon ++ hira_to ++ hira_zundamon) !! 1 =
          Some (mk_match zundamon_entry 0 6 11)) as H1
    by (vm_compute; reflexivity).
  split; [exact H0|]. split; [exact H1|].
  exact (partial_matches_in_order _ _ _ 0 1 _ _ H ltac:(lia) H0 H1).
Defined.

(* ================================================================== *)
(** * More on the overlay engine *)
(* ================================================================== *)

Lemma get_accent_phrases_with q aps aps' :
  aq_accent_phrases q = Some aps →
  get_accent_phrases (with_accent_phrases q aps') = aps'.
Proof. unfold get_accent_phrases, with_accent_phrases. simpl. by intros ->. Qed.

Lemma get_moras_with_moras_length ap ms :
  length ms = length (get_moras ap) →
  length (get_moras (with_moras ap ms)) = length (get_moras ap).
Proof.
  unfold get_moras, with_moras. simpl. by destruct (ap_moras ap).
Qed.

(** The units of the overlaid segment, one by one. *)
Lemma get_moras_overlaid ap pv lv k0 k :
  get_moras (with_moras ap
               (overlay_units set_vowel_length
                  (overlay_units set_pitch (get_moras ap) k0 pv) k0 lv)) !! k =
  (λ m, overlay_unit set_vowel_length lv k0 k
          (overlay_unit set_pitch pv k0 k m)) <$> get_moras ap !! k.
Proof.
  unfold get_moras at 1, with_moras. simpl.
  destruct (ap_moras ap) as [ms|] eqn:E; simpl.
  - rewrite !overlay_units_lookup. unfold get_moras. rewrite E. simpl.
    by destruct (ms !! k).
  - unfold get_moras. by rewrite E.
Qed.

Lemma partial_match_result_units q e idx s t q' :
  partial_match_result q e idx s t = Ok q' →
  ∃ aps j ap ap',
    aq_accent_phrases q = Some aps ∧
    py_index (length aps) idx = Some j ∧ aps !! j = Some ap ∧
    (0 ≤ s)%Z ∧ (t ≤ Z.of_nat (length (get_moras ap)))%Z ∧
    ¬ mismatch (pitch_values e) (t - s) ∧
    ¬ mismatch (length_values e) (t - s) ∧
    q' = with_accent_phrases q (<[j := ap']> aps) ∧
    get_accent_phrases q' = <[j := ap']> aps ∧
    ap_other ap' = ap_other ap ∧
    (ap_moras ap = None ↔ ap_moras ap' = None) ∧
    ∀ k, get_moras ap' !! k =
         (λ m, overlay_unit set_vowel_length (default [] (length_values e))
                 (Z.to_nat s) k
                 (overlay_unit set_pitch (default [] (pitch_values e))
                    (Z.to_nat s) k m)) <$> get_moras ap !! k.
Proof.
  intros (aps & j & ap & Haps & Hidx & Hj & Hs & Ht & Hp & Hl & ->)
    %partial_match_result_Ok.
  eexists aps, j, ap, _. repeat split; try done.
  - by erewrite get_accent_phrases_with.
  - unfold with_moras. simpl. by intros ->.
  - unfold with_moras. simpl. by destruct (ap_moras ap).
  - intros k. apply get_moras_overlaid.
Qed.

Lemma list_fmap_insert_same {A B} (f : A → B) (l : list A) j x y :
  l !! j = Some x → f y = f x → f <$> <[j := y]> l = f <$> l.
Proof.
  intros Hj Hf. rewrite list_fmap_insert, Hf.
  apply list_insert_id. by rewrite list_lookup_fmap, Hj.
Qed.

Lemma overlaid_unit_text pv lv k0 k m :
  get_text (overlay_unit set_vowel_length lv k0 k
              (overlay_unit set_pitch pv k0 k m)) = get_text m.
Proof.
  unfold get_text.
  destruct (overlay_unit_set_vowel_length lv k0 k
              (overlay_unit set_pitch pv k0 k m)) as (-> & _).
  by destruct (overlay_unit_set_pitch pv k0 k m) as (-> & _).
Qed.

(** A successful overlay changes neither the transcription nor the number
    of units. *)
Lemma partial_match_result_shape q e idx s t q' :
  partial_match_result q e idx s t = Ok q' →
  transcription q' = transcription q ∧
  aq_other q' = aq_other q ∧
  total_moras (get_accent_phrases q') = total_moras (get_accent_phrases q).
Proof.
  intros (aps & j & ap & ap' & Haps & Hidx & Hj & Hs & Ht & Hp & Hl & -> & Hq'
          & Hother & Hnone & Hunits)%partial_match_result_units.
  assert (mora_texts_of (get_moras ap') = mora_texts_of (get_moras ap))
    as Htexts.
  { unfold mora_texts_of. apply list_eq. intros k.
    rewrite !list_lookup_fmap, Hunits.
    destruct (get_moras ap !! k) as [m|]; simpl; [|done].
    by rewrite overlaid_unit_text. }
  unfold transcription. rewrite Hq'.
  assert (get_accent_phrases q = aps) as ->
    by (unfold get_accent_phrases; by rewrite Haps).
  split; [by apply list_fmap_insert_same with ap|]. split; [done|].
  apply total_moras_insert with ap; [done|].
  apply (f_equal length) in Htexts. unfold mora_texts_of in Htexts.
  by rewrite !length_fmap in Htexts.
Qed.

(** Overlaying does not disturb the matcher: the query returned by a
    successful [apply_partial_match] has the transcription of the
    argument, so both matching modes and [extract_pronunciation] give the
    same results on it. *)
Theorem overlay_keeps_matches h l q e idx s t l' :
  read_query h l = Some q →
  (apply_partial_match l e idx s t h).2 = Ok l' →
  ∃ q', read_query (apply_partial_match l e idx s t h).1 l' = Some q' ∧
        transcription q' = transcription q ∧
        extract_pronunciation q' = extract_pronunciation q ∧
        ∀ es text,
          find_matches q' es = find_matches q es ∧
          find_matches_with_text q' es text =
            find_matches_with_text q es text.
Proof.
  intros Hq Hok.
  destruct (apply_partial_match_spec h l q e idx s t Hq) as (ext & Hh & Hr).
  destruct (partial_match_result q e idx s t) as [q'|ex] eqn:Hres;
    [|by rewrite Hr in Hok].
  destruct Hr as [-> Hr]. rewrite Hr in Hok. injection Hok as <-.
  exists q'. rewrite Hh.
  split; [apply read_query_fresh|].
  destruct (partial_match_result_shape _ _ _ _ _ _ Hres) as (Ht & _ & _).
  split; [done|].
  split; [by rewrite !extract_pronunciation_transcription, Ht|].
  intros es text.
  by rewrite !find_matches_transcription,
    !find_matches_with_text_transcription, Ht.
Qed.

Lemma overlay_keeps_matches_witness :
  let q := zundamon_desu_query in
  let r := apply_partial_match (ref_of q) zundamon_pitched_entry 0 0 5
             (store_of q) in
  ∃ l' q', r.2 = Ok l' ∧ read_query r.1 l' = Some q' ∧ q' ≠ q ∧
    find_matches_with_text q' [zundamon_pitched_entry]
      (hira_zundamon ++ hira_desu) =
    [mk_match zundamon_pitched_entry 0 0 5].
Proof.
  intros q r.
  assert (r.2 = Ok 21) as Hok by (vm_compute; reflexivity).
  destruct (overlay_keeps_matches _ _ _ _ _ _ _ _ (store_of_read q) Hok)
    as (q' & Hread & _ & _ & Hsame).
  exists 21, q'. split; [done|]. split; [done|].
  split.
  - intros ->. revert Hread. vm_compute. by intros [=].
  - rewrite (proj2 (Hsame _ _)). vm_compute. reflexivity.
Defined.




Lemma length_lookup_eq {A B} (l1 : list A) (l2 : list B) :
  (∀ k, is_Some (l1 !! k) ↔ is_Some (l2 !! k)) → length l1 = length l2.
Proof.
  intros H. apply Nat.le_antisymm; apply Nat.nlt_ge; intros Hlt.
  - apply lookup_lt_is_Some_2, H, lookup_lt_is_Some_1 in Hlt. lia.
  - apply lookup_lt_is_Some_2, H, lookup_lt_is_Some_1 in Hlt. lia.
Qed.

Lemma overlaid_unit_twice pv lv k0 k m :
  let f := λ m, overlay_unit set_vowel_length lv k0 k
                  (overlay_unit set_pitch pv k0 k m) in
  f (f m) = f m.
Proof.
  unfold overlay_unit. case_decide; [|done].
  by destruct (lv !! (k - k0)), (pv !! (k - k0)).
Qed.

(** Applying an entry again at the same place changes nothing more. *)
Lemma partial_match_result_twice q e idx s t q' :
  partial_match_result q e idx s t = Ok q' →
  partial_match_result q' e idx s t = Ok q'.
Proof.
  intros (aps & j & ap & ap' & Haps & Hidx & Hj & Hs & Ht & Hp & Hl & -> & Hq'
          & Hother & Hnone & Hunits)%partial_match_result_units.
  pose proof (lookup_lt_Some _ _ _ Hj) as Hjlt.
  assert (length (get_moras ap') = length (get_moras ap)) as Hlen.
  { apply length_lookup_eq. intros k. rewrite Hunits.
    by rewrite fmap_is_Some. }
  unfold partial_match_result. rewrite Hq', length_insert.
  rewrite Hidx, list_lookup_insert_eq by done. rewrite Hlen.
  destruct (decide (Z.of_nat (length aps) ≤ idx)%Z) as [Hbad|_].
  { unfold py_index in Hidx. repeat case_decide; try done; lia. }
  rewrite decide_False by lia. rewrite !decide_False by done.
  f_equal. rewrite with_accent_phrases_twice, list_insert_insert_eq.
  do 2 f_equal.
  destruct (ap_moras ap') as [ms'|] eqn:E.
  - unfold overlay_dimension.
    assert (ap' = with_moras ap' ms') as Hap' by (by rewrite with_moras_id).
    rewrite Hap' at 3. f_equal. apply list_eq. intros k.
    pose proof (get_moras_overlaid ap' (default [] (pitch_values e))
                  (default [] (length_values e)) (Z.to_nat s) k) as Hk.
    rewrite get_moras_with_moras with (ms0 := ms') in Hk by done.
    rewrite Hk, Hunits.
    assert (get_moras ap' = ms') as <- by (unfold get_moras; by rewrite E).
    rewrite Hunits. destruct (get_moras ap !! k) as [m|]; simpl; [|done].
    f_equal. apply overlaid_unit_twice.
  - by rewrite !with_moras_None.
Qed.

(** [apply_partial_match] is idempotent: applying the same entry at the
    same coordinates to the query it returned succeeds and returns an
    equal query. *)
Theorem apply_partial_match_idempotent h l q e idx s t l1 :
  read_query h l = Some q →
  (apply_partial_match l e idx s t h).2 = Ok l1 →
  let h1 := (apply_partial_match l e idx s t h).1 in
  ∃ q' l2, read_query h1 l1 = Some q' ∧
           (apply_partial_match l1 e idx s t h1).2 = Ok l2 ∧
           read_query (apply_partial_match l1 e idx s t h1).1 l2 = Some q'.
Proof.
  intros Hq Hok h1.
  destruct (apply_partial_match_spec h l q e idx s t Hq) as (ext & Hh & Hr).
  destruct (partial_match_result q e idx s t) as [q'|ex] eqn:Hres;
    [|by rewrite Hr in Hok].
  destruct Hr as [-> Hr]. rewrite Hr in Hok. injection Hok as <-.
  assert (read_query h1 (query_root (length h) q') = Some q') as Hq1.
  { subst h1. rewrite Hh. apply read_query_fresh. }
  destruct (apply_partial_match_spec h1 _ q' e idx s t Hq1)
    as (ext' & Hh' & Hr').
  rewrite (partial_match_result_twice _ _ _ _ _ _ Hres) in Hr'.
  destruct Hr' as [-> Hr'].
  exists q', (query_root (length h1) q'). split; [done|]. split; [done|].
  rewrite Hh'. apply read_query_fresh.
Qed.

Lemma apply_partial_match_idempotent_witness :
  let r := apply_partial_match (ref_of a_query) a_entry 0 0 1
             (store_of a_query) in
  r.2 = Ok 9 ∧
  ∃ q' l2, read_query r.1 9 = Some q' ∧
           (apply_partial_match 9 a_entry 0 0 1 r.1).2 = Ok l2 ∧
           read_query (apply_partial_match 9 a_entry 0 0 1 r.1).1 l2
           = Some q'.
Proof.
  intros r.
  assert (r.2 = Ok 9) as Hok by (vm_compute; reflexivity).
  split; [exact Hok|].
  exact (apply_partial_match_idempotent _ _ _ _ _ _ _ _
           (store_of_read a_query) Hok).
Defined.

(** ** [_deep_copy_query] and [_get_total_mora_count] *)

(** [_deep_copy_query] returns a query equal to its argument, made of new
    objects only: the argument is left as it was, no later assignment to
    an object of the argument shows in the copy, and none to an object of
    the copy shows in the argument. *)
Theorem deep_copy_query_independent h l q :
  read_query h l = Some q →
  ∃ l', (_deep_copy_query l h).2 = Ok l' ∧
    h `prefix_of` (_deep_copy_query l h).1 ∧
    length h ≤ l' ∧
    read_query (_deep_copy_query l h).1 l' = Some q ∧
    read_query (_deep_copy_query l h).1 l = Some q ∧
    ∀ a o,
      (a < length h →
       read_query (<[a := o]> (_deep_copy_query l h).1) l' = Some q) ∧
      (length h ≤ a →
       read_query (<[a := o]> (_deep_copy_query l h).1) l = Some q).
Proof.
  intros Hq. rewrite (deep_copy_query_run h h l q Hq) by done. simpl.
  exists (query_root (length h) q). split; [done|].
  split; [by apply prefix_app_r|]. split; [apply query_root_fresh|].
  split; [apply read_query_fresh|].
  split; [eapply read_query_prefix; [by apply prefix_app_r|done]|].
  intros a o. split; intros Ha.
  - by apply read_query_encoded_insert_old.
  - by apply read_query_insert_new.
Qed.

Lemma deep_copy_query_independent_witness :
  ∃ l', (_deep_copy_query (ref_of a_query) (store_of a_query)).2 = Ok l' ∧
        read_query (_deep_copy_query (ref_of a_query) (store_of a_query)).1 l'
        = Some a_query ∧
        length (_deep_copy_query (ref_of a_query) (store_of a_query)).1 = 10.
Proof.
  destruct (deep_copy_query_independent _ _ _ (store_of_read a_query))
    as (l' & Hl' & _ & _ & Hread & _).
  exists l'. split; [done|]. split; [done|]. vm_compute. reflexivity.
Defined.

Lemma dict_get_accent_phrases_read h l q :
  read_query h l = Some q →
  ∃ ls, dict_get_accent_phrases l h = (h, Ok ls) ∧
        Forall2 (λ pl ap, read_accent_phrase h pl = Some ap) ls
          (get_accent_phrases q).
Proof.
  intros (pl & Hl & Haps)%read_query_Some.
  unfold dict_get_accent_phrases, get_accent_phrases.
  rewrite (bind_ok _ _ _ _ _ (load_run _ _ _ Hl)).
  destruct pl as [p|]; simpl in Haps.
  - destruct (read_list (read_accent_phrase h) h p) as [aps|] eqn:E; [|done].
    injection Haps as <-. unfold read_list in E.
    destruct (h !! p) as [[|ls| |]|] eqn:Hp; try done.
    exists ls. split; [by apply load_list_run|]. by apply mapM_Some.
  - injection Haps as <-. by exists [].
Qed.

Lemma dict_get_moras_read h pl ap :
  read_accent_phrase h pl = Some ap →
  ∃ ms, dict_get_moras pl h = (h, Ok ms) ∧
        length ms = length (get_moras ap).
Proof.
  intros (ml & Hl & Hms)%read_accent_phrase_Some.
  unfold dict_get_moras, get_moras.
  rewrite (bind_ok _ _ _ _ _ (load_run _ _ _ Hl)).
  destruct ml as [p|]; simpl in Hms.
  - destruct (read_list (read_mora h) h p) as [ms|] eqn:E; [|done].
    injection Hms as <-. unfold read_list in E.
    destruct (h !! p) as [[|ls| |]|] eqn:Hp; try done.
    exists ls. split; [by apply load_list_run|].
    apply mapM_Some in E. by eapply Forall2_length.
  - injection Hms as <-. by exists [].
Qed.

Lemma count_moras_read h ls aps :
  Forall2 (λ pl ap, read_accent_phrase h pl = Some ap) ls aps →
  ∀ total, count_moras ls total h = (h, Ok (total + total_moras aps)).
Proof.
  induction 1 as [|pl ap ls aps Hap _ IH]; intros total; simpl.
  - unfold total_moras. simpl. by rewrite Nat.add_0_r.
  - destruct (dict_get_moras_read _ _ _ Hap) as (ms & Hrun & Hlen).
    rewrite (bind_ok _ _ _ _ _ Hrun), IH, total_moras_cons, Hlen.
    do 2 f_equal. lia.
Qed.

Lemma get_total_mora_count_run h l q :
  read_query h l = Some q →
  _get_total_mora_count l h = (h, Ok (total_moras (get_accent_phrases q))).
Proof.
  intros Hq. destruct (dict_get_accent_phrases_read _ _ _ Hq)
    as (ls & Hrun & Hall).
  unfold _get_total_mora_count. rewrite (bind_ok _ _ _ _ _ Hrun).
  by rewrite (count_moras_read _ _ _ Hall).
Qed.

(** [_get_total_mora_count] leaves the store alone and returns the sum of
    the unit counts of the segments, a segment without the [moras] key and
    a query without the [accent_phrases] key counting for nothing. *)
Theorem get_total_mora_count_sum h l q :
  read_query h l = Some q →
  _get_total_mora_count l h =
    (h, Ok (sum_list (length ∘ get_moras <$> get_accent_phrases q))) ∧
  (aq_accent_phrases q = None → (_get_total_mora_count l h).2 = Ok 0).
Proof.
  intros Hq. rewrite (get_total_mora_count_run _ _ _ Hq).
  assert (∀ aps, total_moras aps = sum_list (length ∘ get_moras <$> aps))
    as Hsum.
  { induction aps as [|ap aps IH]; [done|].
    rewrite total_moras_cons, IH. done. }
  split; [by rewrite Hsum|].
  intros Hnone. unfold get_accent_phrases. by rewrite Hnone.
Qed.

Lemma get_total_mora_count_sum_witness :
  _get_total_mora_count (ref_of konnichiwa_zundamon_query)
    (store_of konnichiwa_zundamon_query) =
  (store_of konnichiwa_zundamon_query, Ok 12).
Proof.
  exact (proj1 (get_total_mora_count_sum _ _ _
                  (store_of_read konnichiwa_zundamon_query))).
Defined.

Lemma overlay_phrase_length set vs k0 first ap :
  length (get_moras (overlay_phrase set vs k0 first ap)) =
  length (get_moras ap).
Proof.
  unfold overlay_phrase. apply get_moras_with_moras_length.
  by rewrite length_imap.
Qed.

Lemma total_moras_imap (f : nat → AccentPhrase → AccentPhrase) aps :
  (∀ j ap, length (get_moras (f j ap)) = length (get_moras ap)) →
  total_moras (imap f aps) = total_moras aps.
Proof.
  intros Hf. revert f Hf. induction aps as [|ap aps IH]; intros f Hf;
    [done|].
  rewrite imap_cons, !total_moras_cons, Hf, IH; [done|].
  intros j ap'. apply Hf.
Qed.

Lemma overlay_query_total set vs k0 q :
  total_moras (get_accent_phrases (overlay_query set vs k0 q)) =
  total_moras (get_accent_phrases q).
Proof.
  unfold overlay_query.
  destruct (aq_accent_phrases q) as [aps|] eqn:E.
  - rewrite (get_accent_phrases_with _ _ _ E).
    apply total_moras_imap. intros. apply overlay_phrase_length.
  - by rewrite with_accent_phrases_None.
Qed.

(** No overlay operation adds or removes a unit: on the query returned by
    a successful [apply_partial_match], [apply_pitch_values] or
    [apply_length_values], [_get_total_mora_count] returns what it returns
    on the argument. *)
Theorem overlays_keep_total_mora_count h l q :
  read_query h l = Some q →
  (∀ e idx s t l',
     (apply_partial_match l e idx s t h).2 = Ok l' →
     (_get_total_mora_count l' (apply_partial_match l e idx s t h).1).2 =
     (_get_total_mora_count l h).2) ∧
  (∀ vs start l',
     (apply_pitch_values l vs start h).2 = Ok l' →
     (_get_total_mora_count l' (apply_pitch_values l vs start h).1).2 =
     (_get_total_mora_count l h).2) ∧
  (∀ vs start l',
     (apply_length_values l vs start h).2 = Ok l' →
     (_get_total_mora_count l' (apply_length_values l vs start h).1).2 =
     (_get_total_mora_count l h).2).
Proof.
  intros Hq. rewrite (get_total_mora_count_run _ _ _ Hq). simpl.
  assert (∀ set vs start l',
            (apply_values set l vs start h).2 = Ok l' →
            (_get_total_mora_count l' (apply_values set l vs start h).1).2 =
            Ok (total_moras (get_accent_phrases q))) as Hvalues.
  { intros set vs start l' Hok.
    destruct (apply_values_run set h l q vs start Hq) as (qc & Hrun & Hqc).
    rewrite Hrun in Hok |- *. simpl in Hok |- *.
    destruct (apply_values_result set q vs start) as [q'|ex] eqn:Hres;
      [|done].
    injection Hok as <-. rewrite (Hqc q' eq_refl).
    rewrite (get_total_mora_count_run _ _ _ (read_query_fresh h q')). simpl.
    f_equal. unfold apply_values_result in Hres.
    destruct vs as [|v vs]; [by injection Hres as <-|].
    case_decide; [done|]. injection Hres as <-.
    apply overlay_query_total. }
  split; [|split; intros; by apply Hvalues].
  intros e idx s t l' Hok.
  destruct (apply_partial_match_spec h l q e idx s t Hq) as (ext & Hh & Hr).
  destruct (partial_match_result q e idx s t) as [q'|ex] eqn:Hres;
    [|by rewrite Hr in Hok].
  destruct Hr as [-> Hr]. rewrite Hr in Hok. injection Hok as <-.
  rewrite Hh, (get_total_mora_count_run _ _ _ (read_query_fresh h q')).
  simpl. f_equal.
  by destruct (partial_match_result_shape _ _ _ _ _ _ Hres) as (_ & _ & ->).
Qed.

Lemma overlays_keep_total_mora_count_witness :
  let q := zundamon_desu_query in
  let r := apply_partial_match (ref_of q) zundamon_pitched_entry 0 0 5
             (store_of q) in
  r.2 = Ok 21 ∧ (_get_total_mora_count 21 r.1).2 = Ok 7.
Proof.
  intros q r.
  assert (r.2 = Ok 21) as Hok by (vm_compute; reflexivity).
  split; [exact Hok|].
  etransitivity;
    [exact (proj1 (overlays_keep_total_mora_count _ _ _ (store_of_read q))
              _ _ _ _ _ Hok)|].
  vm_compute. reflexivity.
Defined.

(** ** [apply_extended_dict] and the whole-query operations together *)

Lemma units_before_imap (f : nat → AccentPhrase → AccentPhrase) aps j :
  (∀ i ap, length (get_moras (f i ap)) = length (get_moras ap)) →
  units_before (imap f aps) j = units_before aps j.
Proof.
  intros Hf. unfold units_before. revert f j Hf.
  induction aps as [|ap aps IH]; intros f j Hf; [by destruct j|].
  destruct j as [|j]; [done|].
  rewrite imap_cons, !firstn_cons, !total_moras_cons, Hf, IH; [done|].
  intros. apply Hf.
Qed.

Lemma get_moras_overlay_phrase set vs k0 first ap :
  get_moras (overlay_phrase set vs k0 first ap) =
  imap (λ k m, overlay_unit set vs k0 (first + k) m) (get_moras ap).
Proof.
  unfold overlay_phrase, get_moras, with_moras. simpl.
  by destruct (ap_moras ap).
Qed.

(** Two whole-query overlays in a row, unit by unit. *)
Lemma overlay_query_twice set1 vs1 k1 set2 vs2 k2 q :
  overlay_query set2 vs2 k2 (overlay_query set1 vs1 k1 q) =
  with_accent_phrases q
    (imap (λ j ap,
             with_moras ap
               (imap (λ k m,
                        overlay_unit set2 vs2 k2
                          (units_before (get_accent_phrases q) j + k)
                          (overlay_unit set1 vs1 k1
                             (units_before (get_accent_phrases q) j + k) m))
                  (get_moras ap)))
       (get_accent_phrases q)).
Proof.
  unfold overlay_query at 1.
  destruct (aq_accent_phrases q) as [aps|] eqn:E.
  - unfold overlay_query. rewrite (get_accent_phrases_with _ _ _ E).
    rewrite with_accent_phrases_twice. f_equal.
    assert (get_accent_phrases q = aps) as ->
      by (unfold get_accent_phrases; by rewrite E).
    apply list_eq. intros j. rewrite !list_lookup_imap.
    destruct (aps !! j) as [ap|]; simpl; [|done]. f_equal.
    rewrite units_before_imap by (intros; apply overlay_phrase_length).
    unfold overlay_phrase at 1. rewrite get_moras_overlay_phrase.
    unfold overlay_phrase. rewrite with_moras_twice. f_equal.
    apply list_eq. intros k. rewrite !list_lookup_imap.
    by destruct (get_moras ap !! k).
  - destruct q as [aps0 other]. simpl in E. subst aps0. reflexivity.
Qed.

Lemma overlay_unit_nil set k0 g m : overlay_unit set [] k0 g m = m.
Proof. unfold overlay_unit. by case_decide. Qed.

Lemma imap_id_ext {A} (f : nat → A → A) (l : list A) :
  (∀ i x, f i x = x) → imap f l = l.
Proof.
  intros Hf. revert f Hf. induction l as [|x l IH]; intros f Hf; [done|].
  rewrite imap_cons, Hf, IH; [done|]. intros. apply Hf.
Qed.

Lemma with_moras_get_moras ap : with_moras ap (get_moras ap) = ap.
Proof.
  destruct ap as [[ms|] other]; unfold with_moras, get_moras; done.
Qed.

Lemma with_accent_phrases_get q :
  with_accent_phrases q (get_accent_phrases q) = q.
Proof.
  destruct q as [[aps|] other]; unfold with_accent_phrases,
    get_accent_phrases; done.
Qed.

Lemma overlay_query_nil set k0 q : overlay_query set [] k0 q = q.
Proof.
  unfold overlay_query. rewrite imap_id_ext; [apply with_accent_phrases_get|].
  intros j ap. unfold overlay_phrase.
  rewrite imap_id_ext; [apply with_moras_get_moras|].
  intros. apply overlay_unit_nil.
Qed.

(** One "apply ... values if present" step of [apply_extended_dict]. *)
Lemma apply_values_if_present set h l q (values : option (list pyfloat))
    start :
  read_query h l = Some q →
  let step := match values with
              | Some ((_ :: _) as vs) => apply_values set l vs start
              | _ => mret l
              end in
  ∃ ext, (step h).1 = h ++ ext ∧
    if decide (mismatch values
                 (Z.of_nat (total_moras (get_accent_phrases q)) - start))
    then (step h).2 = Raise (ValueError MoraCountMismatch)
    else ∃ l', (step h).2 = Ok l' ∧ (l' = l ∨ length h ≤ l') ∧
               read_query (h ++ ext) l' =
               Some (overlay_query set (default [] values)
                       (Z.to_nat start) q).
Proof.
  intros Hq step. subst step.
  destruct values as [[|v vs]|]; lazy beta iota zeta.
  1,3: exists []; rewrite app_nil_r; split; [done|]; simpl;
       exists l; rewrite overlay_query_nil; by repeat split; auto.
  destruct (apply_values_run set h l q (v :: vs) start Hq)
    as (qc & -> & Hqc).
  eexists. split; [done|]. cbn [snd default mismatch].
  unfold apply_values_result in *.
  destruct (decide (Z.of_nat (length (v :: vs)) ≠ _)) as [Hne|Heq].
  - done.
  - rewrite (Hqc _ eq_refl).
    eexists. split; [done|]. split; [right; apply query_root_fresh|].
    apply read_query_fresh.
Qed.

(** The run of [apply_extended_dict] on a readable query. *)
Lemma apply_extended_dict_run h l q e match_result :
  read_query h l = Some q →
  let start := default 0%Z (mr_start_mora_index match_result) in
  let rest := (Z.of_nat (total_moras (get_accent_phrases q)) - start)%Z in
  h `prefix_of` (apply_extended_dict l e match_result h).1 ∧
  read_query (apply_extended_dict l e match_result h).1 l = Some q ∧
  (mismatch (pitch_values e) rest ∨ mismatch (length_values e) rest →
   (apply_extended_dict l e match_result h).2 =
   Raise (ValueError MoraCountMismatch)) ∧
  (¬ mismatch (pitch_values e) rest → ¬ mismatch (length_values e) rest →
   ∃ l', (apply_extended_dict l e match_result h).2 = Ok l' ∧
         length h ≤ l' ∧
         read_query (apply_extended_dict l e match_result h).1 l' =
         Some (overlay_query set_vowel_length
                 (default [] (length_values e)) (Z.to_nat start)
                 (overlay_query set_pitch (default [] (pitch_values e))
                    (Z.to_nat start) q))).
Proof.
  intros Hq start rest. unfold apply_extended_dict. fold start.
  rewrite (bind_ok _ _ _ _ _ (deep_copy_query_run h h l q Hq ltac:(done))).
  set (h0 := h ++ encode_query (length h) q).
  set (l0 := query_root (length h) q).
  assert (read_query h0 l0 = Some q) as Hq0 by apply read_query_fresh.
  assert (h `prefix_of` h0) as Hp0 by by apply prefix_app_r.
  assert (length h ≤ l0) as Hl0 by apply query_root_fresh.
  assert (length h ≤ length h0) as Hlen0
    by (subst h0; rewrite length_app; lia).
  destruct (apply_values_if_present set_pitch h0 l0 q (pitch_values e)
              start Hq0) as (ext1 & Hh1 & Hr1).
  unfold apply_pitch_values, apply_length_values.
  destruct (match pitch_values e with
            | Some ((_ :: _) as vs) => apply_values set_pitch l0 vs start
            | _ => mret l0
            end h0) as [h1 r1] eqn:Hstep1.
  simpl in Hh1, Hr1. subst h1. fold rest in Hr1.
  destruct (decide (mismatch (pitch_values e) rest)) as [Hm1|Hm1].
  { subst r1. rewrite (bind_raise _ _ _ _ _ Hstep1). simpl.
    split; [by etrans; [|apply prefix_app_r]|].
    split; [eapply read_query_prefix; [|done];
            by etrans; [|apply prefix_app_r]|].
    split; [done|]. by intros ?. }
  destruct Hr1 as (l1 & -> & Hl1 & Hq1).
  rewrite (bind_ok _ _ _ _ _ Hstep1).
  assert (total_moras (get_accent_phrases
            (overlay_query set_pitch (default [] (pitch_values e))
               (Z.to_nat start) q)) =
          total_moras (get_accent_phrases q)) as Htot
    by apply overlay_query_total.
  destruct (apply_values_if_present set_vowel_length (h0 ++ ext1) l1 _
              (length_values e) start Hq1) as (ext2 & Hh2 & Hr2).
  rewrite Htot in Hr2. fold rest in Hr2.
  destruct (match length_values e with
            | Some ((_ :: _) as vs) =>
                apply_values set_vowel_length l1 vs start
            | _ => mret l1
            end (h0 ++ ext1)) as [h2 r2] eqn:Hstep2.
  simpl in Hh2, Hr2. subst h2. simpl.
  assert (h `prefix_of` (h0 ++ ext1) ++ ext2) as Hp2.
  { etrans; [exact Hp0|]. etrans; apply prefix_app_r; done. }
  split; [done|]. split; [by eapply read_query_prefix|].
  destruct (decide (mismatch (length_values e) rest)) as [Hm2|Hm2].
  { subst r2. split; [done|]. by intros _ ?. }
  destruct Hr2 as (l2 & -> & Hl2 & Hq2).
  split; [by intros [?|?]|]. intros _ _.
  exists l2. split; [done|]. split; [|done].
  rewrite length_app in Hl2. destruct Hl2 as [->|?]; [|lia].
  destruct Hl1 as [->|?]; lia.
Qed.



Lemma apply_values_result_Ok set q vs start q' :
  apply_values_result set q vs start = Ok q' ↔
  (vs = [] ∨ Z.of_nat (length vs) =
             (Z.of_nat (total_moras (get_accent_phrases q)) - start)%Z) ∧
  q' = overlay_query set vs (Z.to_nat start) q.
Proof.
  unfold apply_values_result. destruct vs as [|v vs].
  - rewrite overlay_query_nil. split; [intros [= <-]; auto|].
    by intros [_ ->].
  - case_decide as E; split.
    + done.
    + intros [[?|?] _]; done.
    + intros [= <-]. split; [right|done].
      by destruct (decide (Z.of_nat (length (v :: vs)) =
        (Z.of_nat (total_moras (get_accent_phrases q)) - start)%Z)).
    + by intros [_ ->].
Qed.

Lemma overlay_unit_commute kp kl pv lv g m :
  overlay_unit set_vowel_length lv kl g (overlay_unit set_pitch pv kp g m) =
  overlay_unit set_pitch pv kp g (overlay_unit set_vowel_length lv kl g m).
Proof.
  unfold overlay_unit. do 2 case_decide; try done.
  by destruct (lv !! (g - kl)), (pv !! (g - kp)).
Qed.

Lemma overlay_query_commute kp kl pv lv q :
  overlay_query set_vowel_length lv kl (overlay_query set_pitch pv kp q) =
  overlay_query set_pitch pv kp (overlay_query set_vowel_length lv kl q).
Proof.
  rewrite !overlay_query_twice. f_equal. apply imap_ext. intros j ap _.
  simpl. f_equal. apply imap_ext. intros k m _. simpl.
  apply overlay_unit_commute.
Qed.

(** Run of one whole-query operation on a readable query. *)
Lemma apply_values_Ok set h l q vs start l' :
  read_query h l = Some q →
  (apply_values set l vs start h).2 = Ok l' →
  (vs = [] ∨ Z.of_nat (length vs) =
             (Z.of_nat (total_moras (get_accent_phrases q)) - start)%Z) ∧
  read_query (apply_values set l vs start h).1 l' =
  Some (overlay_query set vs (Z.to_nat start) q).
Proof.
  intros Hq Hok.
  destruct (apply_values_run set h l q vs start Hq) as (qc & Hrun & Hqc).
  rewrite Hrun in Hok |- *. simpl in Hok |- *.
  destruct (apply_values_result set q vs start) as [q'|ex] eqn:Hres; [|done].
  injection Hok as <-. rewrite (Hqc _ eq_refl).
  apply apply_values_result_Ok in Hres as [Hlen ->].
  split; [done|]. apply read_query_fresh.
Qed.

Lemma apply_values_succeeds set h l q vs start :
  read_query h l = Some q →
  vs = [] ∨ Z.of_nat (length vs) =
            (Z.of_nat (total_moras (get_accent_phrases q)) - start)%Z →
  ∃ l', (apply_values set l vs start h).2 = Ok l' ∧
        read_query (apply_values set l vs start h).1 l' =
        Some (overlay_query set vs (Z.to_nat start) q).
Proof.
  intros Hq Hlen.
  destruct (apply_values_run set h l q vs start Hq) as (qc & Hrun & Hqc).
  rewrite Hrun. simpl.
  rewrite (proj2 (apply_values_result_Ok set q vs start _)
             (conj Hlen eq_refl)) in *.
  rewrite (Hqc _ eq_refl). eexists. split; [done|]. apply read_query_fresh.
Qed.

(** [apply_pitch_values] and [apply_length_values] can be applied in
    either order: when each succeeds on a query, each also succeeds on the
    result of the other, and both orders return equal queries. *)
Theorem pitch_and_length_values_commute h l q pv lv sp sl lp ll :
  read_query h l = Some q →
  (apply_pitch_values l pv sp h).2 = Ok lp →
  (apply_length_values l lv sl h).2 = Ok ll →
  let hp := (apply_pitch_values l pv sp h).1 in
  let hl := (apply_length_values l lv sl h).1 in
  ∃ lpl llp q',
    (apply_length_values lp lv sl hp).2 = Ok lpl ∧
    (apply_pitch_values ll pv sp hl).2 = Ok llp ∧
    read_query (apply_length_values lp lv sl hp).1 lpl = Some q' ∧
    read_query (apply_pitch_values ll pv sp hl).1 llp = Some q'.
Proof.
  intros Hq Hp Hl hp hl. subst hp hl.
  unfold apply_pitch_values, apply_length_values in *.
  set (hp := (apply_values set_pitch l pv sp h).1) in *.
  set (hl := (apply_values set_vowel_length l lv sl h).1) in *.
  destruct (apply_values_Ok _ _ _ _ _ _ _ Hq Hp) as [Hlenp Hqp].
  destruct (apply_values_Ok _ _ _ _ _ _ _ Hq Hl) as [Hlenl Hql].
  destruct (apply_values_succeeds set_vowel_length hp lp _ lv sl Hqp)
    as (lpl & Hlpl & Hqpl); [by rewrite overlay_query_total|].
  destruct (apply_values_succeeds set_pitch hl ll _ pv sp Hql)
    as (llp & Hllp & Hqlp); [by rewrite overlay_query_total|].
  exists lpl, llp. eexists. split; [done|]. split; [done|].
  split; [done|]. by rewrite overlay_query_commute.
Qed.

Lemma pitch_and_length_values_commute_witness :
  let q := query_of [phrase_of_chars (kata_a ++ kata_a)] in
  let pv := [6.0; 6.1]%Q in
  let lv := [0.3]%Q in
  let a := apply_pitch_values (ref_of q) pv 0 (store_of q) in
  let b := apply_length_values (ref_of q) lv 1 (store_of q) in
  a.2 = Ok 11 ∧ b.2 = Ok 11 ∧
  ∃ lpl llp q',
    (apply_length_values 11 lv 1 a.1).2 = Ok lpl ∧
    (apply_pitch_values 11 pv 0 b.1).2 = Ok llp ∧
    read_query (apply_length_values 11 lv 1 a.1).1 lpl = Some q' ∧
    read_query (apply_pitch_values 11 pv 0 b.1).1 llp = Some q'.
Proof.
  intros q pv lv a b.
  assert (a.2 = Ok 11) as Ha by (vm_compute; reflexivity).
  assert (b.2 = Ok 11) as Hb by (vm_compute; reflexivity).
  split; [exact Ha|]. split; [exact Hb|].
  exact (pitch_and_length_values_commute _ _ _ _ _ _ _ _ _
           (store_of_read q) Ha Hb).
Defined.

(** ** The two overlay entry points on a one-segment query *)

Lemma overlay_one_segment q ap pv lv k0 :
  get_accent_phrases q = [ap] →
  overlay_query set_vowel_length lv k0 (overlay_query set_pitch pv k0 q) =
  with_accent_phrases q
    (<[0 := with_moras ap
              (overlay_dimension set_vowel_length (Some lv) k0
                 (overlay_dimension set_pitch (Some pv) k0 (get_moras ap)))]>
       (get_accent_phrases q)).
Proof.
  intros Hq. rewrite overlay_query_twice, Hq. simpl. do 3 f_equal.
  unfold overlay_dimension. simpl. apply list_eq. intros k.
  rewrite list_lookup_imap, !overlay_units_lookup.
  unfold units_before, total_moras. simpl.
  by destruct (get_moras ap !! k).
Qed.

(** On a query of one segment, [apply_extended_dict] with starting unit
    [s >= 0] and [apply_partial_match] on the range from [s] to the end of
    the segment do the same: both fail with the same error, or both return
    equal queries. *)
Theorem overlays_agree_on_one_segment h l q ap e s other :
  read_query h l = Some q →
  get_accent_phrases q = [ap] →
  (0 ≤ s)%Z →
  let n := Z.of_nat (length (get_moras ap)) in
  let mr := {| mr_start_mora_index := Some s; mr_other := other |} in
  (∀ ex, (apply_partial_match l e 0 s n h).2 = Raise ex ↔
         (apply_extended_dict l e mr h).2 = Raise ex) ∧
  (∀ l1, (apply_partial_match l e 0 s n h).2 = Ok l1 →
     ∃ l2 q', (apply_extended_dict l e mr h).2 = Ok l2 ∧
              read_query (apply_partial_match l e 0 s n h).1 l1 = Some q' ∧
              read_query (apply_extended_dict l e mr h).1 l2 = Some q').
Proof.
  intros Hq Hone Hs n mr.
  destruct (apply_partial_match_spec h l q e 0 s n Hq) as (ext & Hh & Hr).
  destruct (apply_extended_dict_run h l q e mr Hq)
    as (_ & _ & Hbad & Hgood).
  simpl in Hbad, Hgood.
  assert (total_moras (get_accent_phrases q) = length (get_moras ap)) as Htot.
  { rewrite Hone. unfold total_moras. simpl. by rewrite app_nil_r. }
  rewrite Htot in Hbad, Hgood. fold n in Hbad, Hgood.
  unfold partial_match_result in Hr. rewrite Hone in Hr. simpl in Hr.
  rewrite decide_False in Hr by lia. fold n in Hr.
  destruct (decide (mismatch (pitch_values e) (n - s))) as [Hmp|Hmp].
  { rewrite Hr, Hbad by auto. split; [done|]. by intros l1 [=]. }
  destruct (decide (mismatch (length_values e) (n - s))) as [Hml|Hml].
  { rewrite Hr, Hbad by auto. split; [done|]. by intros l1 [=]. }
  destruct Hr as [-> Hr].
  destruct (Hgood Hmp Hml) as (l2 & Hl2 & _ & Hq2).
  rewrite Hr, Hl2. split; [by split|].
  intros l1 [= <-]. exists l2. eexists. split; [done|].
  rewrite Hh. split; [apply read_query_fresh|].
  rewrite Hq2. f_equal.
  rewrite (overlay_one_segment _ _ _ _ _ Hone), Hone. simpl.
  by unfold overlay_dimension.
Qed.

Lemma overlays_agree_on_one_segment_witness :
  let q := query_of [phrase_of_chars (kata_a ++ kata_a ++ kata_a)] in
  let e := entry_of hira_a kata_a (Some [6.0; 6.1]%Q) None in
  let mr := {| mr_start_mora_index := Some 1%Z; mr_other := [] |} in
  (apply_partial_match (ref_of q) e 0 1 3 (store_of q)).2 = Ok 13 ∧
  ∃ l2 q', (apply_extended_dict (ref_of q) e mr (store_of q)).2 = Ok l2 ∧
    read_query (apply_partial_match (ref_of q) e 0 1 3 (store_of q)).1 13
      = Some q' ∧
    read_query (apply_extended_dict (ref_of q) e mr (store_of q)).1 l2
      = Some q'.
Proof.
  intros q e mr.
  assert ((apply_partial_match (ref_of q) e 0 1 3 (store_of q)).2 = Ok 13)
    as Hok by (vm_compute; reflexivity).
  split; [exact Hok|].
  destruct (overlays_agree_on_one_segment (store_of q) (ref_of q) q
              (phrase_of_chars (kata_a ++ kata_a ++ kata_a)) e 1 []
              (store_of_read q) eq_refl ltac:(lia)) as [_ Hsame].
  exact (Hsame 13 Hok).
Defined.

(* ================================================================== *)
(** * Indices below zero *)
(* ================================================================== *)

Lemma partial_match_result_negative q e idx s t :
  let n := Z.of_nat (length (get_accent_phrases q)) in
  ((- n ≤ idx < 0)%Z →
   partial_match_result q e idx s t =
   partial_match_result q e (idx + n) s t) ∧
  ((idx < - n)%Z → partial_match_result q e idx s t = Raise IndexError).
Proof.
  intros n. subst n. unfold partial_match_result. split; intros Hidx.
  - rewrite !decide_False by lia. unfold py_index.
    rewrite (decide_False (P := (0 ≤ idx)%Z)) by lia.
    rewrite decide_True by lia. rewrite decide_True by lia.
    rewrite decide_True by lia.
    by replace (Z.of_nat (length (get_accent_phrases q)) + idx)%Z
      with (idx + Z.of_nat (length (get_accent_phrases q)))%Z by lia.
  - rewrite decide_False by lia. unfold py_index.
    rewrite decide_False by lia. by rewrite decide_False by lia.
Qed.

(** A segment index below zero is not refused by [apply_partial_match]:
    as long as it is not below minus the number of segments it counts from
    the end, the call doing what it does for the index plus the number of
    segments; an index further below escapes as an [IndexError]. *)
Theorem apply_partial_match_negative_index_wraps h l q e idx s t :
  read_query h l = Some q →
  let n := Z.of_nat (length (get_accent_phrases q)) in
  ((- n ≤ idx < 0)%Z →
   (apply_partial_match l e idx s t h).2 =
     (apply_partial_match l e (idx + n) s t h).2 ∧
   ∀ l', (apply_partial_match l e idx s t h).2 = Ok l' →
         read_query (apply_partial_match l e idx s t h).1 l' =
         read_query (apply_partial_match l e (idx + n) s t h).1 l') ∧
  ((idx < - n)%Z → (apply_partial_match l e idx s t h).2 = Raise IndexError).
Proof.
  intros Hq n.
  destruct (partial_match_result_negative q e idx s t) as [Hwrap Hlow].
  fold n in Hwrap, Hlow.
  destruct (apply_partial_match_spec h l q e idx s t Hq) as (ext & Hh & Hr).
  split.
  - intros Hidx.
    destruct (apply_partial_match_spec h l q e (idx + n) s t Hq)
      as (ext' & Hh' & Hr').
    rewrite (Hwrap Hidx) in Hr.
    destruct (partial_match_result q e (idx + n) s t) as [q'|ex].
    + destruct Hr as [-> Hr]. destruct Hr' as [-> Hr'].
      rewrite Hr, Hr'. split; [done|]. intros l' [= <-].
      by rewrite Hh, Hh'.
    + rewrite Hr, Hr'. split; [done|]. by intros l' [=].
  - intros Hidx. by rewrite (Hlow Hidx) in Hr.
Qed.

Lemma apply_partial_match_negative_index_wraps_witness :
  let q := query_of [phrase_of_chars kata_konnichiwa; phrase_of [kata_a]] in
  (apply_partial_match (ref_of q) a_entry (-1) 0 1 (store_of q)).2 =
  (apply_partial_match (ref_of q) a_entry 1 0 1 (store_of q)).2 ∧
  (apply_partial_match (ref_of q) a_entry 1 0 1 (store_of q)).2 = Ok 23.
Proof.
  intros q.
  destruct (apply_partial_match_negative_index_wraps (store_of q) (ref_of q)
              q a_entry (-1) 0 1 (store_of_read q)) as [Hwrap _].
  split; [|vm_compute; reflexivity].
  destruct Hwrap as [Hsame _]; [simpl; lia|]. exact Hsame.
Defined.

(* ================================================================== *)
(** * The version text *)
(* ================================================================== *)

Lemma str_lstrip_spec chars s :
  ∃ pre, s = pre ++ str_lstrip chars s ∧ Forall (λ c, c ∈ chars) pre ∧
         (∀ c, head (str_lstrip chars s) = Some c → c ∉ chars).
Proof.
  induction s as [|c s (pre & Hs & Hpre & Hhead)]; simpl.
  - exists []. by repeat split.
  - case_decide as Hc.
    + exists (c :: pre). rewrite <- app_comm_cons, <- Hs.
      split; [done|]. split; [by constructor|done].
    + exists []. split; [done|]. split; [constructor|].
      by intros c' [= <-].
Qed.

Lemma str_rstrip_spec chars s :
  ∃ post, s = str_rstrip chars s ++ post ∧ Forall (λ c, c ∈ chars) post ∧
          (∀ c, last (str_rstrip chars s) = Some c → c ∉ chars).
Proof.
  unfold str_rstrip.
  destruct (str_lstrip_spec chars (reverse s)) as (pre & Hs & Hpre & Hhead).
  exists (reverse pre). split; [|split].
  - rewrite <- reverse_app, <- Hs. by rewrite reverse_involutive.
  - by apply Forall_reverse.
  - intros c. rewrite last_reverse. apply Hhead.
Qed.

Lemma head_app_Some {A} (l1 l2 : list A) x :
  head l1 = Some x → head (l1 ++ l2) = Some x.
Proof. by destruct l1. Qed.

(** [get_version] passes a failure of the request on; from an answer it
    returns the text between the double quotes: the text is a run of
    quotes, the version, and a run of quotes, and the version neither
    starts nor ends with a quote. *)
Theorem get_version_unquotes response :
  match response with
  | Ok text =>
      ∃ pre v post,
        get_version response = Ok v ∧ text = pre ++ v ++ post ∧
        Forall (λ c, c = 34%N) pre ∧ Forall (λ c, c = 34%N) post ∧
        head v ≠ Some 34%N ∧ last v ≠ Some 34%N
  | Raise e => get_version response = Raise e
  end.
Proof.
  destruct response as [text|ex]; [|done]. simpl. unfold str_strip.
  destruct (str_lstrip_spec [34%N] text) as (pre & Hs & Hpre & Hhead).
  destruct (str_rstrip_spec [34%N] (str_lstrip [34%N] text))
    as (post & Hs' & Hpost & Hlast).
  exists pre, (str_rstrip [34%N] (str_lstrip [34%N] text)), post.
  split; [done|]. split; [by rewrite <- Hs', <- Hs|].
  split; [eapply Forall_impl; [done|]; by intros c ?%list_elem_of_singleton|].
  split; [eapply Forall_impl; [done|]; by intros c ?%list_elem_of_singleton|].
  split.
  - intros Hv. apply (Hhead 34%N); [|apply list_elem_of_here].
    rewrite Hs'. by apply head_app_Some.
  - intros Hv. apply (Hlast 34%N); [done|apply list_elem_of_here].
Qed.

(** The answer ["0.14.0"], quotes included, gives the version 0.14.0. *)
Example get_version_of_json_string :
  get_version (Ok [34; 48; 46; 49; 52; 46; 48; 34]%N) =
  Ok [48; 46; 49; 52; 46; 48]%N.
Proof. vm_compute. reflexivity. Qed.

(* ================================================================== *)
(** * More on the handlers *)
(* ================================================================== *)

Lemma well_formed_match_transcription q q' m :
  transcription q = transcription q' →
  well_formed_match q m → well_formed_match q' m.
Proof.
  intros Ht (j & a & b & ap & Hidx & Hs & He & Hj & Hab & Hjoin).
  assert (transcription q' !! j = Some (mora_texts_of (get_moras ap)))
    as Hj'.
  { rewrite <- Ht. unfold transcription. by rewrite list_lookup_fmap, Hj. }
  unfold transcription in Hj'. rewrite list_lookup_fmap in Hj'.
  destruct (get_accent_phrases q' !! j) as [ap'|] eqn:Hap'; [|done].
  simpl in Hj'. injection Hj' as Htexts.
  exists j, a, b, ap'. rewrite Htexts. repeat split; try done; try lia.
  apply (f_equal length) in Htexts. unfold mora_texts_of in Htexts.
  rewrite !length_fmap in Htexts. lia.
Qed.

(** On coordinates the matcher produced, the overlay can only fail for
    the length of a list. *)
Lemma partial_match_result_well_formed q m :
  well_formed_match q m →
  if decide (applicable m)
  then ∃ q', partial_match_result q (entry m) (accent_phrase_index m)
               (mora_start_index m) (mora_end_index m) = Ok q'
  else partial_match_result q (entry m) (accent_phrase_index m)
         (mora_start_index m) (mora_end_index m)
       = Raise (ValueError MoraCountMismatch).
Proof.
  intros (j & a & b & ap & Hidx & Hs & He & Hj & Hab & Hjoin).
  pose proof (lookup_lt_Some _ _ _ Hj) as Hjlt.
  destruct m as [e idx s t]. simpl in *. subst idx s t.
  unfold partial_match_result. simpl.
  destruct (decide (Z.of_nat (length (get_accent_phrases q)) ≤ Z.of_nat j)%Z)
    as [?|_]; [lia|].
  rewrite py_index_nonneg, Nat2Z.id, Hj by lia.
  destruct (decide ((Z.of_nat a < 0)%Z
                    ∨ (Z.of_nat (length (get_moras ap)) < Z.of_nat b)%Z))
    as [[?|?]|_]; [lia|lia|].
  unfold applicable. simpl.
  destruct (decide (mismatch (pitch_values e) (Z.of_nat b - Z.of_nat a)))
    as [Hp|Hp].
  { rewrite decide_False; [done|]. by intros [? _]. }
  destruct (decide (mismatch (length_values e) (Z.of_nat b - Z.of_nat a)))
    as [Hl|Hl].
  { rewrite decide_False; [done|]. by intros [_ ?]. }
  rewrite decide_True by done. by eexists.
Qed.

(** The overlay loop on results of the matcher: every applicable match is
    applied, the others are skipped, nothing else can happen. *)
Lemma overlay_all_well_formed ms : ∀ q,
  Forall (well_formed_match q) ms →
  ∃ q', overlay_all q ms =
          Ok (q', word ∘ entry <$> filter applicable ms) ∧
        transcription q' = transcription q ∧
        aq_other q' = aq_other q.
Proof.
  induction ms as [|m ms IH]; intros q Hwf; [by exists q|].
  apply Forall_cons in Hwf as [Hm Hms].
  pose proof (partial_match_result_well_formed q m Hm) as Hres.
  cbn [overlay_all]. rewrite filter_cons.
  destruct (decide (applicable m)) as [Hfit|Hfit].
  - destruct Hres as [q1 Hq1]. rewrite Hq1.
    destruct (partial_match_result_shape _ _ _ _ _ _ Hq1) as (Ht & Ho & _).
    destruct (IH q1) as (q' & -> & Ht' & Ho').
    { eapply Forall_impl; [done|]. intros m'.
      by apply well_formed_match_transcription. }
    exists q'. rewrite fmap_cons. split; [done|]. split; congruence.
  - rewrite Hres. by apply IH.
Qed.

Lemma matcher_results_all_well_formed q es text :
  Forall (well_formed_match q) (find_matches_with_text q es text).
Proof.
  apply Forall_forall. intros m Hm.
  apply (matches_well_formed q es text). by right.
Qed.

Lemma applicable_words_sound q es text w :
  w ∈ word ∘ entry <$> filter applicable (find_matches_with_text q es text) →
  ∃ e, e ∈ es ∧ word e = w ∧ is_substring w text.
Proof.
  intros (m & -> & [_ Hm]%list_elem_of_filter)%list_elem_of_fmap.
  apply find_matches_with_text_elem in Hm
    as (j & ap & e & pos & _ & He & _ & Hm).
  apply record_match_elem in Hm as (a & b & -> & _).
  apply list_elem_of_filter in He as [He Hin]. simpl.
  exists e. split; [done|]. split; [done|]. by apply str_contains_spec.
Qed.

Lemma apply_dictionary_readable es req h q :
  read_query h (req_audio_query req) = Some q →
  let ms := find_matches_with_text q es (req_text req) in
  let r := apply_dictionary (Ok es) req h in
  resp_matches_found r.2 = length ms ∧
  resp_applied_entries r.2 = (word ∘ entry <$> filter applicable ms) ∧
  ∃ q', read_query r.1 (resp_audio_query r.2) = Some q' ∧
        transcription q' = transcription q ∧
        aq_other q' = aq_other q.
Proof.
  intros Hq ms r. subst r. destruct es as [|e es].
  { subst ms. simpl. repeat split; try done. by exists q. }
  destruct (apply_dictionary_body_run e es req h q Hq)
    as (ext & r & Hrun & Hr).
  fold ms in Hr.
  destruct (overlay_all_well_formed ms q
              (matcher_results_all_well_formed _ _ _))
    as (q' & Hall & Ht & Ho).
  rewrite Hall in Hr. destruct Hr as (l' & -> & Hread).
  unfold apply_dictionary. rewrite Hrun. simpl.
  repeat split; try done. by exists q'.
Qed.

Lemma apply_dictionary_unreadable load req h :
  read_query h (req_audio_query req) = None →
  apply_dictionary load req h = (h, unchanged_response req).
Proof.
  intros Hq. unfold apply_dictionary, apply_dictionary_body.
  destruct load as [[|e es]|ex]; [done| |done].
  unfold mbind at 1, M_bind at 1, lift.
  unfold find_matches_with_text_at.
  destruct (req_text req) as [|c text]; [done|].
  unfold mbind, M_bind, read_query_at. by rewrite Hq.
Qed.

(** Whatever the store holds, a word [apply_dictionary] reports as
    applied is the word of a loaded entry. *)
Lemma apply_dictionary_applied_sound load req h w :
  w ∈ resp_applied_entries (apply_dictionary load req h).2 →
  ∃ es e, load = Ok es ∧ e ∈ es ∧ word e = w ∧
          is_substring w (req_text req).
Proof.
  destruct (read_query h (req_audio_query req)) as [q|] eqn:Hq.
  - destruct load as [es|ex]; [|by intros ?%elem_of_nil].
    destruct (apply_dictionary_readable es req h q Hq) as (_ & -> & _).
    intros (e & ? & ? & ?)%applicable_words_sound. by exists es, e.
  - rewrite apply_dictionary_unreadable by done. by intros ?%elem_of_nil.
Qed.

(** With a query it can read and a dictionary it can load,
    [apply_dictionary] never takes the fallback: it reports every match
    found, applies exactly the matches whose lists fit their range, in the
    order found, and answers with a query that has the transcription and
    the global controls of the argument.  Each applied word is the word of
    a loaded entry and occurs in the request text. *)
Theorem apply_dictionary_applies_applicable es req h q :
  read_query h (req_audio_query req) = Some q →
  let ms := find_matches_with_text q es (req_text req) in
  let r := apply_dictionary (Ok es) req h in
  resp_matches_found r.2 = length ms ∧
  resp_applied_entries r.2 = (word ∘ entry <$> filter applicable ms) ∧
  (∃ q', read_query r.1 (resp_audio_query r.2) = Some q' ∧
         transcription q' = transcription q ∧
         aq_other q' = aq_other q) ∧
  (∀ w, w ∈ resp_applied_entries r.2 →
        ∃ e, e ∈ es ∧ word e = w ∧ is_substring w (req_text req)).
Proof.
  intros Hq ms r.
  destruct (apply_dictionary_readable es req h q Hq) as (Hn & Hws & Hq').
  split; [done|]. split; [done|]. split; [done|].
  intros w Hw. subst r. rewrite Hws in Hw.
  by eapply applicable_words_sound.
Qed.

Lemma apply_dictionary_applies_applicable_witness :
  let req := {| req_audio_query := ref_of a_query; req_text := hira_a;
                req_speaker := 1 |} in
  let es := [a_entry_two_pitches; a_entry] in
  let r := apply_dictionary (Ok es) req (store_of a_query) in
  resp_matches_found r.2 = 2 ∧ resp_applied_entries r.2 = [hira_a].
Proof.
  intros req es r.
  destruct (apply_dictionary_applies_applicable es req (store_of a_query)
              a_query (store_of_read a_query)) as (Hn & Hws & _).
  split; [etransitivity; [exact Hn|]|etransitivity; [exact Hws|]];
    vm_compute; reflexivity.
Defined.

(** Dictionary entries cannot make [synthesize_with_extended_dict]
    unavailable: when the engine answers the query request and the
    dictionary loads, every overlay either succeeds or is skipped, the
    query sent to the engine has the transcription and the global controls
    of the engine's own, and the answer is the audio of that query, or 503
    if the engine fails to render it. *)
Theorem synthesize_unavailable_only_by_engine client es text sp h q :
  create_audio_query client text sp = Ok q →
  let ms := find_matches_with_text q es text in
  ∃ q', overlay_all q ms = Ok (q', word ∘ entry <$> filter applicable ms) ∧
        transcription q' = transcription q ∧
        aq_other q' = aq_other q ∧
        (synthesize_with_extended_dict client (Ok es) text sp h).2 =
        match synthesis client q' sp with
        | Ok audio_data => Wav audio_data (length ms)
        | Raise _ => Http503
        end.
Proof.
  intros Hc ms.
  destruct (overlay_all_well_formed ms q
              (matcher_results_all_well_formed _ _ _))
    as (q' & Hall & Ht & Ho).
  exists q'. split; [done|]. split; [done|]. split; [done|].
  destruct (synthesize_body_run client (Ok es) text sp h q es Hc eq_refl)
    as (ext & Hrun).
  unfold synthesize_with_extended_dict. rewrite Hrun. fold ms.
  rewrite Hall. by destruct (synthesis client q' sp).
Qed.

Lemma synthesize_unavailable_only_by_engine_witness :
  (synthesize_with_extended_dict (engine_answering a_query)
     (Ok [a_entry_two_pitches; a_entry]) hira_a 1 []).2 = Wav riff 2.
Proof.
  destruct (synthesize_unavailable_only_by_engine (engine_answering a_query)
              [a_entry_two_pitches; a_entry] hira_a 1 [] a_query eq_refl)
    as (q' & _ & _ & _ & ->).
  reflexivity.
Defined.

(** Rendering is the preview of the debug result: whenever
    [synthesize_debug] answers, [synthesize_with_extended_dict] answers
    for the same request what [synthesize_preview] answers for the query
    the debug response holds, with the debug response's count in the
    header; and when the debug endpoint is unavailable, so is the
    rendering one. *)
Theorem synthesize_is_preview_of_debug client load text sp h :
  match synthesize_debug client load text sp h with
  | (h1, DebugProcessed n modified_query) =>
      synthesize_with_extended_dict client load text sp h =
      match synthesize_preview client modified_query sp h1 with
      | (h2, PreviewWav audio_data) => (h2, Wav audio_data n)
      | (h2, PreviewHttp503) => (h2, Http503)
      end
  | (h1, DebugHttp503) =>
      synthesize_with_extended_dict client load text sp h = (h1, Http503)
  end.
Proof.
  unfold synthesize_debug, synthesize_with_extended_dict, synthesize_preview,
    synthesize_debug_body, synthesize_body.
  unfold mbind, M_bind, lift, new_query, mret, M_ret, read_query_at.
  destruct (create_audio_query client text sp) as [q|ex]; [|done].
  destruct load as [es|ex]; [|done].
  destruct (find_matches_with_text_at _ es text _) as [h1 [ms|ex]]; [|done].
  destruct (overlay_loop _ ms h1) as [h2 [l'|ex]]; [|done].
  destruct (read_query h2 l') as [q'|]; [|done].
  by destruct (synthesis client q' sp).
Qed.

(* ================================================================== *)
(** * The dictionary file *)
(* ================================================================== *)

Lemma not_in_words (es : list ExtendedDictEntry) w :
  w ∉ (word <$> es) ↔ Forall (λ x, word x ≠ w) es.
Proof.
  rewrite Forall_forall. split.
  - intros H x Hx Hw. apply H, list_elem_of_fmap. by exists x.
  - intros H (x & -> & Hx)%list_elem_of_fmap. by apply (H x).
Qed.

Lemma filter_none {A} (P : A → Prop) `{!∀ x, Decision (P x)} (l : list A) :
  Forall (λ x, ¬ P x) l → filter P l = [].
Proof.
  induction 1 as [|x l Hx _ IH]; [done|].
  by rewrite filter_cons, decide_False.
Qed.

Lemma filter_all {A} (P : A → Prop) `{!∀ x, Decision (P x)} (l : list A) :
  Forall P l → filter P l = l.
Proof.
  induction 1 as [|x l Hx _ IH]; [done|].
  by rewrite filter_cons, decide_True, IH.
Qed.

Lemma filter_length_eq {A} (P : A → Prop) `{!∀ x, Decision (P x)}
    (l : list A) :
  length (filter P l) = length l ↔ Forall P l.
Proof.
  split; [|intros Hall; by rewrite filter_all].
  intros Hlen. apply Forall_forall. intros x Hx.
  destruct (decide (P x)) as [|Hn]; [done|].
  pose proof (length_filter_lt P l x Hx Hn). lia.
Qed.

Lemma filter_filter_implied {A} (P Q : A → Prop)
    `{!∀ x, Decision (P x)} `{!∀ x, Decision (Q x)} (l : list A) :
  (∀ x, P x → Q x) → filter P (filter Q l) = filter P l.
Proof.
  intros HPQ. induction l as [|x l IH]; [done|].
  rewrite (filter_cons Q). destruct (decide (Q x)) as [HQ|HQ].
  - rewrite !filter_cons, IH. done.
  - rewrite IH, filter_cons, decide_False; [done|]. by intros ?%HPQ.
Qed.

Lemma list_find_first {A} (P : A → Prop) `{!∀ x, Decision (P x)} l1 x l2 :
  Forall (λ y, ¬ P y) l1 → P x →
  list_find P (l1 ++ x :: l2) = Some (length l1, x).
Proof.
  intros Hl1 Hx. induction Hl1 as [|y l1 Hy _ IH]; simpl.
  - by rewrite decide_True.
  - rewrite decide_False by done. by rewrite IH.
Qed.

(** What the upsert loop leaves: the entry stands where the first entry
    with its word stood, or at the end. *)
Lemma upsert_split es e :
  ((word e ∉ word <$> es) ∧ upsert es e = es ++ [e]) ∨
  (∃ es1 x es2, es = es1 ++ x :: es2 ∧ word x = word e ∧
                (word e ∉ word <$> es1) ∧ upsert es e = es1 ++ e :: es2).
Proof.
  unfold upsert.
  destruct (list_find (λ x, word x = word e) es) as [[i x]|] eqn:E.
  - right. apply list_find_Some in E as (Hi & Hx & Hbefore).
    pose proof (lookup_lt_Some _ _ _ Hi) as Hlt.
    exists (take i es), x, (drop (S i) es).
    split; [by rewrite take_drop_middle|]. split; [done|]. split.
    + apply not_in_words, Forall_forall. intros y Hin.
      apply list_elem_of_lookup in Hin as [j Hj].
      pose proof (lookup_lt_Some _ _ _ Hj) as Hj'.
      rewrite length_take in Hj'. rewrite lookup_take_lt in Hj by lia.
      apply (Hbefore j y); [done|lia].
    + rewrite <- (take_drop_middle _ _ _ Hi) at 1.
      rewrite insert_app_r_alt by (rewrite length_take; lia).
      rewrite length_take.
      by replace (i - i `min` length es) with 0 by lia.
  - left. split; [|done]. apply not_in_words.
    by apply list_find_None in E.
Qed.

Lemma upsert_first es1 x es2 e :
  word x = word e → word e ∉ (word <$> es1) →
  upsert (es1 ++ x :: es2) e = es1 ++ e :: es2.
Proof.
  intros Hx Hes1. unfold upsert.
  rewrite (list_find_first (λ y, word y = word e) es1 x es2);
    [|by apply not_in_words|done].
  rewrite insert_app_r_alt by lia.
  by replace (length es1 - length es1) with 0 by lia.
Qed.

Lemma upsert_elem es e : e ∈ upsert es e.
Proof.
  destruct (upsert_split es e)
    as [[_ ->]|(es1 & x & es2 & _ & _ & _ & ->)];
    rewrite elem_of_app, elem_of_cons; auto.
Qed.

Lemma search_dictionary_loaded w f es :
  load_dictionary f = Ok es →
  search_dictionary w f =
  Reply (filter (λ x, word x = w) es, length (filter (λ x, word x = w) es)).
Proof. unfold search_dictionary. by intros ->. Qed.

(** Looking up after [add_entry]: a search for the entry's word finds the
    entry in the place of the first entry that had this word before (at
    the end when there was none), every other entry with the word is
    still there, and the searches for all other words answer as before. *)
Theorem add_entry_then_search e f es :
  load_dictionary f = Ok es →
  (add_entry e f).2 = Reply e ∧
  load_dictionary (add_entry e f).1 = Ok (upsert es e) ∧
  search_dictionary (word e) (add_entry e f).1 =
    Reply (e :: tail (filter (λ x, word x = word e) es),
           S (length (tail (filter (λ x, word x = word e) es)))) ∧
  (∀ w, w ≠ word e →
        search_dictionary w (add_entry e f).1 = search_dictionary w f).
Proof.
  intros Hload. unfold add_entry. rewrite Hload. simpl.
  split; [done|]. split; [done|].
  assert (load_dictionary (save_dictionary (upsert es e)) = Ok (upsert es e))
    as Hload' by done.
  split.
  - rewrite (search_dictionary_loaded _ _ _ Hload').
    destruct (upsert_split es e)
      as [[Hno ->]|(es1 & x & es2 & -> & Hx & Hno & ->)].
    + rewrite filter_app, (filter_none _ es) by by apply not_in_words.
      by rewrite filter_cons, decide_True.
    + rewrite !filter_app, !filter_cons, !decide_True by done.
      by rewrite (filter_none _ es1) by by apply not_in_words.
  - intros w Hw.
    rewrite (search_dictionary_loaded _ _ _ Hload'),
      (search_dictionary_loaded _ _ _ Hload).
    assert (filter (λ x, word x = w) (upsert es e) =
            filter (λ x, word x = w) es) as ->; [|done].
    destruct (upsert_split es e)
      as [[Hno ->]|(es1 & x & es2 & -> & Hx & Hno & ->)].
    + rewrite filter_app, filter_cons, decide_False by done.
      by rewrite app_nil_r.
    + rewrite !filter_app, !filter_cons.
      by rewrite !decide_False by congruence.
Qed.

Lemma add_entry_then_search_witness :
  let f := FileOf [zundamon_entry; a_entry_two_pitches] in
  search_dictionary hira_a (add_entry a_entry f).1 = Reply ([a_entry], 1) ∧
  search_dictionary hira_zundamon (add_entry a_entry f).1 =
    Reply ([zundamon_entry], 1) ∧
  get_dictionary (add_entry a_entry f).1 =
    Reply ([zundamon_entry; a_entry], 2).
Proof.
  intros f.
  destruct (add_entry_then_search a_entry f
              [zundamon_entry; a_entry_two_pitches] eq_refl)
    as (_ & _ & Hfound & Hothers).
  split; [etransitivity; [exact Hfound|vm_compute; reflexivity]|].
  split; [|vm_compute; reflexivity].
  etransitivity; [apply Hothers; by intros [=]|]. vm_compute. reflexivity.
Defined.

Lemma upsert_words es e :
  word <$> upsert es e =
  if decide (word e ∈ (word <$> es)) then word <$> es
  else (word <$> es) ++ [word e].
Proof.
  destruct (upsert_split es e)
    as [[Hno ->]|(es1 & x & es2 & -> & Hx & Hno & ->)].
  - rewrite decide_False by done. by rewrite fmap_app.
  - rewrite decide_True.
    + by rewrite !fmap_app, !fmap_cons, Hx.
    + rewrite fmap_app, fmap_cons, elem_of_app, elem_of_cons. auto.
Qed.

(** [add_entry] keeps a dictionary free of duplicate words so: if no two
    entries share a word before, none do after, the new entry is the only
    one for its word, and the dictionary keeps its length when the word
    was present and grows by one when it was not. *)
Theorem add_entry_keeps_words_unique e f es :
  load_dictionary f = Ok es →
  NoDup (word <$> es) →
  NoDup (word <$> upsert es e) ∧
  get_dictionary (add_entry e f).1 =
    Reply (upsert es e,
           if decide (word e ∈ (word <$> es)) then length es
           else S (length es)) ∧
  search_dictionary (word e) (add_entry e f).1 = Reply ([e], 1).
Proof.
  intros Hload Hnodup.
  assert (NoDup (word <$> upsert es e)) as Hnodup'.
  { rewrite upsert_words. case_decide as Hin; [done|].
    apply NoDup_app. split; [done|]. split; [|apply NoDup_singleton].
    intros w Hw ->%list_elem_of_singleton. done. }
  assert (length (upsert es e) =
          if decide (word e ∈ (word <$> es)) then length es
          else S (length es)) as Hlen.
  { rewrite <- (length_fmap word (upsert es e)), upsert_words.
    case_decide; rewrite ?length_app, length_fmap; simpl; lia. }
  split; [done|].
  unfold add_entry. rewrite Hload. simpl.
  split; [unfold get_dictionary; simpl; by rewrite Hlen|].
  rewrite (search_dictionary_loaded _ _ (upsert es e)) by done.
  assert (filter (λ x, word x = word e) (upsert es e) = [e]) as ->; [|done].
  destruct (upsert_split es e)
    as [[Hno Hup]|(es1 & x & es2 & Hes & Hx & Hno & Hup)]; rewrite Hup in *.
  - rewrite filter_app, (filter_none _ es) by by apply not_in_words.
    by rewrite filter_cons, decide_True.
  - rewrite !filter_app, !filter_cons, !decide_True by done.
    rewrite (filter_none _ es1) by by apply not_in_words.
    rewrite (filter_none _ es2); [done|]. apply not_in_words.
    rewrite fmap_app, fmap_cons in Hnodup'.
    apply NoDup_app in Hnodup' as (_ & _ & Hnd).
    by apply NoDup_cons in Hnd as [? _].
Qed.

Lemma add_entry_keeps_words_unique_witness :
  let f := FileOf [zundamon_entry; a_entry_two_pitches] in
  NoDup (word <$> upsert [zundamon_entry; a_entry_two_pitches] a_entry) ∧
  get_dictionary (add_entry a_entry f).1 =
    Reply ([zundamon_entry; a_entry], 2).
Proof.
  intros f.
  assert (NoDup (word <$> [zundamon_entry; a_entry_two_pitches])) as Hnodup.
  { apply (bool_decide_unpack _). vm_compute. exact I. }
  destruct (add_entry_keeps_words_unique a_entry f _ eq_refl Hnodup)
    as (Hnd & Hget & _).
  split; [exact Hnd|]. etransitivity; [exact Hget|].
  vm_compute. reflexivity.
Defined.

(** Adding the same entry twice leaves the file as adding it once does,
    whatever the file held. *)
Theorem add_entry_idempotent e f :
  (add_entry e (add_entry e f).1).1 = (add_entry e f).1.
Proof.
  unfold add_entry.
  destruct (load_dictionary f) as [es|ex] eqn:Hload; simpl.
  - unfold save_dictionary. f_equal.
    destruct (upsert_split es e)
      as [[Hno ->]|(es1 & x & es2 & -> & Hx & Hno & ->)].
    + replace (es ++ [e]) with (es ++ e :: []) by done.
      by apply upsert_first.
    + by apply upsert_first.
  - by rewrite Hload.
Qed.

(** [delete_entry] answers 404 exactly when no entry has the word, and
    then leaves the file as it is (a missing file stays missing).
    Otherwise every entry with the word is gone, a search for it finds
    nothing, and the other entries stay, in their order. *)
Theorem delete_entry_removes_word w f es :
  load_dictionary f = Ok es →
  ((delete_entry w f).2 = Http404 ↔ w ∉ (word <$> es)) ∧
  (w ∉ (word <$> es) → delete_entry w f = (f, Http404)) ∧
  (w ∈ (word <$> es) →
   delete_entry w f =
     (FileOf (filter (λ x, word x ≠ w) es), Reply w) ∧
   search_dictionary w (delete_entry w f).1 = Reply ([], 0) ∧
   ∀ w', w' ≠ w →
         search_dictionary w' (delete_entry w f).1 = search_dictionary w' f).
Proof.
  intros Hload. unfold delete_entry. rewrite Hload.
  destruct (decide (length (filter (λ x, word x ≠ w) es) = length es))
    as [Hlen|Hlen].
  - apply filter_length_eq, not_in_words in Hlen.
    split; [done|]. split; [done|]. by intros ?.
  - assert (w ∈ (word <$> es)) as Hin.
    { destruct (decide (w ∈ (word <$> es))) as [|Hno]; [done|].
      exfalso. apply Hlen, filter_length_eq. by apply not_in_words. }
    split; [by split|]. split; [done|]. intros _. simpl.
    split; [done|].
    split.
    + rewrite (search_dictionary_loaded w _
                 (filter (λ x, word x ≠ w) es)) by done.
      rewrite filter_none; [done|].
      apply Forall_forall. by intros x [? _]%list_elem_of_filter.
    + intros w' Hw'. rewrite (search_dictionary_loaded _ _ _ Hload).
      rewrite (search_dictionary_loaded w' _
                 (filter (λ x, word x ≠ w) es)) by done.
      rewrite filter_filter_implied; [done|]. intros x. congruence.
Qed.

Lemma delete_entry_removes_word_witness :
  let f := FileOf [a_entry; zundamon_entry; a_entry_two_pitches] in
  delete_entry hira_a f = (FileOf [zundamon_entry], Reply hira_a) ∧
  delete_entry hira_a (FileOf [zundamon_entry]) =
    (FileOf [zundamon_entry], Http404) ∧
  delete_entry hira_a NoFile = (NoFile, Http404).
Proof.
  intros f.
  destruct (delete_entry_removes_word hira_a f _ eq_refl) as (_ & _ & Hdel).
  destruct (delete_entry_removes_word hira_a (FileOf [zundamon_entry]) _
              eq_refl) as (_ & Hnone & _).
  destruct (delete_entry_removes_word hira_a NoFile _ eq_refl)
    as (_ & Hmissing & _).
  split; [|split].
  - destruct Hdel as (-> & _).
    + apply list_elem_of_here.
    + vm_compute. reflexivity.
  - apply Hnone. apply (bool_decide_unpack _). vm_compute. exact I.
  - apply Hmissing. by intros ?%elem_of_nil.
Defined.

(** Adding an entry for a new word and deleting that word restores the
    dictionary. *)
Theorem add_then_delete_restores e f es :
  load_dictionary f = Ok es →
  word e ∉ (word <$> es) →
  delete_entry (word e) (add_entry e f).1 = (FileOf es, Reply (word e)).
Proof.
  intros Hload Hno. unfold add_entry. rewrite Hload. simpl.
  destruct (upsert_split es e)
    as [[_ Hup]|(es1 & x & es2 & -> & Hx & _ & _)].
  2: { exfalso. apply Hno. rewrite fmap_app, fmap_cons, elem_of_app,
         elem_of_cons. auto. }
  assert (filter (λ x, word x ≠ word e) (es ++ [e]) = es) as Hf.
  { rewrite filter_app, (filter_all _ es) by by apply not_in_words.
    rewrite filter_cons. destruct (decide (word e ≠ word e)); [done|].
    by rewrite app_nil_r. }
  unfold delete_entry. simpl. rewrite Hup, Hf.
  rewrite decide_False by (rewrite length_app; simpl; lia). done.
Qed.

Lemma add_then_delete_restores_witness :
  delete_entry hira_a (add_entry a_entry (FileOf [zundamon_entry])).1 =
  (FileOf [zundamon_entry], Reply hira_a) ∧
  delete_entry hira_a (add_entry a_entry NoFile).1 =
  (FileOf [], Reply hira_a).
Proof.
  split.
  - apply (add_then_delete_restores a_entry (FileOf [zundamon_entry]) _
             eq_refl).
    apply (bool_decide_unpack _). vm_compute. exact I.
  - apply (add_then_delete_restores a_entry NoFile [] eq_refl).
    by intros ?%elem_of_nil.
Defined.

(** ** The dictionary file and the handlers that apply it *)

(** A deleted word is not applied any more: after a successful
    [delete_entry], no request to [apply_dictionary] on the new file
    reports the word among the applied entries, and the matcher returns no
    result for an entry with this word. *)
Theorem deleted_word_never_applied w f f' w' :
  delete_entry w f = (f', Reply w') →
  (∀ req h,
     w ∉ resp_applied_entries (apply_dictionary (load_dictionary f') req h).2) ∧
  (∀ es q text m,
     load_dictionary f' = Ok es →
     m ∈ find_matches q es ∨ m ∈ find_matches_with_text q es text →
     word (entry m) ≠ w).
Proof.
  intros Hdel.
  assert (∀ es e, load_dictionary f' = Ok es → e ∈ es → word e ≠ w) as Hgone.
  { intros es e Hload He. unfold delete_entry in Hdel.
    destruct (load_dictionary f) as [es0|ex]; [|done].
    case_decide; [done|]. injection Hdel as <- _. injection Hload as <-.
    by apply list_elem_of_filter in He as [? _]. }
  split.
  - intros req h (es & e & Hload & He & Hw & _)%apply_dictionary_applied_sound.
    by apply (Hgone es e).
  - intros es q text m Hload [Hm|Hm].
    + apply find_matches_elem in Hm as (_ & _ & _ & He & _).
      by apply (Hgone es).
    + apply find_matches_with_text_elem in Hm
        as (j & ap & e & pos & _ & He & _ & Hm).
      apply record_match_elem in Hm as (a & b & -> & _).
      apply list_elem_of_filter in He as [_ He]. by apply (Hgone es).
Qed.

Lemma deleted_word_never_applied_witness :
  let f := FileOf [a_entry; zundamon_entry] in
  let req := {| req_audio_query := ref_of a_query; req_text := hira_a;
                req_speaker := 1 |} in
  resp_applied_entries
    (apply_dictionary (load_dictionary f) req (store_of a_query)).2
  = [hira_a] ∧
  hira_a ∉ resp_applied_entries
             (apply_dictionary
                (load_dictionary (delete_entry hira_a f).1) req
                (store_of a_query)).2.
Proof.
  intros f req. split; [vm_compute; reflexivity|].
  assert (delete_entry hira_a f = ((delete_entry hira_a f).1, Reply hira_a))
    as Hdel by (vm_compute; reflexivity).
  exact (proj1 (deleted_word_never_applied _ _ _ _ Hdel) req _).
Defined.

(** An added entry is found: after [add_entry], partial mode on the new
    file returns the entry for every segment that is spelled like its
    pronunciation and has a transcription on every unit, whenever the
    word occurs in the text. *)
Theorem added_entry_is_matched e f es q text j ap :
  load_dictionary f = Ok es →
  entry_valid e →
  get_accent_phrases q !! j = Some ap →
  Forall (λ m, get_text m ≠ []) (get_moras ap) →
  pronunciation e = phrase_pronunciation_of (get_moras ap) →
  is_substring (word e) text →
  ∃ es', load_dictionary (add_entry e f).1 = Ok es' ∧
         mk_match e j 0 (length (get_moras ap))
           ∈ find_matches_with_text q es' text.
Proof.
  intros Hload [Hw Hp] Hj Hunits Hpron Htext.
  exists (upsert es e). unfold add_entry. rewrite Hload. simpl.
  split; [done|].
  eapply whole_segment_match_found; try done. apply upsert_elem.
Qed.

Lemma added_entry_is_matched_witness :
  let q := query_of [phrase_of_chars kata_konnichiwa;
                     phrase_of_chars kata_zundamon] in
  ∃ es', load_dictionary (add_entry zundamon_pitched_entry NoFile).1
           = Ok es' ∧
         mk_match zundamon_pitched_entry 1 0 5
           ∈ find_matches_with_text q es' konnichiwa_zundamon_text.
Proof.
  intros q.
  apply (added_entry_is_matched zundamon_pitched_entry NoFile [] q
           konnichiwa_zundamon_text 1 (phrase_of_chars kata_zundamon)
           eq_refl).
  - split; by vm_compute.
  - reflexivity.
  - vm_compute. repeat constructor; done.
  - vm_compute. reflexivity.
  - by exists (hira_konnichiwa ++ touten), hira_desu.
Defined.
